(** * JSON validator: a shallow embedding of [src/utils/jsonValidator.ts]
    and of the input handler of [src/components/JsonValidator.tsx].

    A JavaScript string is modelled as a Rocq [string]; each [ascii] stands for
    one code unit, so the development covers texts whose code units are below
    256.  Built-ins of the host ([JSON.parse], [JSON.stringify]) and the schema
    library (Ajv) are parameters of the embedding; the module [Reference]
    instantiates them for closed examples.

    Contents: the host language ([Js]); the data model; the walkers of
    [checkJsonAnomalies]; the three passes of [checkDuplicateKeys] (line scan,
    comparison of serialisations, scope parser [Scanner]); the validator over a
    host; the reference host; the walkers on object graphs ([Graph]); the
    vocabulary of the statements, with the state of the component
    ([Component]) and the documents as written ([Doc]); the properties. *)

From Stdlib Require Import String Ascii List Arith ZArith Lia Bool DecimalString DecimalNat.
From Stdlib Require Import Sorted Permutation.
From stdpp Require Import base strings gmap.
#[local] Set Warnings "-abstract-large-number".
Import ListNotations.
Open Scope string_scope.
Open Scope list_scope.
Open Scope nat_scope.

(** ** Characters and strings of the host language *)

Module Js.

Definition LF : ascii := "010"%char.
Definition DQUOTE : ascii := "034"%char.
Definition BACKSLASH : ascii := "092"%char.
Definition SPACE : ascii := "032"%char.

Definition code (c : ascii) : nat := nat_of_ascii c.

(** [ch <= ' '] on one-character strings compares code units. *)
Definition le_space (c : ascii) : bool := code c <=? 32.

(** The regular-expression class [\s] and the white space removed by
    [String.prototype.trim], restricted to code units below 256:
    TAB, LF, VT, FF, CR, SP and NBSP. *)
Definition is_space (c : ascii) : bool :=
  let n := code c in
  ((9 <=? n) && (n <=? 13)) || (n =? 32) || (n =? 160).

(** The class [\d]. *)
Definition is_digit (c : ascii) : bool :=
  let n := code c in (48 <=? n) && (n <=? 57).

Definition digit_value (c : ascii) : nat := code c - 48.

(** [String(n)] for a non-negative integer. *)
Definition string_of_nat (n : nat) : string :=
  NilEmpty.string_of_uint (Nat.to_uint n).

(** Truthiness of a string: the empty string is falsy. *)
Definition truthy (s : string) : bool :=
  match s with EmptyString => false | String _ _ => true end.

Fixpoint drop_while (p : ascii -> bool) (s : string) : string :=
  match s with
  | EmptyString => EmptyString
  | String c s' => if p c then drop_while p s' else s
  end.

Fixpoint rev_string_onto (s acc : string) : string :=
  match s with
  | EmptyString => acc
  | String c s' => rev_string_onto s' (String c acc)
  end.

Definition rev_string (s : string) : string := rev_string_onto s EmptyString.

(** [s.trim()] *)
Definition trim (s : string) : string :=
  rev_string (drop_while is_space (rev_string (drop_while is_space s))).

(** [s.split('\n')]: the result always has at least one element. *)
Fixpoint split_lines_from (cur : string) (s : string) : list string :=
  match s with
  | EmptyString => [rev_string cur]
  | String c s' =>
      if Ascii.eqb c LF then rev_string cur :: split_lines_from EmptyString s'
      else split_lines_from (String c cur) s'
  end.

Definition split_lines (s : string) : list string := split_lines_from EmptyString s.

(** [s.startsWith(p)] is [String.prefix p s]; [s.includes(p)]: *)
Fixpoint includes (p s : string) : bool :=
  String.prefix p s ||
  match s with
  | EmptyString => false
  | String _ s' => includes p s'
  end.

(** The longest prefix of digits and what follows it. *)
Fixpoint span_digits (s : string) : string * string :=
  match s with
  | String c s' =>
      if is_digit c then let (d, r) := span_digits s' in (String c d, r)
      else (EmptyString, s)
  | EmptyString => (EmptyString, EmptyString)
  end.

(** [parseInt(d, 10)] on a string of digits. *)
Fixpoint parse_digits (acc : nat) (d : string) : nat :=
  match d with
  | EmptyString => acc
  | String c d' => parse_digits (10 * acc + digit_value c) d'
  end.

Definition parseInt (d : string) : nat := parse_digits 0 d.

Fixpoint skip (n : nat) (s : string) : string :=
  match n, s with
  | 0, _ => s
  | S n', String _ s' => skip n' s'
  | S _, EmptyString => EmptyString
  end.

(** [msg.match(/at position (\d+)/)]: the digits captured by the leftmost
    match, or [None] when the pattern does not occur. *)
Fixpoint match_at_position (msg : string) : option string :=
  let here :=
    if String.prefix "at position " msg then
      let (d, _) := span_digits (skip 12 msg) in
      if truthy d then Some d else None
    else None in
  match here with
  | Some d => Some d
  | None =>
      match msg with
      | EmptyString => None
      | String _ msg' => match_at_position msg'
      end
  end.

(** Values that a [throw] can carry, as far as the validator tells them
    apart: [instanceof SyntaxError], [instanceof TypeError], other [Error]
    objects, and thrown values that are not [Error] objects (kept as their
    [String(e)] form). *)
Inductive Exn : Type :=
| SyntaxErrorExn (msg : string)
| TypeErrorExn (msg : string)
| RangeErrorExn (msg : string)
| ErrorExn (msg : string)
| ThrownValue (shown : string).

Definition is_SyntaxError (e : Exn) : bool :=
  match e with SyntaxErrorExn _ => true | _ => false end.

Definition is_TypeError (e : Exn) : bool :=
  match e with TypeErrorExn _ => true | _ => false end.

(** [error instanceof Error ? error.message : String(error)] *)
Definition message_or_string (e : Exn) : string :=
  match e with
  | SyntaxErrorExn m | TypeErrorExn m | RangeErrorExn m | ErrorExn m => m
  | ThrownValue s => s
  end.

(** The result of calling a function of the host: it returns or it throws. *)
Inductive completion (A : Type) : Type :=
| Returns (a : A)
| Throws (e : Exn).
Arguments Returns {A} a.
Arguments Throws {A} e.

End Js.

Import Js.

(** ** Data model: [ValidationResult], [ValidationError] *)

(** The strings stored in [ValidationError.type]. *)
Inductive ErrorKind : Type :=
| EmptyInput | SyntaxError | DuplicateKey | CircularReference | InvalidNumber
| ExcessiveNesting | LargeArray | LargeObject | SchemaError | UnknownError.

Definition ErrorKind_eqb (a b : ErrorKind) : bool :=
  match a, b with
  | EmptyInput, EmptyInput | SyntaxError, SyntaxError
  | DuplicateKey, DuplicateKey | CircularReference, CircularReference
  | InvalidNumber, InvalidNumber | ExcessiveNesting, ExcessiveNesting
  | LargeArray, LargeArray | LargeObject, LargeObject
  | SchemaError, SchemaError | UnknownError, UnknownError => true
  | _, _ => false
  end.

(** Optional properties ([path?], [line?], [column?]) are [option]s: [None]
    is a property that the object literal does not set. *)
Record ValidationError : Type := mkError {
  type : ErrorKind;
  message : string;
  path : option string;
  line : option nat;
  column : option nat
}.

Record ValidationResult : Type := mkResult {
  valid : bool;
  errors : list ValidationError
}.

(** [{ valid: true, errors: [] }] *)
Definition fresh_result : ValidationResult := mkResult true [].

(** [result.valid = false; result.errors.push(e)] *)
Definition report (e : ValidationError) (r : ValidationResult) : ValidationResult :=
  mkResult false (errors r ++ [e]).

(** [result.errors.push(e)] alone. *)
Definition push (e : ValidationError) (r : ValidationResult) : ValidationResult :=
  mkResult (valid r) (errors r ++ [e]).

Definition kinds (r : ValidationResult) : list ErrorKind := map type (errors r).

Definition count_kind (k : ErrorKind) (r : ValidationResult) : nat :=
  List.length (List.filter (fun e => ErrorKind_eqb (type e) k) (errors r)).

(** The invariant of section 3 of the specification. *)
Definition consistent (r : ValidationResult) : Prop :=
  (valid r = true /\ errors r = []) \/ (valid r = false /\ errors r <> []).

(** ** Position tracking *)

(** The loop
    [for (let i = 0; i < position; i++)
       if (text[i] === '\n') { line++; column = 1 } else { column++ }]
    started at [i] with [n] iterations left.  [text[i]] is [undefined] beyond
    the end of the text, which is not a line feed. *)
Fixpoint position_loop (text : string) (n i : nat) (lc : nat * nat) : nat * nat :=
  match n with
  | 0 => lc
  | S n' =>
      let (l, c) := lc in
      let lc' :=
        match String.get i text with
        | Some ch => if Ascii.eqb ch LF then (S l, 1) else (l, S c)
        | None => (l, S c)
        end in
      position_loop text n' (S i) lc'
  end.

(** [let line = 1; let column = 1;] followed by the loop up to [position]. *)
Definition line_column (text : string) (position : nat) : nat * nat :=
  position_loop text position 0 (1, 1).

(** ** The value model *)

(** A JavaScript number: a finite value, written [mantissa * 10 ^ exponent],
    or one of the three non-finite values.  Only [Number.isFinite] and the
    text of a non-finite value are observed by the validator. *)
Inductive Number : Type :=
| Finite (mantissa exponent : Z)
| NaN
| PosInfinity
| NegInfinity.

(** [None] when [Number.isFinite(n)]; otherwise the text of [`${n}`]. *)
Definition nonfinite_text (n : Number) : option string :=
  match n with
  | Finite _ _ => None
  | NaN => Some "NaN"
  | PosInfinity => Some "Infinity"
  | NegInfinity => Some "-Infinity"
  end.

(** What [JSON.parse] returns: a tree. The members of an object are listed in
    the order in which [Object.entries], [Object.keys] and [for ... in]
    enumerate them. *)
Unset Elimination Schemes.
Inductive JsonValue : Type :=
| JNull
| JBool (b : bool)
| JNumber (n : Number)
| JString (s : string)
| JArray (items : list JsonValue)
| JObject (members : list (string * JsonValue)).
Set Elimination Schemes.

Section JsonValue_induction.

Variable P : JsonValue -> Prop.
Hypothesis Hnull : P JNull.
Hypothesis Hbool : forall b, P (JBool b).
Hypothesis Hnumber : forall n, P (JNumber n).
Hypothesis Hstring : forall s, P (JString s).
Hypothesis Harray : forall items, Forall P items -> P (JArray items).
Hypothesis Hobject :
  forall members, Forall (fun kv => P (snd kv)) members -> P (JObject members).

Fixpoint JsonValue_tree_ind (v : JsonValue) : P v :=
  match v with
  | JNull => Hnull
  | JBool b => Hbool b
  | JNumber n => Hnumber n
  | JString s => Hstring s
  | JArray items =>
      Harray items
        ((fix all (l : list JsonValue) : Forall P l :=
            match l with
            | [] => List.Forall_nil P
            | x :: l' => @List.Forall_cons _ P x l' (JsonValue_tree_ind x) (all l')
            end) items)
  | JObject members =>
      Hobject members
        ((fix all (l : list (string * JsonValue)) : Forall (fun kv => P (snd kv)) l :=
            match l with
            | [] => List.Forall_nil _
            | kv :: l' =>
                @List.Forall_cons _ _ kv l' (JsonValue_tree_ind (snd kv)) (all l')
            end) members)
  end.

End JsonValue_induction.

(** ** [checkJsonAnomalies] on a parsed tree *)

Definition MAX_DEPTH : nat := 100.
Definition MAX_COLLECTION_SIZE : nat := 100000.

(** [`${path}[${index}]`] *)
Definition index_path (path : string) (index : nat) : string :=
  (path ++ "[" ++ string_of_nat index ++ "]")%string.

(** [path ? `${path}.${key}` : key] *)
Definition member_path (path key : string) : string :=
  if truthy path then (path ++ "." ++ key)%string else key.

(** [path || 'root'] *)
Definition path_or_root (path : string) : string :=
  if truthy path then path else "root".

Definition invalid_number_error (text path : string) : ValidationError :=
  mkError InvalidNumber ("Invalid number value: " ++ text)%string (Some path) None None.

Definition excessive_nesting_error : ValidationError :=
  mkError ExcessiveNesting
    ("JSON exceeds maximum recommended nesting depth of " ++ string_of_nat MAX_DEPTH)%string
    None None None.

Definition large_array_error (path : string) (len : nat) : ValidationError :=
  mkError LargeArray
    ("Array at " ++ path_or_root path ++ " contains " ++ string_of_nat len
     ++ " items, which exceeds the recommended limit of "
     ++ string_of_nat MAX_COLLECTION_SIZE)%string
    (Some path) None None.

Definition large_object_error (path : string) (len : nat) : ValidationError :=
  mkError LargeObject
    ("Object at " ++ path_or_root path ++ " contains " ++ string_of_nat len
     ++ " properties, which exceeds the recommended limit of "
     ++ string_of_nat MAX_COLLECTION_SIZE)%string
    (Some path) None None.

Definition circular_reference_error : ValidationError :=
  mkError CircularReference "Circular reference detected in JSON data" None None None.

(** The closures of [checkJsonAnomalies] mutate the one [result] object; here
    each takes the current [result] and returns the updated one. *)
Fixpoint checkForInvalidNumbers (obj : JsonValue) (path : string)
    (result : ValidationResult) : ValidationResult :=
  match obj with
  | JNull => result
  | JNumber n =>
      match nonfinite_text n with
      | Some text => report (invalid_number_error text path) result
      | None => result
      end
  | JArray items =>
      (fix forEach (l : list JsonValue) (index : nat) (result : ValidationResult) :=
         match l with
         | [] => result
         | item :: l' =>
             forEach l' (S index)
               (checkForInvalidNumbers item (index_path path index) result)
         end) items 0 result
  | JObject members =>
      (fix forEach (l : list (string * JsonValue)) (result : ValidationResult) :=
         match l with
         | [] => result
         | (key, value) :: l' =>
             forEach l' (checkForInvalidNumbers value (member_path path key) result)
         end) members result
  | JBool _ | JString _ => result
  end.

(** [checkDepth] returns the depth it reached and the updated [result]. *)
Fixpoint checkDepth (obj : JsonValue) (currentDepth : nat)
    (result : ValidationResult) : nat * ValidationResult :=
  if MAX_DEPTH <? currentDepth then
    (currentDepth, report excessive_nesting_error result)
  else
    match obj with
    | JArray items =>
        (fix each (l : list JsonValue) (maxDepth : nat) (result : ValidationResult) :=
           match l with
           | [] => (maxDepth, result)
           | item :: l' =>
               let (depth, result) := checkDepth item (currentDepth + 1) result in
               each l' (Nat.max maxDepth depth) result
           end) items currentDepth result
    | JObject members =>
        (fix each (l : list (string * JsonValue)) (maxDepth : nat)
           (result : ValidationResult) :=
           match l with
           | [] => (maxDepth, result)
           | (_, value) :: l' =>
               let (depth, result) := checkDepth value (currentDepth + 1) result in
               each l' (Nat.max maxDepth depth) result
           end) members currentDepth result
    | _ => (currentDepth, result)
    end.

Fixpoint checkSize (obj : JsonValue) (path : string)
    (result : ValidationResult) : ValidationResult :=
  match obj with
  | JArray items =>
      if MAX_COLLECTION_SIZE <? List.length items then
        report (large_array_error path (List.length items)) result
      else
        (* [Object.keys] of an array lists its indices *)
        let keys := List.length items in
        let result :=
          if MAX_COLLECTION_SIZE <? keys then report (large_object_error path keys) result
          else result in
        (fix forEach (l : list JsonValue) (index : nat) (result : ValidationResult) :=
           match l with
           | [] => result
           | item :: l' =>
               forEach l' (S index) (checkSize item (index_path path index) result)
           end) items 0 result
  | JObject members =>
      let keys := List.length members in
      let result :=
        if MAX_COLLECTION_SIZE <? keys then report (large_object_error path keys) result
        else result in
      (fix forEach (l : list (string * JsonValue)) (result : ValidationResult) :=
         match l with
         | [] => result
         | (key, value) :: l' =>
             forEach l' (checkSize value (member_path path key) result)
         end) members result
  | _ => result
  end.

(** ** The line-local scan of [checkDuplicateKeys] *)

(** The longest prefix without a double quote, and what follows it. *)
Fixpoint span_unquoted (s : string) : string * string :=
  match s with
  | String c s' =>
      if Ascii.eqb c DQUOTE then (EmptyString, s)
      else let (run, after) := span_unquoted s' in (String c run, after)
  | EmptyString => (EmptyString, EmptyString)
  end.

Fixpoint span_space (s : string) : nat * string :=
  match s with
  | String c s' =>
      if is_space c then let (n, after) := span_space s' in (S n, after)
      else (0, s)
  | EmptyString => (0, EmptyString)
  end.

(** A match of the pattern [keyRegex] that starts at the first character of
    [s]: a double quote, one or more characters other than a double quote
    (the captured key), a double quote, [\s*], and a colon.  The result is the
    key and the length of the match.  The pattern has no choice to make: the
    key ends at the next quote, and [\s*] ends at the first character that is
    not white space. *)
Definition keyRegex_at (s : string) : option (string * nat) :=
  match s with
  | String c s1 =>
      if Ascii.eqb c DQUOTE then
        let (key, after) := span_unquoted s1 in
        if truthy key then
          match after with
          | String _ s2 =>            (* the closing quote *)
              let (n, s3) := span_space s2 in
              match s3 with
              | String d _ =>
                  if Ascii.eqb d ":"%char
                  then Some (key, 1 + String.length key + 1 + n + 1)
                  else None
              | EmptyString => None
              end
          | EmptyString => None
          end
        else None
      else None
  | EmptyString => None
  end.

(** The loop [while ((match = keyRegex.exec(line)) !== null)] with the global
    flag: every call returns the leftmost match that starts at or after
    [lastIndex], and moves [lastIndex] to its end.  [s] is the part of the line
    from index [index] on; the result lists [match[1]] and [match.index]. *)
Fixpoint keyRegex_exec_all (s : string) (index lastIndex : nat) : list (string * nat) :=
  match s with
  | EmptyString => []
  | String _ s' =>
      if lastIndex <=? index then
        match keyRegex_at s with
        | Some (key, len) => (key, index) :: keyRegex_exec_all s' (S index) (index + len)
        | None => keyRegex_exec_all s' (S index) lastIndex
        end
      else keyRegex_exec_all s' (S index) lastIndex
  end.

(** [keys : Map<string, number[]>], in insertion order:
    [if (!keys.has(key)) keys.set(key, [column]) else keys.get(key).push(column)] *)
Fixpoint keys_record (key : string) (column : nat) (keys : list (string * list nat))
    : list (string * list nat) :=
  match keys with
  | [] => [(key, [column])]
  | (k, positions) :: keys' =>
      if String.eqb k key then (k, positions ++ [column]) :: keys'
      else (k, positions) :: keys_record key column keys'
  end.

Record LineDuplicate : Type := mkLineDuplicate {
  dup_key : string;
  dup_line : nat;
  dup_column : nat
}.

(** The body of [for (let lineNum = 0; ...)] for one line. *)
Definition scan_line (lineNum : nat) (line : string) : list LineDuplicate :=
  let keys :=
    fold_left (fun keys m => keys_record (fst m) (snd m + 1) keys)
      (keyRegex_exec_all line 0 0) [] in
  flat_map
    (fun entry : string * list nat =>
       let (key, positions) := entry in
       if 1 <? List.length positions then
         map (fun column => mkLineDuplicate key (lineNum + 1) column) (tl positions)
       else [])
    keys.

Fixpoint scan_lines (lineNum : nat) (lines : list string) : list LineDuplicate :=
  match lines with
  | [] => []
  | line :: lines' => scan_line lineNum line ++ scan_lines (S lineNum) lines'
  end.

Definition line_duplicates (jsonString : string) : list LineDuplicate :=
  scan_lines 0 (split_lines jsonString).

Definition quoted (s : string) : string :=
  (String DQUOTE s ++ String DQUOTE EmptyString)%string.

(** The message [Duplicate key ... found in object], the key between double
    quotes, with a text position. *)
Definition duplicate_key_error (key : string) (line column : nat) : ValidationError :=
  mkError DuplicateKey ("Duplicate key " ++ quoted key ++ " found in object")%string
    None (Some line) (Some column).

(** ** The comparison of two serialisations in [checkDuplicateKeys] *)

(** [JSON.parse(text, (k, v) => v)] parses, then visits the tree bottom-up and
    stores back, under every key and index, what the reviver returns for it:
    with this reviver, the value that is already there. *)
Fixpoint revive_identity (v : JsonValue) : JsonValue :=
  match v with
  | JArray items => JArray (map revive_identity items)
  | JObject members =>
      JObject (map (fun kv => (fst kv, revive_identity (snd kv))) members)
  | _ => v
  end.

(** [path.split('.').pop() || path] *)
Fixpoint after_last_dot (cur s : string) : string :=
  match s with
  | EmptyString => rev_string cur
  | String c s' =>
      if Ascii.eqb c "."%char then after_last_dot EmptyString s'
      else after_last_dot (String c cur) s'
  end.

Definition last_segment (path : string) : string :=
  let seg := after_last_dot EmptyString path in
  if truthy seg then seg else path.

(** [collectKeys]: every key path of the tree (its result is not used). *)
Fixpoint collectKeys (obj : JsonValue) (path : string) (keyPaths : list string)
    : list string :=
  match obj with
  | JArray items =>
      (fix forEach (l : list JsonValue) (index : nat) (keyPaths : list string) :=
         match l with
         | [] => keyPaths
         | item :: l' =>
             forEach l' (S index)
               (collectKeys item
                  (if truthy path then index_path path index else index_path "" index)
                  keyPaths)
         end) items 0 keyPaths
  | JObject members =>
      (fix each (l : list (string * JsonValue)) (keyPaths : list string) :=
         match l with
         | [] => keyPaths
         | (key, value) :: l' =>
             let newPath := member_path path key in
             each l' (collectKeys value newPath (keyPaths ++ [newPath]))
         end) members keyPaths
  | _ => keyPaths
  end.

(** [detectDuplicates]: the paths of the keys that [Object.keys] lists twice. *)
Fixpoint detectDuplicates (obj : JsonValue) (path : string)
    (duplicateKeyPaths : list string) : list string :=
  match obj with
  | JObject members =>
      (fix each (l : list (string * JsonValue)) (keySet : gset string)
         (duplicateKeyPaths : list string) :=
         match l with
         | [] => duplicateKeyPaths
         | (key, value) :: l' =>
             let duplicateKeyPaths :=
               if bool_decide (key ∈ keySet)
               then duplicateKeyPaths ++ [member_path path key]
               else duplicateKeyPaths in
             each l' ({[key]} ∪ keySet)
               (detectDuplicates value (member_path path key) duplicateKeyPaths)
         end) members ∅ duplicateKeyPaths
  | JArray items =>
      (fix forEach (l : list JsonValue) (index : nat) (duplicateKeyPaths : list string) :=
         match l with
         | [] => duplicateKeyPaths
         | item :: l' =>
             forEach l' (S index)
               (detectDuplicates item
                  (if truthy path then index_path path index else index_path "" index)
                  duplicateKeyPaths)
         end) items 0 duplicateKeyPaths
  | _ => duplicateKeyPaths
  end.

(** The message [Duplicate key ... found in object at path: ${path}], the key
    between double quotes. *)
Definition duplicate_path_error (path : string) : ValidationError :=
  mkError DuplicateKey
    ("Duplicate key " ++ quoted (last_segment path)
     ++ " found in object at path: " ++ path)%string
    (Some path) None None.

(** ** The scope-tracking parser of [checkDuplicateKeys] *)

(** How a run of the program ends.  [Diverges] is a loop that never exits;
    [OutOfFuel] belongs to the embedding alone: recursion through [value] is by
    a counter, and [parser_fuel] below is shown to be enough. *)
Inductive behaviour (A : Type) : Type :=
| Finishes (a : A)
| Raises (e : Exn)
| Diverges
| OutOfFuel.
Arguments Finishes {A} a.
Arguments Raises {A} e.
Arguments Diverges {A}.
Arguments OutOfFuel {A}.

Module Scanner.

(** The variables captured by the closures: [at], [ch] and [result], and the
    text that [input.charAt(at)] has not read yet ([unread] is
    [input.substring(at)]).  [ch = None] is the empty string that [charAt]
    returns beyond the end. *)
Record state : Type := mkState {
  at_ : nat;
  ch : option ascii;
  unread : string;
  result : ValidationResult
}.

(** How a call of one of the closures ends. *)
Inductive outcome : Type :=
| Done (st : state)
| Thrown (e : Exn) (st : state)
| Forever
| NoFuel.

Definition ch_is (c : ascii) (st : state) : bool :=
  match ch st with
  | Some d => Ascii.eqb d c
  | None => false
  end.

(** [ch = input.charAt(at); at += 1] *)
Definition next (st : state) : state :=
  match unread st with
  | String c s => mkState (at_ st + 1) (Some c) s (result st)
  | EmptyString => mkState (at_ st + 1) None EmptyString (result st)
  end.

(** [while (ch && ch <= ' ') next()] *)
Fixpoint white_loop (unread : string) (at_ : nat) (ch : option ascii)
    : nat * option ascii * string :=
  match ch with
  | Some c =>
      if le_space c then
        match unread with
        | String c' s => white_loop s (at_ + 1) (Some c')
        | EmptyString => (at_ + 1, None, EmptyString)
        end
      else (at_, ch, unread)
  | None => (at_, ch, unread)
  end.

Definition white (st : state) : state :=
  let '(a, c, s) := white_loop (unread st) (at_ st) (ch st) in
  mkState a c s (result st).

(** The loop of [string]:
    [while (next() !== DQUOTE) { if (ch === BACKSLASH) next(); str += ch; }].
    [None]: the text ends before the closing quote; [next()] then returns
    the empty string for ever and the loop does not exit.  Otherwise the state
    in which the loop exits ([ch] is the closing quote) and [str]. *)
Fixpoint string_loop (unread : string) (at_ : nat) (str : string)
    : option (nat * string * string) :=
  match unread with
  | EmptyString => None
  | String c s =>
      if Ascii.eqb c DQUOTE then Some (at_ + 1, s, str)
      else if Ascii.eqb c BACKSLASH then
        match s with
        | String c2 s2 => string_loop s2 (at_ + 2) (str ++ String c2 EmptyString)
        | EmptyString => None
        end
      else string_loop s (at_ + 1) (str ++ String c EmptyString)
  end.

(** [string()]: [None] when it does not return. *)
Definition string_ (st : state) : option (string * state) :=
  if ch_is DQUOTE st then
    match string_loop (unread st) (at_ st) EmptyString with
    | Some (a, s, str) =>
        Some (str, next (mkState a (Some DQUOTE) s (result st)))
    | None => None
    end
  else Some (EmptyString, st).

(** [while (ch && ch > ' ' && ch !== ',' && ch !== ']' && ch !== '}') next()] *)
Definition in_primitive (c : ascii) : bool :=
  negb (le_space c) && negb (Ascii.eqb c ","%char)
  && negb (Ascii.eqb c "]"%char) && negb (Ascii.eqb c "}"%char).

Fixpoint primitive_loop (unread : string) (at_ : nat) (ch : option ascii)
    : nat * option ascii * string :=
  match ch with
  | Some c =>
      if in_primitive c then
        match unread with
        | String c' s => primitive_loop s (at_ + 1) (Some c')
        | EmptyString => (at_ + 1, None, EmptyString)
        end
      else (at_, ch, unread)
  | None => (at_, ch, unread)
  end.

Definition primitive (st : state) : state :=
  let '(a, c, s) := primitive_loop (unread st) (at_ st) (ch st) in
  mkState a c s (result st).

(** [throw new SyntaxError(m)] *)
Definition error (m : string) (st : state) : outcome := Thrown (SyntaxErrorExn m) st.

Section Closures.

Variable input : string.

(** The report of a repeated key: [pos = at - key.length - 3], then the
    position loop up to [pos] (no iteration when [pos] is not positive). *)
Definition report_duplicate (key : string) (st : state) : state :=
  let pos := at_ st - String.length key - 3 in
  let (line, column) := line_column input pos in
  mkState (at_ st) (ch st) (unread st)
    (report (duplicate_key_error key line column) (result st)).

(** [value] as seen from [object] and [array]. *)
Variable value : state -> outcome.

(** The loop [while (ch) { ... }] of [object], with [n] iterations allowed. *)
Fixpoint object_loop (n : nat) (keys : gset string) (st : state) : outcome :=
  match ch st with
  | None => error "Bad object" st
  | Some _ =>
      match n with
      | 0 => NoFuel
      | S n' =>
          let st := white st in
          if negb (ch_is DQUOTE st) then error "Bad object" st
          else
            match string_ st with
            | None => Forever
            | Some (key, st) =>
                let st := white st in
                if negb (ch_is ":"%char st) then error "Bad object" st
                else
                  let st := next st in
                  let st :=
                    if bool_decide (key ∈ keys) then report_duplicate key st else st in
                  let keys := {[key]} ∪ keys in
                  match value st with
                  | Done st =>
                      let st := white st in
                      if ch_is "}"%char st then Done (next st)
                      else if negb (ch_is ","%char st) then error "Bad object" st
                      else object_loop n' keys (next st)
                  | other => other
                  end
            end
      end
  end.

Definition object_ (n : nat) (st : state) : outcome :=
  let keys : gset string := ∅ in
  if ch_is "{"%char st then
    let st := white (next st) in
    if ch_is "}"%char st then Done (next st)
    else object_loop n keys st
  else Done st.

(** The loop [while (ch) { ... }] of [array]. *)
Fixpoint array_loop (n : nat) (st : state) : outcome :=
  match ch st with
  | None => error "Bad array" st
  | Some _ =>
      match n with
      | 0 => NoFuel
      | S n' =>
          match value st with
          | Done st =>
              let st := white st in
              if ch_is "]"%char st then Done (next st)
              else if negb (ch_is ","%char st) then error "Bad array" st
              else array_loop n' (white (next st))
          | other => other
          end
      end
  end.

Definition array_ (n : nat) (st : state) : outcome :=
  if ch_is "["%char st then
    let st := white (next st) in
    if ch_is "]"%char st then Done (next st)
    else array_loop n st
  else error "Bad array" st.

End Closures.

(** [value()], with [fuel] bounding the nesting of calls and the iterations
    of the loops of [object] and [array]. *)
Fixpoint value (input : string) (fuel : nat) (st : state) : outcome :=
  match fuel with
  | 0 => NoFuel
  | S fuel' =>
      let st := white st in
      if ch_is "{"%char st then object_ input (value input fuel') fuel' st
      else if ch_is "["%char st then array_ (value input fuel') fuel' st
      else if ch_is DQUOTE st then
        match string_ st with
        | Some (_, st) => Done st
        | None => Forever
        end
      else if ch_is "-"%char st then Done (primitive (next st))
      else Done (primitive st)
  end.

(** Enough fuel for any text: every iteration and every nested call reads at
    least one character. *)
Definition parser_fuel (input : string) : nat := String.length input + 2.

(** The body of the last [try] block:
    [let at = 0; let ch = ' '; white(); value(); white();
     if (ch) error('Syntax error')]. *)
Definition scan (input : string) (result : ValidationResult) : outcome :=
  let st := mkState 0 (Some SPACE) input result in
  let st := white st in
  match value input (parser_fuel input) st with
  | Done st =>
      let st := white st in
      match ch st with
      | Some _ => error "Syntax error" st
      | None => Done st
      end
  | other => other
  end.

(** The [result] object when the call ends, normally or by an exception. *)
Definition result_of (o : outcome) : option ValidationResult :=
  match o with
  | Done st | Thrown _ st => Some (result st)
  | Forever | NoFuel => None
  end.

End Scanner.

(** ** The schema library *)

(** An entry of [validate.errors]: [message] may be missing. *)
Record ErrorObject : Type := mkErrorObject {
  err_message : option string;
  instancePath : string
}.

(** One call [validate(data)]: the truth value of what it returns, and
    [validate.errors] afterwards ([None] for [null]). *)
Record Validation : Type := mkValidation {
  passed : bool;
  validate_errors : option (list ErrorObject)
}.

Definition ValidateFunction : Type := JsonValue -> Validation.

(** [err.message || 'Unknown schema validation error'] *)
Definition schema_error_message (err : ErrorObject) : string :=
  match err_message err with
  | Some m => if truthy m then m else "Unknown schema validation error"
  | None => "Unknown schema validation error"
  end.

Definition schema_error (err : ErrorObject) : ValidationError :=
  mkError SchemaError (schema_error_message err) (Some (instancePath err)) None None.

(** The stages that [validateJson] sequences. *)
Inductive Stage : Type :=
| DuplicateKeyScan | SyntaxCheck | Parse | AnomalyWalk | SchemaCheck.

(** ** The validator over a host *)

Section Validator.

(** [JSON.parse(text)] *)
Variable JSON_parse : string -> completion JsonValue.
(** [JSON.stringify(value)] *)
Variable JSON_stringify : JsonValue -> completion string.
(** [new Ajv({ allErrors: true }).compile(schema)] *)
Variable ajv_compile : JsonValue -> completion ValidateFunction.

Definition validateJsonSyntax (jsonString : string) : ValidationResult :=
  let result := fresh_result in
  match JSON_parse jsonString with
  | Returns _ => result
  | Throws error =>
      let result := mkResult false (errors result) in
      match error with
      | SyntaxErrorExn msg =>
          let position := option_map parseInt (match_at_position msg) in
          let (line, column) :=
            match position with
            | Some p => line_column jsonString p
            | None => (1, 1)
            end in
          push (mkError SyntaxError msg None (Some line) (Some column)) result
      | _ =>
          push (mkError UnknownError (message_or_string error) None None None) result
      end
  end.

Definition validateJsonSchema (jsonData schema : JsonValue) : completion ValidationResult :=
  match ajv_compile schema with
  | Throws e => Throws e
  | Returns validate =>
      let v := validate jsonData in
      let result := mkResult (passed v) [] in
      Returns
        (match negb (passed v), validate_errors v with
         | true, Some errs => mkResult (valid result) (map schema_error errs)
         | _, _ => result
         end)
  end.

(** The first [try] block of [checkDuplicateKeys]: the updated [result], or
    the exception that reaches its [catch]. *)
Definition compare_serialisations (jsonString : string) (result : ValidationResult)
    : completion ValidationResult :=
  match JSON_parse jsonString with
  | Throws e => Throws e
  | Returns strict =>
  match JSON_stringify strict with
  | Throws e => Throws e
  | Returns strictJSON =>
  match JSON_parse jsonString with
  | Throws e => Throws e
  | Returns lenient =>
  match JSON_stringify (revive_identity lenient) with
  | Throws e => Throws e
  | Returns lenientJSON =>
      if negb (String.length strictJSON =? String.length lenientJSON) then
        match JSON_parse jsonString with
        | Throws e => Throws e
        | Returns parsed =>
            let keyPaths := collectKeys parsed "" [] in
            let duplicateKeyPaths := detectDuplicates parsed "" [] in
            Returns
              (if 0 <? List.length duplicateKeyPaths then
                 fold_left (fun result path => push (duplicate_path_error path) result)
                   duplicateKeyPaths (mkResult false (errors result))
               else result)
        end
      else Returns result
  end end end end.

(** [if (duplicates.length > 0) { result.valid = false; for (...) push }] *)
Definition add_line_duplicates (duplicates : list LineDuplicate)
    (result : ValidationResult) : ValidationResult :=
  if 0 <? List.length duplicates then
    fold_left
      (fun result dup =>
         push (duplicate_key_error (dup_key dup) (dup_line dup) (dup_column dup)) result)
      duplicates (mkResult false (errors result))
  else result.

Definition checkDuplicateKeys (jsonString : string) : behaviour ValidationResult :=
  let result := fresh_result in
  let duplicates := line_duplicates jsonString in
  let after_comparison :=
    match compare_serialisations jsonString result with
    | Returns result => inr result
    | Throws _ =>
        let syntaxResult := validateJsonSyntax jsonString in
        if negb (valid syntaxResult) then inl syntaxResult else inr result
    end in
  match after_comparison with
  | inl syntaxResult => Finishes syntaxResult
  | inr result =>
      let result := add_line_duplicates duplicates result in
      match Scanner.scan jsonString result with
      | Scanner.Done st => Finishes (Scanner.result st)
      | Scanner.Thrown e st =>
          let result := Scanner.result st in
          if is_SyntaxError e
             && negb (String.prefix "Syntax error" (message_or_string e)) then
            let syntaxResult := validateJsonSyntax jsonString in
            if negb (valid syntaxResult) then Finishes syntaxResult
            else Finishes result
          else Finishes result
      | Scanner.Forever => Diverges
      | Scanner.NoFuel => OutOfFuel
      end
  end.

Definition checkJsonAnomalies (jsonData : JsonValue) : ValidationResult :=
  let result := fresh_result in
  let result :=
    match JSON_stringify jsonData with
    | Returns _ => result
    | Throws (TypeErrorExn msg) =>
        if includes "circular" msg then report circular_reference_error result
        else result
    | Throws _ => result
    end in
  let result := checkForInvalidNumbers jsonData "" result in
  let result := snd (checkDepth jsonData 0 result) in
  let result := checkSize jsonData "" result in
  result.

(** [validateJson], together with the stages it has called when it ends. *)
Definition validateJson_stages (jsonString : string) (schema : option JsonValue)
    : list Stage * behaviour ValidationResult :=
  match checkDuplicateKeys jsonString with
  | Finishes duplicateKeysResult =>
      if negb (valid duplicateKeysResult) then
        ([DuplicateKeyScan], Finishes duplicateKeysResult)
      else
        let syntaxResult := validateJsonSyntax jsonString in
        if negb (valid syntaxResult) then
          ([DuplicateKeyScan; SyntaxCheck], Finishes syntaxResult)
        else
          match JSON_parse jsonString with
          | Throws e => ([DuplicateKeyScan; SyntaxCheck; Parse], Raises e)
          | Returns jsonData =>
              let anomalyResult := checkJsonAnomalies jsonData in
              match schema with
              | Some schema =>
                  ([DuplicateKeyScan; SyntaxCheck; Parse; AnomalyWalk; SchemaCheck],
                   match validateJsonSchema jsonData schema with
                   | Throws e => Raises e
                   | Returns schemaResult =>
                       Finishes
                         (mkResult (valid anomalyResult && valid schemaResult)
                            (errors anomalyResult ++ errors schemaResult))
                   end)
              | None =>
                  ([DuplicateKeyScan; SyntaxCheck; Parse; AnomalyWalk],
                   Finishes anomalyResult)
              end
          end
  | Raises e => ([DuplicateKeyScan], Raises e)
  | Diverges => ([DuplicateKeyScan], Diverges)
  | OutOfFuel => ([DuplicateKeyScan], OutOfFuel)
  end.

Definition validateJson (jsonString : string) (schema : option JsonValue)
    : behaviour ValidationResult :=
  snd (validateJson_stages jsonString schema).

(** ** The input handler of the component *)

Definition empty_input_result : ValidationResult :=
  mkResult false [mkError EmptyInput "JSON input is empty" None None None].

(** [validateJsonInput]: what it passes to [setValidationResult], and the
    stages that have run. *)
Definition validateJsonInput_stages (jsonInput : string)
    : list Stage * behaviour ValidationResult :=
  if negb (truthy (trim jsonInput)) then ([], Finishes empty_input_result)
  else validateJson_stages jsonInput None.

Definition validateJsonInput (jsonInput : string) : behaviour ValidationResult :=
  snd (validateJsonInput_stages jsonInput).

End Validator.

(** ** A reference host

    [JSON.parse] after the grammar of ECMA-404, with the diagnostics of V8
    ([Unexpected token c in JSON at position p], [Unexpected end of JSON
    input]); [JSON.stringify] for trees; and a stand-in for the schema library
    that knows the keyword [type].  The theorems below hold for every host;
    this one serves the closed examples. *)

Module Reference.

Inductive parsed (A : Type) : Type :=
| Ok (a : A) (rest : string) (pos : nat)
| Bad (e : Exn).
Arguments Ok {A} a rest pos.
Arguments Bad {A} e.

Definition unexpected_end {A} : parsed A :=
  Bad (SyntaxErrorExn "Unexpected end of JSON input").

(** The diagnostic for the character [c] read at [pos]. *)
Definition unexpected {A} (c : ascii) (pos : nat) : parsed A :=
  let what :=
    if is_digit c || Ascii.eqb c "-"%char then "Unexpected number"
    else if Ascii.eqb c DQUOTE then "Unexpected string"
    else ("Unexpected token " ++ String c EmptyString)%string in
  Bad (SyntaxErrorExn (what ++ " in JSON at position " ++ string_of_nat pos)%string).

Definition unexpected_here {A} (s : string) (pos : nat) : parsed A :=
  match s with
  | String c _ => unexpected c pos
  | EmptyString => unexpected_end
  end.

(** JSON white space: TAB, LF, CR, SP. *)
Definition is_ws (c : ascii) : bool :=
  let n := code c in (n =? 9) || (n =? 10) || (n =? 13) || (n =? 32).

Fixpoint skip_ws (s : string) (pos : nat) : string * nat :=
  match s with
  | String c s' => if is_ws c then skip_ws s' (S pos) else (s, pos)
  | EmptyString => (s, pos)
  end.

Definition hex_value (c : ascii) : option nat :=
  let n := code c in
  if is_digit c then Some (n - 48)
  else if (97 <=? n) && (n <=? 102) then Some (n - 87)
  else if (65 <=? n) && (n <=? 70) then Some (n - 55)
  else None.

(** The value of one hexadecimal digit of a [\u] escape read at [pos]. *)
Definition hex_digit (c : ascii) (pos : nat) : parsed nat :=
  match hex_value c with
  | Some d => Ok d EmptyString pos
  | None => unexpected c pos
  end.

(** The characters of a string literal after its opening quote.  A [\u] escape
    of a code unit above 255 has no counterpart in the strings of the
    embedding and is refused. *)
Fixpoint string_body (s : string) (pos : nat) (acc : string) : parsed string :=
  match s with
  | EmptyString => unexpected_end
  | String c s' =>
      if Ascii.eqb c DQUOTE then Ok (rev_string acc) s' (S pos)
      else if Ascii.eqb c BACKSLASH then
        match s' with
        | EmptyString => unexpected_end
        | String e s'' =>
            let simple (d : ascii) := string_body s'' (pos + 2) (String d acc) in
            if Ascii.eqb e DQUOTE then simple DQUOTE
            else if Ascii.eqb e BACKSLASH then simple BACKSLASH
            else if Ascii.eqb e "/"%char then simple "/"%char
            else if Ascii.eqb e "b"%char then simple "008"%char
            else if Ascii.eqb e "f"%char then simple "012"%char
            else if Ascii.eqb e "n"%char then simple "010"%char
            else if Ascii.eqb e "r"%char then simple "013"%char
            else if Ascii.eqb e "t"%char then simple "009"%char
            else if Ascii.eqb e "u"%char then
              match s'' with
              | String h1 (String h2 (String h3 (String h4 s5))) =>
                  match hex_digit h1 (pos + 2), hex_digit h2 (pos + 3),
                        hex_digit h3 (pos + 4), hex_digit h4 (pos + 5) with
                  | Ok d1 _ _, Ok d2 _ _, Ok d3 _ _, Ok d4 _ _ =>
                      let n := ((d1 * 16 + d2) * 16 + d3) * 16 + d4 in
                      if n <? 256 then
                        string_body s5 (pos + 6) (String (ascii_of_nat n) acc)
                      else Bad (ErrorExn "code unit outside the modelled strings")
                  | Bad e, _, _, _ | _, Bad e, _, _
                  | _, _, Bad e, _ | _, _, _, Bad e => Bad e
                  end
              | String h1 (String h2 (String h3 EmptyString)) =>
                  match hex_digit h1 (pos + 2), hex_digit h2 (pos + 3),
                        hex_digit h3 (pos + 4) with
                  | Ok _ _ _, Ok _ _ _, Ok _ _ _ => unexpected_end
                  | Bad e, _, _ | _, Bad e, _ | _, _, Bad e => Bad e
                  end
              | String h1 (String h2 EmptyString) =>
                  match hex_digit h1 (pos + 2), hex_digit h2 (pos + 3) with
                  | Ok _ _ _, Ok _ _ _ => unexpected_end
                  | Bad e, _ | _, Bad e => Bad e
                  end
              | String h1 EmptyString =>
                  match hex_digit h1 (pos + 2) with
                  | Ok _ _ _ => unexpected_end
                  | Bad e => Bad e
                  end
              | EmptyString => unexpected_end
              end
            else unexpected e (S pos)
        end
      else if code c <? 32 then unexpected c pos
      else string_body s' (S pos) (String c acc)
  end.

Fixpoint digits (s : string) (pos : nat) (acc : list nat) : list nat * string * nat :=
  match s with
  | String c s' =>
      if is_digit c then digits s' (S pos) (acc ++ [digit_value c])
      else (acc, s, pos)
  | EmptyString => (acc, s, pos)
  end.

Definition Z_of_digits (ds : list nat) : Z :=
  fold_left (fun acc d => (10 * acc + Z.of_nat d)%Z) ds 0%Z.

(** The double nearest to [m * 10 ^ e] is infinite from [2^1024 - 2^970] on. *)
Definition overflows (m e : Z) : bool :=
  let bound := (2 ^ 1024 - 2 ^ 970)%Z in
  if (0 <=? e)%Z then (bound <=? Z.abs m * 10 ^ e)%Z
  else (bound * 10 ^ (- e) <=? Z.abs m)%Z.

Definition to_Number (negative : bool) (m e : Z) : Number :=
  if overflows m e then (if negative then NegInfinity else PosInfinity)
  else Finite (if negative then (- m)%Z else m) e.

(** The sign of a number literal. *)
Definition sign (s : string) (pos : nat) : bool * string * nat :=
  match s with
  | String c s' => if Ascii.eqb c "-"%char then (true, s', S pos) else (false, s, pos)
  | EmptyString => (false, s, pos)
  end.

(** The integer part: [0], or a digit from 1 to 9 followed by digits. *)
Definition int_part (s : string) (pos : nat) : parsed (list nat) :=
  match s with
  | EmptyString => unexpected_end
  | String c s' =>
      if negb (is_digit c) then unexpected c pos
      else if Ascii.eqb c "0"%char then Ok [0] s' (S pos)
      else let '(ds, s1, pos1) := digits s pos [] in Ok ds s1 pos1
  end.

(** The fraction: nothing, or a point followed by one digit at least. *)
Definition frac_part (s : string) (pos : nat) : parsed (list nat) :=
  match s with
  | String d s' =>
      if Ascii.eqb d "."%char then
        match digits s' (S pos) [] with
        | ([], s1, pos1) => unexpected_here s1 pos1
        | (frac, s1, pos1) => Ok frac s1 pos1
        end
      else Ok [] s pos
  | EmptyString => Ok [] s pos
  end.

(** The exponent: nothing, or [e] or [E], a sign if any, one digit at least. *)
Definition exp_part (s : string) (pos : nat) : parsed Z :=
  match s with
  | String x s' =>
      if Ascii.eqb x "e"%char || Ascii.eqb x "E"%char then
        let '(minus, s1, pos1) :=
          match s' with
          | String g s'' =>
              if Ascii.eqb g "-"%char then (true, s'', pos + 2)
              else if Ascii.eqb g "+"%char then (false, s'', pos + 2)
              else (false, s', pos + 1)
          | EmptyString => (false, s', pos + 1)
          end in
        match digits s1 pos1 [] with
        | ([], s2, pos2) => unexpected_here s2 pos2
        | (ex, s2, pos2) =>
            Ok (if minus then - Z_of_digits ex else Z_of_digits ex)%Z s2 pos2
        end
      else Ok 0%Z s pos
  | EmptyString => Ok 0%Z s pos
  end.

(** A number literal: [-? int frac? exp?]. *)
Definition number (s : string) (pos : nat) : parsed Number :=
  let '(negative, s, pos) := sign s pos in
  match int_part s pos with
  | Bad e => Bad e
  | Ok int s1 pos1 =>
      match frac_part s1 pos1 with
      | Bad e => Bad e
      | Ok frac s2 pos2 =>
          match exp_part s2 pos2 with
          | Bad e => Bad e
          | Ok e s3 pos3 =>
              Ok (to_Number negative (Z_of_digits (int ++ frac))
                    (e - Z.of_nat (List.length frac))%Z) s3 pos3
          end
      end
  end.

(** The rest of a literal name ([true], [false], [null]). *)
Fixpoint keyword (name : string) (s : string) (pos : nat) : parsed unit :=
  match name with
  | EmptyString => Ok tt s pos
  | String c name' =>
      match s with
      | String d s' => if Ascii.eqb c d then keyword name' s' (S pos) else unexpected d pos
      | EmptyString => unexpected_end
      end
  end.

(** An array index: the canonical decimal text of an integer below [2^32 - 1]. *)
Definition array_index (key : string) : option nat :=
  match key with
  | EmptyString => None
  | String c rest =>
      let '(ds, after, _) := digits key 0 [] in
      if truthy after then None
      else if Ascii.eqb c "0"%char && truthy rest then None
      else
        let n := parseInt key in
        if (Z.of_nat n <? 2 ^ 32 - 1)%Z then Some n else None
  end.

(** Defining the property [key]: a key that exists keeps its place and takes
    the new value; a new array index goes among the indices, in ascending
    order; any other new key goes last. *)
Fixpoint define_property (key : string) (value : JsonValue)
    (members : list (string * JsonValue)) : list (string * JsonValue) :=
  match members with
  | [] => [(key, value)]
  | (k, v) :: members' =>
      if String.eqb k key then (k, value) :: members'
      else
        let here :=
          match array_index key, array_index k with
          | Some i, Some j => i <? j
          | Some _, None => negb (existsb (fun kv => String.eqb (fst kv) key) members')
          | None, _ => false
          end in
        if here then (key, value) :: members
        else (k, v) :: define_property key value members'
  end.

Section Containers.

Variable value : string -> nat -> parsed JsonValue.

(** The elements of an array after the first, up to the closing bracket. *)
Fixpoint elements (n : nat) (s : string) (pos : nat) (acc : list JsonValue)
    : parsed JsonValue :=
  let (s, pos) := skip_ws s pos in
  match s with
  | EmptyString => unexpected_end
  | String c s' =>
      if Ascii.eqb c "]"%char then Ok (JArray acc) s' (S pos)
      else if Ascii.eqb c ","%char then
        match n with
        | 0 => Bad (RangeErrorExn "Maximum call stack size exceeded")
        | S n' =>
            match value s' (S pos) with
            | Ok v s'' pos'' => elements n' s'' pos'' (acc ++ [v])
            | Bad e => Bad e
            end
        end
      else unexpected c pos
  end.

(** One member: a key, a colon, a value. *)
Definition member (s : string) (pos : nat) : parsed (string * JsonValue) :=
  let (s, pos) := skip_ws s pos in
  match s with
  | EmptyString => unexpected_end
  | String c s' =>
      if Ascii.eqb c DQUOTE then
        match string_body s' (S pos) EmptyString with
        | Bad e => Bad e
        | Ok key s1 pos1 =>
            let (s1, pos1) := skip_ws s1 pos1 in
            match s1 with
            | EmptyString => unexpected_end
            | String d s2 =>
                if Ascii.eqb d ":"%char then
                  match value s2 (S pos1) with
                  | Ok v s3 pos3 => Ok (key, v) s3 pos3
                  | Bad e => Bad e
                  end
                else unexpected d pos1
            end
        end
      else unexpected c pos
  end.

(** The members of an object after the first, up to the closing brace. *)
Fixpoint members (n : nat) (s : string) (pos : nat) (acc : list (string * JsonValue))
    : parsed JsonValue :=
  let (s, pos) := skip_ws s pos in
  match s with
  | EmptyString => unexpected_end
  | String c s' =>
      if Ascii.eqb c "}"%char then Ok (JObject acc) s' (S pos)
      else if Ascii.eqb c ","%char then
        match n with
        | 0 => Bad (RangeErrorExn "Maximum call stack size exceeded")
        | S n' =>
            match member s' (S pos) with
            | Ok (key, v) s'' pos'' => members n' s'' pos'' (define_property key v acc)
            | Bad e => Bad e
            end
        end
      else unexpected c pos
  end.

End Containers.

Fixpoint value (fuel : nat) (s : string) (pos : nat) : parsed JsonValue :=
  match fuel with
  | 0 => Bad (RangeErrorExn "Maximum call stack size exceeded")
  | S fuel' =>
      let (s, pos) := skip_ws s pos in
      match s with
      | EmptyString => unexpected_end
      | String c s' =>
          if Ascii.eqb c "{"%char then
            let (s1, pos1) := skip_ws s' (S pos) in
            match s1 with
            | EmptyString => unexpected_end
            | String d s2 =>
                if Ascii.eqb d "}"%char then Ok (JObject []) s2 (S pos1)
                else
                  match member (value fuel') s1 pos1 with
                  | Ok (key, v) s3 pos3 =>
                      members (value fuel') fuel' s3 pos3 [(key, v)]
                  | Bad e => Bad e
                  end
            end
          else if Ascii.eqb c "["%char then
            let (s1, pos1) := skip_ws s' (S pos) in
            match s1 with
            | EmptyString => unexpected_end
            | String d s2 =>
                if Ascii.eqb d "]"%char then Ok (JArray []) s2 (S pos1)
                else
                  match value fuel' s1 pos1 with
                  | Ok v s3 pos3 => elements (value fuel') fuel' s3 pos3 [v]
                  | Bad e => Bad e
                  end
            end
          else if Ascii.eqb c DQUOTE then
            match string_body s' (S pos) EmptyString with
            | Ok str s1 pos1 => Ok (JString str) s1 pos1
            | Bad e => Bad e
            end
          else if Ascii.eqb c "-"%char || is_digit c then
            match number s pos with
            | Ok n s1 pos1 => Ok (JNumber n) s1 pos1
            | Bad e => Bad e
            end
          else if Ascii.eqb c "t"%char then
            match keyword "rue" s' (S pos) with
            | Ok _ s1 pos1 => Ok (JBool true) s1 pos1
            | Bad e => Bad e
            end
          else if Ascii.eqb c "f"%char then
            match keyword "alse" s' (S pos) with
            | Ok _ s1 pos1 => Ok (JBool false) s1 pos1
            | Bad e => Bad e
            end
          else if Ascii.eqb c "n"%char then
            match keyword "ull" s' (S pos) with
            | Ok _ s1 pos1 => Ok JNull s1 pos1
            | Bad e => Bad e
            end
          else unexpected c pos
      end
  end.

(** [JSON.parse(text)] *)
Definition JSON_parse (text : string) : completion JsonValue :=
  match value (String.length text + 1) text 0 with
  | Ok v rest pos =>
      let (rest, pos) := skip_ws rest pos in
      match rest with
      | EmptyString => Returns v
      | String c _ =>
          match unexpected (A := unit) c pos with
          | Bad e => Throws e
          | Ok _ _ _ => Returns v
          end
      end
  | Bad e => Throws e
  end.

(** [JSON.stringify] of a tree.  A non-finite number is written [null]; a
    finite integer is written in decimal; any other finite number is written
    as its mantissa and exponent, which differs from the shortest decimal form
    that the host prints (the validator compares lengths of two
    serialisations of equal trees only). *)
Definition hex_char (n : nat) : ascii :=
  if n <? 10 then ascii_of_nat (48 + n) else ascii_of_nat (87 + n).

Definition quote_char (c : ascii) : string :=
  let n := code c in
  let escaped (d : ascii) := String BACKSLASH (String d EmptyString) in
  if Ascii.eqb c DQUOTE then escaped DQUOTE
  else if Ascii.eqb c BACKSLASH then escaped BACKSLASH
  else if n =? 8 then escaped "b"%char
  else if n =? 12 then escaped "f"%char
  else if n =? 10 then escaped "n"%char
  else if n =? 13 then escaped "r"%char
  else if n =? 9 then escaped "t"%char
  else if n <? 32 then
    String BACKSLASH
      (String "u"%char
         (String "0"%char
            (String "0"%char
               (String (hex_char (n / 16)) (String (hex_char (n mod 16)) EmptyString)))))
  else String c EmptyString.

Fixpoint quote_body (s : string) : string :=
  match s with
  | EmptyString => EmptyString
  | String c s' => (quote_char c ++ quote_body s')%string
  end.

Definition quote (s : string) : string := quoted (quote_body s).

Definition string_of_Z (z : Z) : string :=
  ((if (z <? 0)%Z then "-" else EmptyString) ++ string_of_nat (Z.to_nat (Z.abs z)))%string.

Definition show_number (n : Number) : string :=
  match n with
  | Finite m e =>
      if (0 <=? e)%Z then string_of_Z (m * 10 ^ e)
      else (string_of_Z m ++ "e" ++ string_of_Z e)%string
  | _ => "null"
  end.

Fixpoint stringify (v : JsonValue) : string :=
  match v with
  | JNull => "null"
  | JBool true => "true"
  | JBool false => "false"
  | JNumber n => show_number n
  | JString s => quote s
  | JArray items =>
      ("[" ++
       (fix join (l : list JsonValue) (first : bool) : string :=
          match l with
          | [] => EmptyString
          | item :: l' =>
              ((if first then EmptyString else ",") ++ stringify item ++ join l' false)%string
          end) items true
       ++ "]")%string
  | JObject members =>
      ("{" ++
       (fix join (l : list (string * JsonValue)) (first : bool) : string :=
          match l with
          | [] => EmptyString
          | (key, value) :: l' =>
              ((if first then EmptyString else ",") ++ quote key ++ ":"
               ++ stringify value ++ join l' false)%string
          end) members true
       ++ "}")%string
  end.

Definition JSON_stringify (v : JsonValue) : completion string := Returns (stringify v).

(** The stand-in for the schema library.  It compiles a schema object whose
    only keyword, if any, is [type] with the name of a JSON type; it throws on
    anything else, as the library does on a schema that it cannot compile. *)
Definition type_names : list string :=
  ["null"; "boolean"; "object"; "array"; "number"; "string"].

Definition has_type (name : string) (data : JsonValue) : bool :=
  match data with
  | JNull => String.eqb name "null"
  | JBool _ => String.eqb name "boolean"
  | JNumber _ => String.eqb name "number"
  | JString _ => String.eqb name "string"
  | JArray _ => String.eqb name "array"
  | JObject _ => String.eqb name "object"
  end.

Definition ajv_compile (schema : JsonValue) : completion ValidateFunction :=
  match schema with
  | JObject [] => Returns (fun _ => mkValidation true None)
  | JObject [(key, JString name)] =>
      if String.eqb key "type" && existsb (String.eqb name) type_names then
        Returns
          (fun data =>
             if has_type name data then mkValidation true None
             else
               mkValidation false
                 (Some [mkErrorObject (Some ("must be " ++ name)%string) EmptyString]))
      else Throws (ErrorExn "schema is invalid")
  | _ => Throws (ErrorExn "schema is invalid")
  end.

(** The validator over the reference host. *)
Definition validateJsonSyntax := validateJsonSyntax JSON_parse.
Definition validateJsonSchema := validateJsonSchema ajv_compile.
Definition checkDuplicateKeys := checkDuplicateKeys JSON_parse JSON_stringify.
Definition checkJsonAnomalies := checkJsonAnomalies JSON_stringify.
Definition validateJson := validateJson JSON_parse JSON_stringify ajv_compile.
Definition validateJsonInput := validateJsonInput JSON_parse JSON_stringify ajv_compile.

(** JSON texts below are written with an apostrophe for every double quote. *)
Fixpoint json (s : string) : string :=
  match s with
  | EmptyString => EmptyString
  | String c s' => String (if Ascii.eqb c "'"%char then DQUOTE else c) (json s')
  end.

End Reference.

(** ** [checkJsonAnomalies] on an object graph

    [checkJsonAnomalies] is exported and takes any value in memory, where an
    object can be reached twice or from itself.  A container is either written
    in place or named by an address of the heap; in-place containers make a
    tree, addresses make sharing and cycles.  Every call takes one frame of the
    call stack, and the host throws a [RangeError] when no frame is left. *)

Module Graph.

Unset Elimination Schemes.
Inductive Value : Type :=
| Null
| Undefined
| Bool (b : bool)
| Num (n : Number)
| Str (s : string)
| Array (items : list Value)
| Object (members : list (string * Value))
| Ref (address : nat).
Set Elimination Schemes.

Definition Heap : Type := gmap nat Value.

Definition stack_overflow : Exn := RangeErrorExn "Maximum call stack size exceeded".

Section Walkers.

Variable heap : Heap.

(** [forEach] over the items of an array, with their indices. *)
Fixpoint forEach_indexed (visit : Value -> string -> ValidationResult -> behaviour ValidationResult)
    (path : string) (l : list Value) (index : nat) (result : ValidationResult)
    : behaviour ValidationResult :=
  match l with
  | [] => Finishes result
  | item :: l' =>
      match visit item (index_path path index) result with
      | Finishes result => forEach_indexed visit path l' (S index) result
      | other => other
      end
  end.

(** [forEach] over the entries of an object. *)
Fixpoint forEach_entry (visit : Value -> string -> ValidationResult -> behaviour ValidationResult)
    (path : string) (l : list (string * Value)) (result : ValidationResult)
    : behaviour ValidationResult :=
  match l with
  | [] => Finishes result
  | (key, value) :: l' =>
      match visit value (member_path path key) result with
      | Finishes result => forEach_entry visit path l' result
      | other => other
      end
  end.

Fixpoint checkForInvalidNumbers (stack : nat) (obj : Value) (path : string)
    (result : ValidationResult) : behaviour ValidationResult :=
  match stack with
  | 0 => Raises stack_overflow
  | S stack' =>
      match obj with
      | Null | Undefined => Finishes result
      | Num n =>
          match nonfinite_text n with
          | Some text => Finishes (report (invalid_number_error text path) result)
          | None => Finishes result
          end
      | Array items =>
          forEach_indexed (checkForInvalidNumbers stack') path items 0 result
      | Object members =>
          forEach_entry (checkForInvalidNumbers stack') path members result
      | Ref address =>
          match heap !! address with
          | Some target => checkForInvalidNumbers stack' target path result
          | None => Finishes result
          end
      | Bool _ | Str _ => Finishes result
      end
  end.

(** The loops of [checkDepth] over the children of a container. *)
Fixpoint each_depth (visit : Value -> ValidationResult -> behaviour (nat * ValidationResult))
    (l : list Value) (maxDepth : nat) (result : ValidationResult)
    : behaviour (nat * ValidationResult) :=
  match l with
  | [] => Finishes (maxDepth, result)
  | item :: l' =>
      match visit item result with
      | Finishes (depth, result) => each_depth visit l' (Nat.max maxDepth depth) result
      | other => other
      end
  end.

Fixpoint checkDepth (stack : nat) (obj : Value) (currentDepth : nat)
    (result : ValidationResult) : behaviour (nat * ValidationResult) :=
  match stack with
  | 0 => Raises stack_overflow
  | S stack' =>
      if MAX_DEPTH <? currentDepth then
        Finishes (currentDepth, report excessive_nesting_error result)
      else
        match obj with
        | Array items =>
            each_depth (fun item => checkDepth stack' item (currentDepth + 1))
              items currentDepth result
        | Object members =>
            each_depth (fun item => checkDepth stack' item (currentDepth + 1))
              (map snd members) currentDepth result
        | Ref address =>
            match heap !! address with
            | Some target => checkDepth stack' target currentDepth result
            | None => Finishes (currentDepth, result)
            end
        | _ => Finishes (currentDepth, result)
        end
  end.

Fixpoint checkSize (stack : nat) (obj : Value) (path : string)
    (result : ValidationResult) : behaviour ValidationResult :=
  match stack with
  | 0 => Raises stack_overflow
  | S stack' =>
      match obj with
      | Array items =>
          if MAX_COLLECTION_SIZE <? List.length items then
            Finishes (report (large_array_error path (List.length items)) result)
          else
            let keys := List.length items in
            let result :=
              if MAX_COLLECTION_SIZE <? keys
              then report (large_object_error path keys) result else result in
            forEach_indexed (checkSize stack') path items 0 result
      | Object members =>
          let keys := List.length members in
          let result :=
            if MAX_COLLECTION_SIZE <? keys
            then report (large_object_error path keys) result else result in
          forEach_entry (checkSize stack') path members result
      | Ref address =>
          match heap !! address with
          | Some target => checkSize stack' target path result
          | None => Finishes result
          end
      | _ => Finishes result
      end
  end.

(** [JSON.stringify(value)] *)
Variable JSON_stringify : Heap -> Value -> completion string.

Definition checkJsonAnomalies (stack : nat) (jsonData : Value)
    : behaviour ValidationResult :=
  let result := fresh_result in
  let result :=
    match JSON_stringify heap jsonData with
    | Returns _ => result
    | Throws (TypeErrorExn msg) =>
        if includes "circular" msg then report circular_reference_error result
        else result
    | Throws _ => result
    end in
  match checkForInvalidNumbers stack jsonData "" result with
  | Finishes result =>
      match checkDepth stack jsonData 0 result with
      | Finishes (_, result) => checkSize stack jsonData "" result
      | Raises e => Raises e
      | Diverges => Diverges
      | OutOfFuel => OutOfFuel
      end
  | other => other
  end.

End Walkers.

(** A tree is a graph without addresses. *)
Fixpoint of_tree (v : JsonValue) : Value :=
  match v with
  | JNull => Null
  | JBool b => Bool b
  | JNumber n => Num n
  | JString s => Str s
  | JArray items => Array (map of_tree items)
  | JObject members => Object (map (fun kv => (fst kv, of_tree (snd kv))) members)
  end.

(** [const o = {}; o.self = o]: the object at address 0 has itself as the
    member [self]. *)
Definition self_cycle : Heap := {[ 0 := Object [("self", Ref 0)] ]}.

End Graph.

(** ** Vocabulary of the specification *)

(** The number of nodes of [v] at depth [d]; the root has depth 0. *)
Fixpoint nodes_at_depth (d : nat) (v : JsonValue) : nat :=
  match d with
  | 0 => 1
  | S d' =>
      match v with
      | JArray items => list_sum (map (nodes_at_depth d') items)
      | JObject members => list_sum (map (fun kv => nodes_at_depth d' (snd kv)) members)
      | _ => 0
      end
  end.

(** [v] with every node at depth [d] replaced by [null]. *)
Fixpoint prune (d : nat) (v : JsonValue) : JsonValue :=
  match d with
  | 0 => JNull
  | S d' =>
      match v with
      | JArray items => JArray (map (prune d') items)
      | JObject members => JObject (map (fun kv => (fst kv, prune d' (snd kv))) members)
      | _ => v
      end
  end.

(** [n] nested arrays around [v]. *)
Fixpoint nest (n : nat) (v : JsonValue) : JsonValue :=
  match n with
  | 0 => v
  | S n' => JArray [nest n' v]
  end.

(** A text that is empty or made of white space only. *)
Fixpoint blank (s : string) : bool :=
  match s with
  | EmptyString => true
  | String c s' => is_space c && blank s'
  end.

(** The number of line feeds among the first [n] characters of [text]. *)
Fixpoint line_feeds (n : nat) (text : string) : nat :=
  match n, text with
  | S n', String c text' => (if Ascii.eqb c LF then 1 else 0) + line_feeds n' text'
  | _, _ => 0
  end.

(** What the schema library promises of a compiled schema: when [validate]
    returns false, [validate.errors] is an array with at least one entry. *)
Definition ajv_reports_failures (ajv_compile : JsonValue -> completion ValidateFunction)
    : Prop :=
  forall schema validate data,
    ajv_compile schema = Returns validate ->
    passed (validate data) = false ->
    exists err errs, validate_errors (validate data) = Some (err :: errs).

(** The greatest number of containers on a path from the root of [v]. *)
Fixpoint height (v : JsonValue) : nat :=
  match v with
  | JArray items => S (list_max (map height items))
  | JObject members => S (list_max (map (fun kv => height (snd kv)) members))
  | _ => 0
  end.

(** ** Vocabulary of the proofs *)

Definition is_nil {A} (l : list A) : bool :=
  match l with [] => true | _ :: _ => false end.

(** [extend r es]: the report [r] after the findings [es] have been reported. *)
Definition extend (r : ValidationResult) (es : list ValidationError) : ValidationResult :=
  mkResult (valid r && is_nil es) (errors r ++ es).

(** A walker that only reports findings whose kind satisfies [allowed]. *)
Definition reports_only (allowed : ErrorKind -> bool) (r r' : ValidationResult) : Prop :=
  exists es, r' = extend r es /\ Forall (fun e => allowed (type e) = true) es.

(** Sets of kinds, as predicates: the kind [k] alone, and the kinds that each
    stage can report. *)
Definition only (k : ErrorKind) : ErrorKind -> bool := fun k' => ErrorKind_eqb k' k.

Definition size_kinds (k : ErrorKind) : bool :=
  ErrorKind_eqb k LargeArray || ErrorKind_eqb k LargeObject.

(** The report after the serialisation attempt of [checkJsonAnomalies]. *)
Definition after_stringify (JSON_stringify : JsonValue -> completion string)
    (jsonData : JsonValue) : ValidationResult :=
  match JSON_stringify jsonData with
  | Returns _ => fresh_result
  | Throws (TypeErrorExn msg) =>
      if includes "circular" msg then report circular_reference_error fresh_result
      else fresh_result
  | Throws _ => fresh_result
  end.

Definition anomaly_kinds (k : ErrorKind) : bool :=
  match k with
  | CircularReference | InvalidNumber | ExcessiveNesting | LargeArray | LargeObject => true
  | _ => false
  end.

(** Every finding of [r] has a kind that satisfies [allowed]. *)
Definition kinds_in (allowed : ErrorKind -> bool) (r : ValidationResult) : Prop :=
  Forall (fun e => allowed (type e) = true) (errors r).

Definition syntax_kinds (k : ErrorKind) : bool :=
  ErrorKind_eqb k SyntaxError || ErrorKind_eqb k UnknownError.

(** The kinds that the stages of [validateJson] can report: all but
    [EmptyInput]. *)
Definition engine_kinds (k : ErrorKind) : bool := negb (ErrorKind_eqb k EmptyInput).

Module ScannerSpec.
Import Scanner.

(** The characters that the closures can still read. *)
Definition remaining (st : state) : nat :=
  String.length (unread st) + match ch st with Some _ => 1 | None => 0 end.

(** A call started with the report [r] only adds [DuplicateKey] findings. *)
Definition outcome_reports (r : ValidationResult) (o : outcome) : Prop :=
  match o with
  | Done st | Thrown _ st => reports_only (only DuplicateKey) r (result st)
  | Forever | NoFuel => True
  end.

(** A call that has enough fuel: it does not stop for lack of it, and it
    leaves no more to read than it found. *)
Definition fuelled (st : state) (o : outcome) : Prop :=
  o <> NoFuel /\ forall st', o = Done st' -> remaining st' <= remaining st.

(** The closures are about to read [s]: [ch] is its first character. *)
Definition sync (st : state) (s : string) : Prop :=
  match s with
  | EmptyString => ch st = None /\ unread st = EmptyString
  | String c s' => ch st = Some c /\ unread st = s'
  end.

(** [s] does not continue a number or a literal name. *)
Definition delimited (s : string) : Prop :=
  match s with
  | EmptyString => True
  | String c _ => in_primitive c = false
  end.

(** [s] starts with a character that [white] does not skip. *)
Definition starts_token (s : string) : Prop :=
  exists c s', s = String c s' /\ le_space c = false.

(** The call ends normally, about to read [rest], unless it lacks fuel. *)
Definition agrees (o : outcome) (rest : string) : Prop :=
  match o with
  | Done st => sync st rest
  | NoFuel => True
  | Thrown _ _ | Forever => False
  end.

(** [s] is [rest] after characters that all satisfy [p]. *)
Inductive reaches (p : ascii -> bool) : string -> string -> Prop :=
| reaches_here s : reaches p s s
| reaches_step c s rest : p c = true -> reaches p s rest -> reaches p (String c s) rest.

(** What [array] does after an item, and [object] after a member. *)
Definition array_tail (value : state -> outcome) (n : nat) (st : state) : outcome :=
  let st := white st in
  if ch_is "]"%char st then Done (next st)
  else if negb (ch_is ","%char st) then error "Bad array" st
  else array_loop value n (white (next st)).

Definition object_tail (input : string) (value : state -> outcome) (n : nat)
    (keys : gset string) (st : state) : outcome :=
  let st := white st in
  if ch_is "}"%char st then Done (next st)
  else if negb (ch_is ","%char st) then error "Bad object" st
  else object_loop input value n keys (next st).

End ScannerSpec.

(** ** The state of the component [JsonValidator] *)

Module Component.

(** The three [useState] cells. *)
Record State : Type := mkState {
  jsonInput : string;
  validationResult : option ValidationResult;
  fileName : string
}.

(** [useState('')], [useState(null)], [useState('')] *)
Definition initial : State := mkState EmptyString None EmptyString.

(** [handleInputChange] with [e.target.value] *)
Definition handleInputChange (value : string) (st : State) : State :=
  mkState value None (fileName st).

(** [handleFileUpload] up to [reader.readAsText(file)]; [file] is the name of
    [e.target.files?.[0]], [None] when no file has been chosen. *)
Definition handleFileUpload (file : option string) (st : State) : State :=
  match file with
  | None => st
  | Some name => mkState (jsonInput st) (validationResult st) name
  end.

(** [reader.onload] with the content of the file. *)
Definition onload (content : string) (st : State) : State :=
  mkState content None (fileName st).

(** [clearInput] *)
Definition clearInput (st : State) : State := mkState EmptyString None EmptyString.

(** [setValidationResult(result)] *)
Definition setValidationResult (result : ValidationResult) (st : State) : State :=
  mkState (jsonInput st) (Some result) (fileName st).

(** What the user and the file reader do. *)
Inductive Event : Type :=
| InputChanged (value : string)
| FileChosen (file : option string)
| FileLoaded (content : string)
| ValidateClicked
| ClearClicked.

(** The controls that the component renders: the button [Validate JSON] is
    disabled while [!jsonInput.trim()], and the button [Clear] is rendered
    while [jsonInput] is not empty. *)
Definition enabled (st : State) (ev : Event) : bool :=
  match ev with
  | ValidateClicked => truthy (trim (jsonInput st))
  | ClearClicked => truthy (jsonInput st)
  | InputChanged _ | FileChosen _ | FileLoaded _ => true
  end.

Section Handlers.

Variable JSON_parse : string -> completion JsonValue.
Variable JSON_stringify : JsonValue -> completion string.
Variable ajv_compile : JsonValue -> completion ValidateFunction.

(** The handler of an event: the next state, when the handler returns.
    [validateJsonInput] stores what it has computed from [jsonInput]. *)
Definition handle (ev : Event) (st : State) : behaviour State :=
  match ev with
  | InputChanged value => Finishes (handleInputChange value st)
  | FileChosen file => Finishes (handleFileUpload file st)
  | FileLoaded content => Finishes (onload content st)
  | ClearClicked => Finishes (clearInput st)
  | ValidateClicked =>
      match validateJsonInput JSON_parse JSON_stringify ajv_compile (jsonInput st) with
      | Finishes result => Finishes (setValidationResult result st)
      | Raises e => Raises e
      | Diverges => Diverges
      | OutOfFuel => OutOfFuel
      end
  end.

(** The states that the component can be in: every event comes from a control
    that is enabled, and its handler returns. *)
Inductive reachable : State -> Prop :=
| reachable_initial : reachable initial
| reachable_step st ev st' :
    reachable st -> enabled st ev = true -> handle ev st = Finishes st' -> reachable st'.

(** The report on display, if any, is the one that [validateJson] gives for
    the input on display, and that input is not blank. *)
Definition shows_current (st : State) : Prop :=
  forall r,
    validationResult st = Some r ->
    blank (jsonInput st) = false
    /\ validateJson JSON_parse JSON_stringify ajv_compile (jsonInput st) None = Finishes r.

End Handlers.

End Component.

(** ** Documents as written *)

(** A JSON text in compact form: the tokens of numbers and literal names, the
    string literals, and the members of objects in the order and with the
    repetitions of the text. *)
Unset Elimination Schemes.
Inductive Doc : Type :=
| DPrimitive (token : string)
| DString (s : string)
| DArray (items : list Doc)
| DObject (members : list (string * Doc)).
Set Elimination Schemes.

Section Doc_induction.

Variable P : Doc -> Prop.
Hypothesis Hprimitive : forall token, P (DPrimitive token).
Hypothesis Hstring : forall s, P (DString s).
Hypothesis Harray : forall items, Forall P items -> P (DArray items).
Hypothesis Hobject :
  forall members, Forall (fun kv => P (snd kv)) members -> P (DObject members).


End Doc_induction.

Fixpoint all_chars (p : ascii -> bool) (s : string) : bool :=
  match s with
  | EmptyString => true
  | String c s' => p c && all_chars p s'
  end.



Section Printing.

Variable print : Doc -> string.

(** The items of an array and the members of an object, separated by
    commas. *)
Fixpoint print_items (l : list Doc) (first : bool) : string :=
  match l with
  | [] => EmptyString
  | item :: l' =>
      ((if first then EmptyString else ",") ++ print item ++ print_items l' false)%string
  end.

Fixpoint print_members (l : list (string * Doc)) (first : bool) : string :=
  match l with
  | [] => EmptyString
  | (key, value) :: l' =>
      ((if first then EmptyString else ",") ++ quoted key ++ ":"
       ++ print value ++ print_members l' false)%string
  end.

End Printing.

(** The text of a document, without white space. *)
Fixpoint print (d : Doc) : string :=
  match d with
  | DPrimitive token => token
  | DString s => quoted s
  | DArray items => ("[" ++ print_items print items true ++ "]")%string
  | DObject members => ("{" ++ print_members print members true ++ "}")%string
  end.


Definition seen_before (key : string) (seen : list string) : bool :=
  existsb (String.eqb key) seen.

Section Repetitions.

Variable repeated_keys : Doc -> list string.

(** The members of one object after the keys [seen]: each key that has
    occurred before, followed by the repeated keys of its value. *)
Fixpoint repeated_members (l : list (string * Doc)) (seen : list string) : list string :=
  match l with
  | [] => []
  | (key, value) :: l' =>
      (if seen_before key seen then [key] else [])
      ++ repeated_keys value ++ repeated_members l' (key :: seen)
  end.

End Repetitions.

(** The keys that repeat a key of the same object, in the order of the
    text. *)
Fixpoint repeated_keys (d : Doc) : list string :=
  match d with
  | DArray items => flat_map repeated_keys items
  | DObject members => repeated_members repeated_keys members []
  | _ => []
  end.

(** ** More vocabulary of the statements *)

(** The number leaves of [v] that are not finite. *)
Fixpoint nonfinite_numbers (v : JsonValue) : nat :=
  match v with
  | JNumber n => match nonfinite_text n with Some _ => 1 | None => 0 end
  | JArray items => list_sum (map nonfinite_numbers items)
  | JObject members => list_sum (map (fun kv => nonfinite_numbers (snd kv)) members)
  | _ => 0
  end.

(** No array and no object of [v] has more than [MAX_COLLECTION_SIZE]
    elements. *)
Fixpoint within_limits (v : JsonValue) : bool :=
  match v with
  | JArray items =>
      (List.length items <=? MAX_COLLECTION_SIZE) && forallb within_limits items
  | JObject members =>
      (List.length members <=? MAX_COLLECTION_SIZE)
      && forallb (fun kv => within_limits (snd kv)) members
  | _ => true
  end.

(** The keys of a list of matches, each once. *)
Definition distinct_keys (matches : list (string * nat)) : list string :=
  nodup string_dec (map fst matches).

(** At index [i] of [line] stands [key] between double quotes, followed by
    white space, if any, and a colon. *)
Definition key_at (key : string) (i : nat) (line : string) : Prop :=
  exists ws rest,
    all_chars is_space ws = true
    /\ skip i line = (quoted key ++ ws ++ String ":" rest)%string.

(** The kinds that the stages after the syntax check can report. *)
Definition late_kinds (k : ErrorKind) : bool :=
  anomaly_kinds k || ErrorKind_eqb k SchemaError.

(** The optional properties that a finding of each kind carries: a line and a
    column, both counted from 1, for [SyntaxError] and [DuplicateKey]; a path
    for the findings of the walkers that follow paths and of the schema;
    nothing for the others. *)
Definition well_formed (e : ValidationError) : Prop :=
  match type e with
  | SyntaxError | DuplicateKey =>
      path e = None
      /\ exists l c, line e = Some l /\ column e = Some c /\ 1 <= l /\ 1 <= c
  | InvalidNumber | LargeArray | LargeObject | SchemaError =>
      (exists p, path e = Some p) /\ line e = None /\ column e = None
  | EmptyInput | CircularReference | ExcessiveNesting | UnknownError =>
      path e = None /\ line e = None /\ column e = None
  end.

(** ** More vocabulary of the proofs *)

(** [r'] is [r] after [n] findings, all of a kind that satisfies [allowed]. *)
Definition adds (n : nat) (allowed : ErrorKind -> bool) (r r' : ValidationResult) : Prop :=
  exists es,
    r' = extend r es /\ List.length es = n
    /\ Forall (fun e => allowed (type e) = true) es.

(** [r'] is [r] after findings that all satisfy [P]. *)
Definition appends (P : ValidationError -> Prop) (r r' : ValidationResult) : Prop :=
  exists es, r' = extend r es /\ Forall P es.

(** A call of a closure of the scope parser, started with the report [r],
    appends findings that satisfy [P]. *)
Definition outcome_appends (P : ValidationError -> Prop) (r : ValidationResult)
    (o : Scanner.outcome) : Prop :=
  match o with
  | Scanner.Done st | Scanner.Thrown _ st => appends P r (Scanner.result st)
  | Scanner.Forever | Scanner.NoFuel => True
  end.

(** The columns that the line scan records for [key]: one more than the
    index of every match of [key], in the order of the matches. *)
Definition columns_of (key : string) (matches : list (string * nat)) : list nat :=
  map (fun m => snd m + 1) (List.filter (fun m => String.eqb (fst m) key) matches).

(** The invariant of the map [keys] of the line scan after the matches
    [seen]. *)
Definition records (keys : list (string * list nat)) (seen : list (string * nat)) : Prop :=
  List.NoDup (map fst keys)
  /\ (forall k, In k (map fst keys) <-> In k (map fst seen))
  /\ (forall k ps, In (k, ps) keys -> ps = columns_of k seen)
  /\ list_sum (map (fun entry => List.length (snd entry)) keys) = List.length seen.




(** The line and the column after the characters of [s], from the line [l]
    and the column [c]. *)
Fixpoint advance (s : string) (lc : nat * nat) : nat * nat :=
  match s with
  | EmptyString => lc
  | String ch s' =>
      let (l, c) := lc in
      advance s' (if Ascii.eqb ch LF then (S l, 1) else (l, S c))
  end.

(** The message of V8 for a token that the grammar does not allow. *)
Definition unexpected_token_message (c : ascii) (position : nat) : string :=
  ("Unexpected token " ++ String c (" in JSON at position " ++ string_of_nat position))%string.

(** ** The call stack of the walkers *)

(** The calls of a recursive walker that are active at once when it visits
    every node of [v]: one for [v], and those for the deepest of its
    children. *)
Fixpoint frames (v : JsonValue) : nat :=
  match v with
  | JArray items => S (list_max (map frames items))
  | JObject members => S (list_max (map (fun kv => frames (snd kv)) members))
  | _ => 1
  end.

Section StackedValidator.

Variable JSON_parse : string -> completion JsonValue.
Variable JSON_stringify : JsonValue -> completion string.
Variable ajv_compile : JsonValue -> completion ValidateFunction.

(** The calls that the stack still admits when a walker is first called. *)
Variable stack : nat.

(** [checkJsonAnomalies(jsonData)] for a parsed tree, the walkers recursing on
    the call stack; the serialiser is given the tree. *)
Definition checkJsonAnomalies_on_stack (jsonData : JsonValue) : behaviour ValidationResult :=
  Graph.checkJsonAnomalies ∅ (fun _ _ => JSON_stringify jsonData) stack
    (Graph.of_tree jsonData).

(** [validateJson] with these walkers: a [RangeError] of a walker is caught
    nowhere. *)
Definition validateJson_on_stack (jsonString : string) (schema : option JsonValue)
    : behaviour ValidationResult :=
  match checkDuplicateKeys JSON_parse JSON_stringify jsonString with
  | Finishes duplicateKeysResult =>
      if negb (valid duplicateKeysResult) then Finishes duplicateKeysResult
      else
        let syntaxResult := validateJsonSyntax JSON_parse jsonString in
        if negb (valid syntaxResult) then Finishes syntaxResult
        else
          match JSON_parse jsonString with
          | Throws e => Raises e
          | Returns jsonData =>
              match checkJsonAnomalies_on_stack jsonData with
              | Finishes anomalyResult =>
                  match schema with
                  | Some schema =>
                      match validateJsonSchema ajv_compile jsonData schema with
                      | Throws e => Raises e
                      | Returns schemaResult =>
                          Finishes
                            (mkResult (valid anomalyResult && valid schemaResult)
                               (errors anomalyResult ++ errors schemaResult))
                      end
                  | None => Finishes anomalyResult
                  end
              | Raises e => Raises e
              | Diverges => Diverges
              | OutOfFuel => OutOfFuel
              end
          end
  | Raises e => Raises e
  | Diverges => Diverges
  | OutOfFuel => OutOfFuel
  end.

End StackedValidator.

(** ** Objects as the host builds them *)

(** No two of the keys [l] are the same. *)
Fixpoint distinct (l : list string) : bool :=
  match l with
  | [] => true
  | key :: l' => negb (seen_before key l') && distinct l'
  end.

(** Every object of [v] lists each of its keys once, as [Object.keys] does for
    every object of the host. *)
Fixpoint unique_keys (v : JsonValue) : bool :=
  match v with
  | JArray items => forallb unique_keys items
  | JObject members =>
      distinct (map fst members) && forallb (fun kv => unique_keys (snd kv)) members
  | _ => true
  end.

(** * Properties *)

(** ** The helpers on small inputs *)

Example trim_example : trim (String "009" " a  b " ++ String LF EmptyString) = "a  b".
Proof. reflexivity. Qed.

Example split_lines_example :
  split_lines ("a" ++ String LF (String LF "b")) = ["a"; EmptyString; "b"].
Proof. reflexivity. Qed.

Example match_at_position_example :
  match_at_position "Unexpected token ] in JSON at position 13" = Some "13"
  /\ match_at_position "Unexpected end of JSON input" = None.
Proof. split; reflexivity. Qed.

Example line_column_example :
  line_column ("ab" ++ String LF "cd") 4 = (2, 2) /\ line_column "ab" 5 = (1, 6).
Proof. split; reflexivity. Qed.

(** The pattern finds keys, not string values, and restarts one character
    after the start of a failed attempt. *)
Example keyRegex_exec_all_example :
  keyRegex_exec_all (Reference.json "{'a':1, 'b' : 'c:', '':2}") 0 0 = [("a", 1); ("b", 8)]
  /\ keyRegex_exec_all (Reference.json "'a' 'b':") 0 0 = [("b", 4)].
Proof. split; vm_compute; reflexivity. Qed.

(** The scope parser reports the key repeated in the inner object; it loops
    for ever on a string that is not closed, and throws on an array that is
    not closed. *)
Example scan_example :
  Scanner.result_of (Scanner.scan (Reference.json "{'a':[1,{'b':2,'b':3}],'c':'x'}") fresh_result)
  = Some (mkResult false [duplicate_key_error "b" 1 17])
  /\ Scanner.scan (Reference.json "{'a") fresh_result = Scanner.Forever
  /\ Scanner.scan (Reference.json "[1,2") fresh_result
     = Scanner.Thrown (SyntaxErrorExn "Bad array")
         (Scanner.mkState 5 None EmptyString fresh_result).
Proof. repeat split; vm_compute; reflexivity. Qed.

(** The reference parser: numbers beyond the range of a double, member order,
    diagnostics. *)
Example JSON_parse_example :
  Reference.JSON_parse (Reference.json "[1e400, -1.5, {'b':null,'1':true,'b':'x'}]")
  = Returns
      (JArray
         [JNumber PosInfinity; JNumber (Finite (-15) (-1));
          JObject [("1", JBool true); ("b", JString "x")]])
  /\ Reference.JSON_parse (Reference.json "[1,]")
     = Throws (SyntaxErrorExn "Unexpected token ] in JSON at position 3")
  /\ Reference.JSON_parse (Reference.json "{'a':")
     = Throws (SyntaxErrorExn "Unexpected end of JSON input").
Proof. repeat split; vm_compute; reflexivity. Qed.

(** ** Reports grow by appending findings *)

Lemma extend_nil r : extend r [] = r.
Proof. destruct r as [v es]. unfold extend. simpl. by rewrite andb_true_r, app_nil_r. Qed.

Lemma report_extend e r es : report e (extend r es) = extend r (es ++ [e]).
Proof.
  unfold report, extend. simpl. rewrite <- app_assoc. f_equal.
  destruct es; simpl; by rewrite ?andb_false_r.
Qed.

Lemma report_as_extend e r : report e r = extend r [e].
Proof. by rewrite <- (extend_nil r) at 1; rewrite report_extend. Qed.

Lemma extend_extend r a b : extend (extend r a) b = extend r (a ++ b).
Proof.
  unfold extend. simpl. rewrite <- app_assoc. f_equal.
  destruct a; simpl; [by rewrite andb_true_r | by rewrite !andb_false_r].
Qed.

Lemma consistent_fresh : consistent fresh_result.
Proof. left. done. Qed.

Lemma consistent_extend r es : consistent r -> consistent (extend r es).
Proof.
  intros [[Hv He] | [Hv He]]; unfold consistent, extend; simpl; rewrite Hv.
  - destruct es as [| e es]; [left | right]; rewrite He; done.
  - right. split; [done |]. destruct (errors r); [done | discriminate].
Qed.

Lemma reports_only_refl allowed r : reports_only allowed r r.
Proof. exists []. by rewrite extend_nil. Qed.

Lemma reports_only_trans allowed r1 r2 r3 :
  reports_only allowed r1 r2 -> reports_only allowed r2 r3 -> reports_only allowed r1 r3.
Proof.
  intros (a & -> & Ha) (b & -> & Hb). exists (a ++ b).
  rewrite extend_extend. split; [done |]. by apply Forall_app.
Qed.

Lemma reports_only_report allowed e r :
  allowed (type e) = true -> reports_only allowed r (report e r).
Proof. intros H. exists [e]. rewrite report_as_extend. split; [done |]. by constructor. Qed.

Lemma reports_only_weaken (p q : ErrorKind -> bool) r r' :
  (forall k, p k = true -> q k = true) -> reports_only p r r' -> reports_only q r r'.
Proof.
  intros Hpq (es & -> & Hes). exists es. split; [done |].
  eapply Forall_impl; [exact Hes |]. simpl. auto.
Qed.

Lemma reports_only_consistent allowed r r' :
  reports_only allowed r r' -> consistent r -> consistent r'.
Proof. intros (es & -> & _). apply consistent_extend. Qed.

Lemma count_kind_extend k r es :
  count_kind k (extend r es)
  = count_kind k r + List.length (List.filter (fun e => ErrorKind_eqb (type e) k) es).
Proof. unfold count_kind, extend. simpl. by rewrite List.filter_app, length_app. Qed.

Lemma reports_only_count allowed k r r' :
  allowed k = false -> reports_only allowed r r' -> count_kind k r' = count_kind k r.
Proof.
  intros Hk (es & -> & Hes). rewrite count_kind_extend.
  assert (List.filter (fun e => ErrorKind_eqb (type e) k) es = []) as ->; [| simpl; lia].
  induction Hes as [| e es He _ IH]; [done |]. simpl.
  destruct (ErrorKind_eqb (type e) k) eqn:E; [| exact IH].
  exfalso. destruct (type e), k; simpl in *; congruence.
Qed.

Lemma checkForInvalidNumbers_reports v :
  forall path r, reports_only (only InvalidNumber) r (checkForInvalidNumbers v path r).
Proof.
  induction v as [| b | n | s | items IH | members IH] using JsonValue_tree_ind;
    intros path r; simpl; try apply reports_only_refl.
  - destruct (nonfinite_text n); [apply reports_only_report; reflexivity | apply reports_only_refl].
  - generalize 0 as index. revert r.
    induction IH as [| item items Hitem _ IHl]; intros r index; [apply reports_only_refl |].
    eapply reports_only_trans; [apply Hitem | apply IHl].
  - revert r.
    induction IH as [| [key value] members Hvalue _ IHl]; intros r; [apply reports_only_refl |].
    eapply reports_only_trans; [apply Hvalue | apply IHl].
Qed.

Lemma checkSize_reports v :
  forall path r, reports_only size_kinds r (checkSize v path r).
Proof.
  induction v as [| b | n | s | items IH | members IH] using JsonValue_tree_ind;
    intros path r; simpl; try apply reports_only_refl.
  - destruct (MAX_COLLECTION_SIZE <? List.length items); [apply reports_only_report; reflexivity |].
    generalize 0 as index. revert r.
    induction IH as [| item items Hitem _ IHl]; intros r index; [apply reports_only_refl |].
    eapply reports_only_trans; [apply Hitem | apply IHl].
  - set (r0 := if MAX_COLLECTION_SIZE <? List.length members then _ else _).
    assert (reports_only size_kinds r r0) as H0.
    { subst r0. destruct (MAX_COLLECTION_SIZE <? List.length members);
        [apply reports_only_report; reflexivity | apply reports_only_refl]. }
    eapply reports_only_trans; [exact H0 |]. clearbody r0. clear H0 r.
    revert r0.
    induction IH as [| [key value] members' Hvalue _ IHl]; intros r; [apply reports_only_refl |].
    eapply reports_only_trans; [apply Hvalue | apply IHl].
Qed.

Lemma checkDepth_reports v :
  forall depth r, reports_only (only ExcessiveNesting) r (snd (checkDepth v depth r)).
Proof.
  induction v as [| b | n | s | items IH | members IH] using JsonValue_tree_ind;
    intros depth r; simpl;
    destruct (MAX_DEPTH <? depth); simpl;
    try (apply reports_only_report; reflexivity); try apply reports_only_refl.
  - generalize depth at 2 as maxDepth. revert r.
    induction IH as [| item items Hitem _ IHl]; intros r maxDepth; [apply reports_only_refl |].
    specialize (Hitem (depth + 1) r).
    destruct (checkDepth item (depth + 1) r) as [d r'].
    eapply reports_only_trans; [apply Hitem | apply IHl].
  - generalize depth at 2 as maxDepth. revert r.
    induction IH as [| [key value] members Hvalue _ IHl]; intros r maxDepth;
      [apply reports_only_refl |].
    simpl in Hvalue. specialize (Hvalue (depth + 1) r).
    destruct (checkDepth value (depth + 1) r) as [d r'].
    eapply reports_only_trans; [apply Hvalue | apply IHl].
Qed.

Lemma checkDepth_beyond v depth r :
  MAX_DEPTH < depth ->
  checkDepth v depth r = (depth, report excessive_nesting_error r).
Proof.
  intros H. apply Nat.ltb_lt in H. destruct v; simpl; by rewrite H.
Qed.

Lemma checkDepth_findings v :
  forall depth r,
    depth <= S MAX_DEPTH ->
    snd (checkDepth v depth r)
    = extend r (repeat excessive_nesting_error (nodes_at_depth (S MAX_DEPTH - depth) v)).
Proof.
  induction v as [| b | n | s | items IH | members IH] using JsonValue_tree_ind;
    intros depth r Hd;
    (destruct (Nat.ltb_spec MAX_DEPTH depth) as [Hlt | Hle];
     [ rewrite checkDepth_beyond by exact Hlt;
       replace (S MAX_DEPTH - depth) with 0 by lia;
       simpl; apply report_as_extend
     | replace (S MAX_DEPTH - depth) with (S (MAX_DEPTH - depth)) by lia;
       pose proof (proj2 (Nat.ltb_ge _ _) Hle) as Hb; simpl; rewrite Hb; simpl;
       try (symmetry; apply extend_nil) ]).
  - match goal with
    | |- snd (?f items depth r) = _ =>
        enough (forall maxDepth r,
                  snd (f items maxDepth r)
                  = extend r (repeat excessive_nesting_error
                                (list_sum (map (nodes_at_depth (MAX_DEPTH - depth)) items))))
          as Hloop by apply Hloop
    end.
    clear r. induction IH as [| item items Hitem _ IHl]; intros maxDepth r;
      [symmetry; apply extend_nil |].
    specialize (Hitem (depth + 1) r ltac:(lia)).
    destruct (checkDepth item (depth + 1) r) as [d r']. simpl in Hitem. subst r'.
    rewrite IHl. simpl. rewrite extend_extend, repeat_app.
    replace (S MAX_DEPTH - (depth + 1)) with (MAX_DEPTH - depth) by lia. reflexivity.
  - match goal with
    | |- snd (?f members depth r) = _ =>
        enough (forall maxDepth r,
                  snd (f members maxDepth r)
                  = extend r
                      (repeat excessive_nesting_error
                         (list_sum
                            (map (fun kv => nodes_at_depth (MAX_DEPTH - depth) (snd kv))
                               members))))
          as Hloop by apply Hloop
    end.
    clear r. induction IH as [| [key value] members Hvalue _ IHl]; intros maxDepth r;
      [symmetry; apply extend_nil |].
    simpl in Hvalue. specialize (Hvalue (depth + 1) r ltac:(lia)).
    destruct (checkDepth value (depth + 1) r) as [d r']. simpl in Hvalue. subst r'.
    rewrite IHl. simpl. rewrite extend_extend, repeat_app.
    replace (S MAX_DEPTH - (depth + 1)) with (MAX_DEPTH - depth) by lia. reflexivity.
Qed.

Lemma checkDepth_prune v :
  forall depth r,
    depth <= S MAX_DEPTH ->
    checkDepth (prune (S MAX_DEPTH - depth) v) depth r = checkDepth v depth r.
Proof.
  induction v as [| b | n | s | items IH | members IH] using JsonValue_tree_ind;
    intros depth r Hd;
    (destruct (Nat.ltb_spec MAX_DEPTH depth) as [Hlt | Hle];
     [ by rewrite !checkDepth_beyond by exact Hlt
     | replace (S MAX_DEPTH - depth) with (S (MAX_DEPTH - depth)) by lia;
       pose proof (proj2 (Nat.ltb_ge _ _) Hle) as Hb; simpl; rewrite Hb; simpl;
       try reflexivity ]).
  - match goal with
    | |- ?f (map ?p items) depth r = ?g items depth r =>
        enough (forall maxDepth r, f (map p items) maxDepth r = g items maxDepth r)
          as Hloop by apply Hloop
    end.
    clear r. induction IH as [| item items Hitem _ IHl]; intros maxDepth r; [reflexivity |].
    simpl. specialize (Hitem (depth + 1) r ltac:(lia)).
    replace (S MAX_DEPTH - (depth + 1)) with (MAX_DEPTH - depth) in Hitem by lia.
    rewrite Hitem. destruct (checkDepth item (depth + 1) r) as [d r']. apply IHl.
  - match goal with
    | |- ?f (map ?p members) depth r = ?g members depth r =>
        enough (forall maxDepth r, f (map p members) maxDepth r = g members maxDepth r)
          as Hloop by apply Hloop
    end.
    clear r. induction IH as [| [key value] members Hvalue _ IHl]; intros maxDepth r;
      [reflexivity |].
    simpl in *. specialize (Hvalue (depth + 1) r ltac:(lia)).
    replace (S MAX_DEPTH - (depth + 1)) with (MAX_DEPTH - depth) in Hvalue by lia.
    rewrite Hvalue. destruct (checkDepth value (depth + 1) r) as [d r']. apply IHl.
Qed.

Lemma nodes_at_depth_below d v : 0 < nodes_at_depth (S d) v -> 0 < nodes_at_depth d v.
Proof.
  revert v. induction d as [| d IH]; intros v H; [simpl; lia |].
  destruct v as [| b | n | s | items | members]; simpl in H; try lia.
  - change (0 < list_sum (map (nodes_at_depth d) items)).
    induction items as [| item items IHl]; simpl in *; [lia |].
    destruct (Nat.eq_dec
      match item with
      | JArray items0 => list_sum (map (nodes_at_depth d) items0)
      | JObject members => list_sum (map (fun kv => nodes_at_depth d (snd kv)) members)
      | _ => 0
      end 0) as [E | E].
    + rewrite E in H. simpl in H. specialize (IHl H). lia.
    + assert (0 < nodes_at_depth d item); [apply IH; simpl; lia | lia].
  - change (0 < list_sum (map (fun kv => nodes_at_depth d (snd kv)) members)).
    induction members as [| [key value] members IHl]; simpl in *; [lia |].
    destruct (Nat.eq_dec
      match value with
      | JArray items0 => list_sum (map (nodes_at_depth d) items0)
      | JObject members => list_sum (map (fun kv => nodes_at_depth d (snd kv)) members)
      | _ => 0
      end 0) as [E | E].
    + rewrite E in H. simpl in H. specialize (IHl H). lia.
    + assert (0 < nodes_at_depth d value); [apply IH; simpl; lia | lia].
Qed.

Lemma nodes_at_depth_above d d' v :
  d <= d' -> 0 < nodes_at_depth d' v -> 0 < nodes_at_depth d v.
Proof.
  induction 1 as [| d' _ IH]; [done |]. intros H. apply IH. by apply nodes_at_depth_below.
Qed.

Lemma count_kind_repeat k r e n :
  type e = k -> count_kind k (extend r (repeat e n)) = count_kind k r + n.
Proof.
  intros <-. rewrite count_kind_extend. f_equal.
  induction n as [| n IH]; [done |]. simpl.
  assert (ErrorKind_eqb (type e) (type e) = true) as -> by (destruct (type e); done).
  simpl. by rewrite IH.
Qed.

Section AnomalyFacts.

Variable JSON_stringify : JsonValue -> completion string.

Lemma after_stringify_reports v :
  reports_only (only CircularReference) fresh_result (after_stringify JSON_stringify v).
Proof.
  unfold after_stringify. destruct (JSON_stringify v) as [s | []];
    try apply reports_only_refl.
  destruct (includes _ _); [apply reports_only_report; reflexivity | apply reports_only_refl].
Qed.

Lemma checkJsonAnomalies_unfold v :
  checkJsonAnomalies JSON_stringify v
  = checkSize v ""
      (snd (checkDepth v 0 (checkForInvalidNumbers v "" (after_stringify JSON_stringify v)))).
Proof. reflexivity. Qed.

Lemma checkJsonAnomalies_reports v :
  reports_only anomaly_kinds fresh_result (checkJsonAnomalies JSON_stringify v).
Proof.
  rewrite checkJsonAnomalies_unfold.
  eapply reports_only_trans;
    [eapply reports_only_weaken; [| apply after_stringify_reports] |].
  { by intros []. }
  eapply reports_only_trans;
    [eapply reports_only_weaken; [| apply checkForInvalidNumbers_reports] |].
  { by intros []. }
  eapply reports_only_trans;
    [eapply reports_only_weaken; [| apply checkDepth_reports] |].
  { by intros []. }
  eapply reports_only_weaken; [| apply checkSize_reports].
  by intros [].
Qed.

Lemma checkJsonAnomalies_consistent v : consistent (checkJsonAnomalies JSON_stringify v).
Proof.
  eapply reports_only_consistent; [apply checkJsonAnomalies_reports | apply consistent_fresh].
Qed.

Lemma count_ExcessiveNesting v :
  count_kind ExcessiveNesting (checkJsonAnomalies JSON_stringify v)
  = nodes_at_depth (S MAX_DEPTH) v.
Proof.
  rewrite checkJsonAnomalies_unfold.
  rewrite (reports_only_count _ ExcessiveNesting _ _ eq_refl (checkSize_reports _ _ _)).
  rewrite checkDepth_findings by lia.
  rewrite count_kind_repeat by reflexivity.
  rewrite (reports_only_count _ ExcessiveNesting _ _ eq_refl
             (checkForInvalidNumbers_reports _ _ _)).
  rewrite (reports_only_count _ ExcessiveNesting _ _ eq_refl (after_stringify_reports _)).
  rewrite Nat.sub_0_r. reflexivity.
Qed.

End AnomalyFacts.

(** ** The scope-tracking parser: what it reports, and that it has enough fuel *)

Module ScannerFacts.
Import Scanner.
Import ScannerSpec.

Lemma result_next st : result (next st) = result st.
Proof. unfold next. by destruct (unread st). Qed.

Lemma result_white st : result (white st) = result st.
Proof. unfold white. by destruct (white_loop _ _ _) as [[a c] s]. Qed.

Lemma result_primitive st : result (primitive st) = result st.
Proof. unfold primitive. by destruct (primitive_loop _ _ _) as [[a c] s]. Qed.

Lemma result_string_ st key st' : string_ st = Some (key, st') -> result st' = result st.
Proof.
  unfold string_. destruct (ch_is DQUOTE st); [| by intros [= _ <-]].
  destruct (string_loop _ _ _) as [[[a s] str] |]; [| done].
  intros [= _ <-]. by rewrite result_next.
Qed.

Lemma remaining_next st : remaining (next st) <= remaining st.
Proof. unfold remaining, next. destruct (unread st), (ch st); simpl; lia. Qed.

Lemma remaining_next_lt st c : ch st = Some c -> remaining (next st) < remaining st.
Proof. unfold remaining, next. intros ->. destruct (unread st); simpl; lia. Qed.

Lemma white_loop_remaining s : forall a c a' c' s',
  white_loop s a c = (a', c', s') ->
  String.length s' + match c' with Some _ => 1 | None => 0 end
  <= String.length s + match c with Some _ => 1 | None => 0 end.
Proof.
  induction s as [| d s IH]; intros a c a' c' s'; simpl.
  - destruct c as [c |]; [destruct (le_space c) |]; intros [= <- <- <-]; simpl; lia.
  - destruct c as [c |]; [destruct (le_space c) |]; try (intros [= <- <- <-]; simpl; lia).
    intros H. apply IH in H. lia.
Qed.

Lemma remaining_white st : remaining (white st) <= remaining st.
Proof.
  unfold white, remaining. destruct (white_loop _ _ _) as [[a c] s] eqn:E.
  apply white_loop_remaining in E. exact E.
Qed.

Lemma primitive_loop_remaining s : forall a c a' c' s',
  primitive_loop s a c = (a', c', s') ->
  String.length s' + match c' with Some _ => 1 | None => 0 end
  <= String.length s + match c with Some _ => 1 | None => 0 end.
Proof.
  induction s as [| d s IH]; intros a c a' c' s'; simpl.
  - destruct c as [c |]; [destruct (in_primitive c) |]; intros [= <- <- <-]; simpl; lia.
  - destruct c as [c |]; [destruct (in_primitive c) |]; try (intros [= <- <- <-]; simpl; lia).
    intros H. apply IH in H. lia.
Qed.

Lemma remaining_primitive st : remaining (primitive st) <= remaining st.
Proof.
  unfold primitive, remaining. destruct (primitive_loop _ _ _) as [[a c] s] eqn:E.
  apply primitive_loop_remaining in E. exact E.
Qed.

Lemma string_loop_remaining s : forall a str a' s' str',
  string_loop s a str = Some (a', s', str') -> String.length s' < String.length s.
Proof.
  assert (forall n s, String.length s <= n -> forall a str a' s' str',
            string_loop s a str = Some (a', s', str') ->
            String.length s' < String.length s) as H.
  { clear s. induction n as [| n IH]; intros s Hn a str a' s' str';
      destruct s as [| c s]; simpl in *; try done; try lia.
    destruct (Ascii.eqb c DQUOTE); [intros [= <- <- <-]; lia |].
    destruct (Ascii.eqb c BACKSLASH).
    - destruct s as [| c2 s2]; [done |]. intros H. apply IH in H; simpl in *; lia.
    - intros H. apply IH in H; simpl in *; lia. }
  eauto.
Qed.

Lemma remaining_string_ st key st' :
  string_ st = Some (key, st') -> remaining st' <= remaining st.
Proof.
  unfold string_. destruct (ch_is DQUOTE st) eqn:Hq; [| by intros [= _ <-]].
  destruct (string_loop _ _ _) as [[[a s] str] |] eqn:E; [| done].
  intros [= _ <-]. apply string_loop_remaining in E.
  etrans; [apply remaining_next |]. unfold remaining. simpl. lia.
Qed.

Lemma ch_is_Some c st : ch_is c st = true -> ch st = Some c.
Proof.
  unfold ch_is. destruct (ch st) as [d |]; [| done].
  intros H. apply Ascii.eqb_eq in H. by subst.
Qed.

(** *** Findings *)

Lemma report_duplicate_reports input key st :
  reports_only (only DuplicateKey) (result st) (result (report_duplicate input key st)).
Proof.
  unfold report_duplicate. destruct (line_column _ _) as [l c]. simpl.
  apply reports_only_report. reflexivity.
Qed.

Section Loops.

Variable input : string.
Variable value : state -> outcome.
Hypothesis Hvalue_reports : forall st, outcome_reports (result st) (value st).

Lemma object_loop_reports n : forall keys st,
  outcome_reports (result st) (object_loop input value n keys st).
Proof.
  induction n as [| n IH]; intros keys st; simpl.
  - destruct (ch st); simpl; [done | apply reports_only_refl].
  - destruct (ch st) as [c |]; simpl; [| apply reports_only_refl].
    destruct (ch_is DQUOTE (white st)); simpl;
      [| rewrite result_white; apply reports_only_refl].
    destruct (string_ (white st)) as [[key st1] |] eqn:Hs; [| done].
    apply result_string_ in Hs. rewrite result_white in Hs.
    destruct (ch_is ":"%char (white st1)); simpl;
      [| rewrite result_white, Hs; apply reports_only_refl].
    set (st2 := if bool_decide (key ∈ keys) then _ else _).
    assert (reports_only (only DuplicateKey) (result st) (result st2)) as H2.
    { subst st2. destruct (bool_decide (key ∈ keys)).
      - eapply reports_only_trans; [| apply report_duplicate_reports].
        rewrite result_next, result_white, Hs. apply reports_only_refl.
      - rewrite result_next, result_white, Hs. apply reports_only_refl. }
    pose proof (Hvalue_reports st2) as Hv. clearbody st2.
    destruct (value st2) as [st3 | e st3 | |]; simpl in *; [| | done | done].
    + destruct (ch_is "}"%char (white st3)); simpl.
      { rewrite result_next, result_white. eapply reports_only_trans; eassumption. }
      destruct (ch_is ","%char (white st3)); simpl.
      * specialize (IH ({[key]} ∪ keys) (next (white st3))).
        rewrite result_next, result_white in IH.
        destruct (object_loop _ _ _ _ _); simpl in *; try done;
          (eapply reports_only_trans; [| exact IH]);
          eapply reports_only_trans; eassumption.
      * rewrite result_white. eapply reports_only_trans; eassumption.
    + eapply reports_only_trans; eassumption.
Qed.

Lemma object__reports n st : outcome_reports (result st) (object_ input value n st).
Proof.
  unfold object_. destruct (ch_is "{"%char st); simpl; [| apply reports_only_refl].
  destruct (ch_is "}"%char (white (next st))); simpl.
  { rewrite !result_next, result_white, result_next. apply reports_only_refl. }
  pose proof (object_loop_reports n ∅ (white (next st))) as H.
  by rewrite result_white, result_next in H.
Qed.

Lemma array_loop_reports n : forall st,
  outcome_reports (result st) (array_loop value n st).
Proof.
  induction n as [| n IH]; intros st; simpl.
  - destruct (ch st); simpl; [done | apply reports_only_refl].
  - destruct (ch st) as [c |]; simpl; [| apply reports_only_refl].
    pose proof (Hvalue_reports st) as Hv.
    destruct (value st) as [st3 | e st3 | |]; simpl in *; [| done | done | done].
    destruct (ch_is "]"%char (white st3)); simpl.
    { by rewrite result_next, result_white. }
    destruct (ch_is ","%char (white st3)); simpl.
    + specialize (IH (white (next (white st3)))).
      rewrite result_white, result_next, result_white in IH.
      destruct (array_loop _ _ _); simpl in *; try done;
        eapply reports_only_trans; eassumption.
    + by rewrite result_white.
Qed.

Lemma array__reports n st : outcome_reports (result st) (array_ value n st).
Proof.
  unfold array_. destruct (ch_is "["%char st); simpl; [| apply reports_only_refl].
  destruct (ch_is "]"%char (white (next st))); simpl.
  { rewrite !result_next, result_white, result_next. apply reports_only_refl. }
  pose proof (array_loop_reports n (white (next st))) as H.
  by rewrite result_white, result_next in H.
Qed.

End Loops.

Lemma value_reports input fuel : forall st,
  outcome_reports (result st) (value input fuel st).
Proof.
  induction fuel as [| fuel IH]; intros st; simpl; [done |].
  destruct (ch_is "{"%char (white st)).
  { pose proof (object__reports input _ IH fuel (white st)) as H.
    by rewrite result_white in H. }
  destruct (ch_is "["%char (white st)).
  { pose proof (array__reports _ IH fuel (white st)) as H.
    by rewrite result_white in H. }
  destruct (ch_is DQUOTE (white st)).
  { destruct (string_ (white st)) as [[key st1] |] eqn:Hs; [| done].
    apply result_string_ in Hs. simpl. rewrite Hs, result_white. apply reports_only_refl. }
  destruct (ch_is "-"%char (white st)); simpl;
    rewrite result_primitive, ?result_next, result_white; apply reports_only_refl.
Qed.

Lemma scan_reports input r : outcome_reports r (scan input r).
Proof.
  unfold scan.
  pose proof (value_reports input (parser_fuel input)
                (white (mkState 0 (Some SPACE) input r))) as H.
  rewrite result_white in H. simpl in H.
  destruct (value _ _ _) as [st | e st | |]; simpl in *; try done.
  destruct (ch (white st)); simpl; by rewrite result_white.
Qed.

(** *** Fuel *)

Section LoopsFuel.

Variable input : string.
Variable value : state -> outcome.
Variable f : nat.
Hypothesis Hvalue_fuelled : forall st, remaining st < f -> fuelled st (value st).

Lemma object_loop_fuelled n : forall keys st,
  remaining st <= n -> remaining st < f ->
  fuelled st (object_loop input value n keys st).
Proof.
  induction n as [| n IH]; intros keys st Hn Hf; simpl.
  - destruct (ch st) eqn:E; [unfold remaining in Hn; rewrite E in Hn; lia |].
    split; [done | by intros st' [=]].
  - destruct (ch st) as [c |] eqn:E; [| split; [done | by intros st' [=]]].
    pose proof (remaining_white st) as Hw.
    destruct (ch_is DQUOTE (white st)) eqn:Hq; simpl; [| split; [done | by intros st' [=]]].
    destruct (string_ (white st)) as [[key st1] |] eqn:Hs; [| split; [done | by intros st' [=]]].
    pose proof (remaining_string_ _ _ _ Hs) as H1.
    assert (remaining st1 < remaining (white st)) as H1'.
    { revert Hs. unfold string_. rewrite Hq.
      destruct (string_loop _ _ _) as [[[a s] str] |] eqn:El; [| done].
      intros [= _ <-]. apply string_loop_remaining in El.
      pose proof (remaining_next (mkState a (Some DQUOTE) s (result (white st)))) as Hnx.
      unfold remaining in *. simpl in *. apply ch_is_Some in Hq. rewrite Hq. lia. }
    pose proof (remaining_white st1) as Hw1.
    destruct (ch_is ":"%char (white st1)) eqn:Hc; simpl;
      [| split; [done | by intros st' [=]]].
    pose proof (remaining_next (white st1)) as Hn1.
    set (st2 := if bool_decide (key ∈ keys) then _ else _).
    assert (remaining st2 = remaining (next (white st1))) as H2.
    { subst st2. destruct (bool_decide (key ∈ keys)); [| done].
      unfold report_duplicate. by destruct (line_column _ _). }
    clearbody st2.
    destruct (Hvalue_fuelled st2 ltac:(lia)) as [Hv1 Hv2].
    destruct (value st2) as [st3 | e st3 | |] eqn:Ev; [| | | done];
      [| split; [done | by intros st' [=]] | split; [done | by intros st' [=]]].
    specialize (Hv2 st3 eq_refl).
    pose proof (remaining_white st3) as Hw3.
    pose proof (remaining_next (white st3)) as Hn3.
    destruct (ch_is "}"%char (white st3)) eqn:Hb; simpl.
    { split; [done |]. intros st' [= <-]. lia. }
    destruct (ch_is ","%char (white st3)) eqn:Hcm; simpl;
      [| split; [done | by intros st' [=]]].
    destruct (IH ({[key]} ∪ keys) (next (white st3)) ltac:(lia) ltac:(lia)) as [I1 I2].
    split; [exact I1 |]. intros st' Hd. specialize (I2 st' Hd). lia.
Qed.

Lemma object__fuelled n st :
  remaining st <= n -> remaining st < f -> fuelled st (object_ input value n st).
Proof.
  intros Hn Hf. unfold object_.
  destruct (ch_is "{"%char st) eqn:Hb; [| split; [done | by intros st' [= <-]]].
  pose proof (remaining_next st). pose proof (remaining_white (next st)).
  pose proof (remaining_next (white (next st))).
  destruct (ch_is "}"%char (white (next st))).
  { split; [done |]. intros st' [= <-]. lia. }
  destruct (object_loop_fuelled n ∅ (white (next st)) ltac:(lia) ltac:(lia)) as [I1 I2].
  split; [exact I1 |]. intros st' Hd. specialize (I2 st' Hd). lia.
Qed.

Lemma array_loop_fuelled n : forall st,
  remaining st <= n -> remaining st < f -> fuelled st (array_loop value n st).
Proof.
  induction n as [| n IH]; intros st Hn Hf; simpl.
  - destruct (ch st) eqn:E; [unfold remaining in Hn; rewrite E in Hn; lia |].
    split; [done | by intros st' [=]].
  - destruct (ch st) as [c |] eqn:E; [| split; [done | by intros st' [=]]].
    destruct (Hvalue_fuelled st Hf) as [Hv1 Hv2].
    destruct (value st) as [st3 | e st3 | |] eqn:Ev; [| | | done];
      [| split; [done | by intros st' [=]] | split; [done | by intros st' [=]]].
    specialize (Hv2 st3 eq_refl).
    pose proof (remaining_white st3) as Hw3.
    pose proof (remaining_next (white st3)) as Hn3.
    destruct (ch_is "]"%char (white st3)) eqn:Hb; simpl.
    { split; [done |]. intros st' [= <-]. lia. }
    destruct (ch_is ","%char (white st3)) eqn:Hcm; simpl;
      [| split; [done | by intros st' [=]]].
    pose proof (remaining_next_lt _ _ (ch_is_Some _ _ Hcm)) as Hlt.
    pose proof (remaining_white (next (white st3))) as Hw4.
    destruct (IH (white (next (white st3))) ltac:(lia) ltac:(lia)) as [I1 I2].
    split; [exact I1 |]. intros st' Hd. specialize (I2 st' Hd). lia.
Qed.

Lemma array__fuelled n st :
  remaining st <= n -> remaining st < f -> fuelled st (array_ value n st).
Proof.
  intros Hn Hf. unfold array_.
  destruct (ch_is "["%char st) eqn:Hb; [| split; [done | by intros st' [=]]].
  pose proof (remaining_next st). pose proof (remaining_white (next st)).
  pose proof (remaining_next (white (next st))).
  destruct (ch_is "]"%char (white (next st))).
  { split; [done |]. intros st' [= <-]. lia. }
  destruct (array_loop_fuelled n (white (next st)) ltac:(lia) ltac:(lia)) as [I1 I2].
  split; [exact I1 |]. intros st' Hd. specialize (I2 st' Hd). lia.
Qed.

End LoopsFuel.

Lemma value_fuelled input fuel : forall st,
  remaining st < fuel -> fuelled st (value input fuel st).
Proof.
  induction fuel as [| fuel IH]; intros st Hf; [lia |]. simpl.
  pose proof (remaining_white st) as Hw.
  destruct (ch_is "{"%char (white st)) eqn:Hb.
  { pose proof (remaining_next_lt _ _ (ch_is_Some _ _ Hb)) as Hlt.
    unfold object_. rewrite Hb.
    pose proof (remaining_white (next (white st))).
    pose proof (remaining_next (white (next (white st)))).
    destruct (ch_is "}"%char (white (next (white st)))).
    { split; [done |]. intros st' [= <-]. lia. }
    destruct (object_loop_fuelled input _ fuel IH fuel ∅ (white (next (white st)))
                ltac:(lia) ltac:(lia)) as [I1 I2].
    split; [exact I1 |]. intros st' Hd. specialize (I2 st' Hd). lia. }
  destruct (ch_is "["%char (white st)) eqn:Ha.
  { pose proof (remaining_next_lt _ _ (ch_is_Some _ _ Ha)) as Hlt.
    unfold array_. rewrite Ha.
    pose proof (remaining_white (next (white st))).
    pose proof (remaining_next (white (next (white st)))).
    destruct (ch_is "]"%char (white (next (white st)))).
    { split; [done |]. intros st' [= <-]. lia. }
    destruct (array_loop_fuelled _ fuel IH fuel (white (next (white st)))
                ltac:(lia) ltac:(lia)) as [I1 I2].
    split; [exact I1 |]. intros st' Hd. specialize (I2 st' Hd). lia. }
  destruct (ch_is DQUOTE (white st)).
  { destruct (string_ (white st)) as [[key st1] |] eqn:Hs; [| split; [done | by intros st' [=]]].
    apply remaining_string_ in Hs. split; [done |]. intros st' [= <-]. lia. }
  pose proof (remaining_next (white st)).
  pose proof (remaining_primitive (white st)).
  pose proof (remaining_primitive (next (white st))).
  destruct (ch_is "-"%char (white st)); (split; [done |]); intros st' [= <-]; lia.
Qed.

(** [parser_fuel] is enough: the scan never stops for lack of fuel. *)
Lemma scan_fuelled input r : scan input r <> NoFuel.
Proof.
  unfold scan.
  set (st := white _).
  assert (remaining st < parser_fuel input) as Hf.
  { subst st. eapply Nat.le_lt_trans; [apply remaining_white |].
    unfold remaining, parser_fuel. simpl. lia. }
  destruct (value_fuelled input _ st Hf) as [H1 _].
  destruct (value input _ st); try done. by destruct (ch (white _)).
Qed.

End ScannerFacts.

(** ** Position tracking *)

Lemma get_skip i : forall text,
  String.get i text
  = match skip i text with String c _ => Some c | EmptyString => None end.
Proof.
  induction i as [| i IH]; intros [| c text]; simpl; auto.
Qed.

Lemma skip_S i : forall text,
  skip (S i) text
  = match skip i text with String _ rest => rest | EmptyString => EmptyString end.
Proof.
  induction i as [| i IH]; intros [| c text]; try done.
  change (skip (S (S i)) (String c text)) with (skip (S i) text).
  change (skip (S i) (String c text)) with (skip i text). apply IH.
Qed.

Lemma line_feeds_empty n : line_feeds n EmptyString = 0.
Proof. by destruct n. Qed.

Lemma position_loop_line text n : forall i l c,
  fst (position_loop text n i (l, c)) = l + line_feeds n (skip i text).
Proof.
  induction n as [| n IH]; intros i l c.
  - simpl. lia.
  - cbn [position_loop]. rewrite get_skip.
    pose proof (skip_S i text) as HS.
    destruct (skip i text) as [| ch rest].
    + rewrite IH, HS, line_feeds_empty. simpl. lia.
    + cbn [line_feeds]. destruct (Ascii.eqb ch LF); rewrite IH, HS; lia.
Qed.

Lemma position_loop_positive text n : forall i l c,
  1 <= l -> 1 <= c ->
  1 <= fst (position_loop text n i (l, c)) /\ 1 <= snd (position_loop text n i (l, c)).
Proof.
  induction n as [| n IH]; intros i l c Hl Hc; [simpl; lia |].
  cbn [position_loop].
  destruct (String.get i text) as [ch |]; [destruct (Ascii.eqb ch LF) |]; apply IH; lia.
Qed.

Lemma line_column_line text p : fst (line_column text p) = 1 + line_feeds p text.
Proof. unfold line_column. by rewrite position_loop_line. Qed.

Lemma line_column_positive text p :
  1 <= fst (line_column text p) /\ 1 <= snd (line_column text p).
Proof. apply position_loop_positive; lia. Qed.

(** ** Stages over any host *)

Lemma revive_identity_id v : revive_identity v = v.
Proof.
  induction v as [| b | n | s | items IH | members IH] using JsonValue_tree_ind;
    simpl; try done; f_equal.
  - induction IH as [| item items H _ IHl]; simpl; [done |]. by rewrite H, IHl.
  - induction IH as [| [key value] members H _ IHl]; simpl in *; [done |]. by rewrite H, IHl.
Qed.

Lemma fold_push_extend {A} (f : A -> ValidationError) (l : list A) : forall r,
  fold_left (fun r x => push (f x) r) l r
  = mkResult (valid r) (errors r ++ map f l).
Proof.
  induction l as [| x l IH]; intros r; simpl.
  - destruct r. by rewrite app_nil_r.
  - rewrite IH. simpl. rewrite <- app_assoc. done.
Qed.

Lemma fold_push_reports {A} (f : A -> ValidationError) (l : list A) r :
  (0 <? List.length l) = true ->
  fold_left (fun r x => push (f x) r) l (mkResult false (errors r)) = extend r (map f l).
Proof.
  intros H. rewrite fold_push_extend. unfold extend. simpl.
  destruct l; [done |]. simpl. by rewrite andb_false_r.
Qed.

Lemma reports_only_kinds allowed r r' :
  reports_only allowed r r' -> kinds_in allowed r -> kinds_in allowed r'.
Proof. intros (es & -> & Hes) Hr. unfold kinds_in, extend. simpl. by apply Forall_app. Qed.

Section ValidatorFacts.

Variable JSON_parse : string -> completion JsonValue.
Variable JSON_stringify : JsonValue -> completion string.
Variable ajv_compile : JsonValue -> completion ValidateFunction.

Lemma validateJsonSyntax_returns text v :
  JSON_parse text = Returns v -> validateJsonSyntax JSON_parse text = fresh_result.
Proof. unfold validateJsonSyntax. by intros ->. Qed.

Lemma validateJsonSyntax_throws text e :
  JSON_parse text = Throws e ->
  exists finding,
    validateJsonSyntax JSON_parse text = mkResult false [finding]
    /\ syntax_kinds (type finding) = true.
Proof.
  unfold validateJsonSyntax. intros ->.
  destruct e; try (eexists; split; [reflexivity | reflexivity]).
  destruct (match option_map parseInt (match_at_position msg) with
            | Some p => line_column text p | None => (1, 1) end) as [l c].
  eexists; split; reflexivity.
Qed.

Lemma validateJsonSyntax_valid text :
  valid (validateJsonSyntax JSON_parse text) = true <-> exists v, JSON_parse text = Returns v.
Proof.
  destruct (JSON_parse text) as [v | e] eqn:E.
  - rewrite (validateJsonSyntax_returns _ _ E). split; [eauto | done].
  - destruct (validateJsonSyntax_throws _ _ E) as (f & -> & _). simpl.
    split; [done | by intros [v [=]]].
Qed.

Lemma validateJsonSyntax_reports text :
  reports_only syntax_kinds fresh_result (validateJsonSyntax JSON_parse text).
Proof.
  destruct (JSON_parse text) as [v | e] eqn:E.
  - rewrite (validateJsonSyntax_returns _ _ E). apply reports_only_refl.
  - destruct (validateJsonSyntax_throws _ _ E) as (f & -> & Hf).
    exists [f]. split; [reflexivity | by constructor].
Qed.

Lemma validateJsonSyntax_consistent text : consistent (validateJsonSyntax JSON_parse text).
Proof.
  eapply reports_only_consistent; [apply validateJsonSyntax_reports | apply consistent_fresh].
Qed.

(** The comparison of the two serialisations never finds a difference. *)
Lemma compare_serialisations_returns text r r' :
  compare_serialisations JSON_parse JSON_stringify text r = Returns r' -> r' = r.
Proof.
  unfold compare_serialisations.
  destruct (JSON_parse text) as [v | e]; [| done].
  rewrite revive_identity_id.
  destruct (JSON_stringify v) as [s | e]; [| done].
  rewrite Nat.eqb_refl. simpl. by intros [= <-].
Qed.

Lemma compare_serialisations_throws text r e :
  JSON_parse text = Throws e ->
  compare_serialisations JSON_parse JSON_stringify text r = Throws e.
Proof. unfold compare_serialisations. by intros ->. Qed.

Lemma add_line_duplicates_reports dups r :
  reports_only (only DuplicateKey) r (add_line_duplicates dups r).
Proof.
  unfold add_line_duplicates. destruct (0 <? List.length dups) eqn:E;
    [| apply reports_only_refl].
  rewrite (fold_push_reports
             (fun dup => duplicate_key_error (dup_key dup) (dup_line dup) (dup_column dup)))
    by exact E.
  eexists. split; [reflexivity |]. apply Forall_map, Forall_forall. by intros.
Qed.

(** [checkDuplicateKeys] ends by returning the report of [validateJsonSyntax],
    found invalid, or a report of duplicate keys; or it does not end. *)
Lemma checkDuplicateKeys_cases text :
  match checkDuplicateKeys JSON_parse JSON_stringify text with
  | Finishes r =>
      (r = validateJsonSyntax JSON_parse text /\ valid r = false)
      \/ reports_only (only DuplicateKey) fresh_result r
  | Raises _ | OutOfFuel => False
  | Diverges => True
  end.
Proof.
  unfold checkDuplicateKeys.
  set (stage := match compare_serialisations _ _ _ _ with Returns r => _ | Throws _ => _ end).
  assert (match stage with
          | inl s => s = validateJsonSyntax JSON_parse text /\ valid s = false
          | inr r => r = fresh_result
          end) as Hstage.
  { subst stage. destruct (compare_serialisations _ _ _ _) as [r | e] eqn:E.
    - by apply compare_serialisations_returns in E.
    - destruct (valid (validateJsonSyntax JSON_parse text)) eqn:V; simpl; [done |]. by split. }
  destruct stage as [s | r]; [by left |]. subst r.
  pose proof (ScannerFacts.scan_reports text
                (add_line_duplicates (line_duplicates text) fresh_result)) as Hscan.
  pose proof (ScannerFacts.scan_fuelled text
                (add_line_duplicates (line_duplicates text) fresh_result)) as Hfuel.
  pose proof (add_line_duplicates_reports (line_duplicates text) fresh_result) as Hlines.
  destruct (Scanner.scan _ _) as [st | e st | |]; simpl in Hscan; [| | done | done].
  - right. eapply reports_only_trans; eassumption.
  - destruct (is_SyntaxError e && _).
    + destruct (valid (validateJsonSyntax JSON_parse text)) eqn:V; simpl.
      * right. eapply reports_only_trans; eassumption.
      * left. by split.
    + right. eapply reports_only_trans; eassumption.
Qed.

(** On a text that [JSON.parse] accepts, the report lists the findings of the
    line scan, then those of the scope parser; nothing removes a finding that
    both have made. *)
Lemma checkDuplicateKeys_parsable text v r :
  JSON_parse text = Returns v ->
  checkDuplicateKeys JSON_parse JSON_stringify text = Finishes r ->
  exists es,
    r = extend fresh_result
          (map (fun dup => duplicate_key_error (dup_key dup) (dup_line dup) (dup_column dup))
             (line_duplicates text) ++ es)
    /\ Forall (fun e => only DuplicateKey (type e) = true) es.
Proof.
  intros P. unfold checkDuplicateKeys.
  rewrite (validateJsonSyntax_returns _ _ P). simpl.
  assert (match compare_serialisations JSON_parse JSON_stringify text fresh_result with
          | Returns result => result
          | Throws _ => fresh_result
          end = fresh_result) as Hstage.
  { destruct (compare_serialisations _ _ _ _) as [r0 | e] eqn:E; [| done].
    by apply compare_serialisations_returns in E. }
  destruct (compare_serialisations _ _ _ _) as [r0 | e]; subst;
    (assert (add_line_duplicates (line_duplicates text) fresh_result
             = extend fresh_result
                 (map (fun dup =>
                         duplicate_key_error (dup_key dup) (dup_line dup) (dup_column dup))
                    (line_duplicates text))) as ->;
     [ unfold add_line_duplicates;
       destruct (0 <? List.length (line_duplicates text)) eqn:L;
       [ by apply fold_push_reports
       | destruct (line_duplicates text); [by rewrite extend_nil | done] ]
     | ]);
    match goal with
    | |- context [Scanner.scan text ?r0] =>
        pose proof (ScannerFacts.scan_reports text r0) as Hscan;
        destruct (Scanner.scan text r0) as [st | e' st | |]; simpl in Hscan; try done
    end;
    try destruct (is_SyntaxError e' && _);
    intros [= <-]; destruct Hscan as (es & -> & Hes);
    exists es; by rewrite extend_extend.
Qed.

Lemma checkDuplicateKeys_consistent text r :
  checkDuplicateKeys JSON_parse JSON_stringify text = Finishes r -> consistent r.
Proof.
  intros H. pose proof (checkDuplicateKeys_cases text) as Hc. rewrite H in Hc.
  destruct Hc as [[-> _] | Hc]; [apply validateJsonSyntax_consistent |].
  eapply reports_only_consistent; [exact Hc | apply consistent_fresh].
Qed.

(** A text that [JSON.parse] rejects: [checkDuplicateKeys] returns the report
    of [validateJsonSyntax] from its first [catch]. *)
Lemma checkDuplicateKeys_unparsable text e :
  JSON_parse text = Throws e ->
  checkDuplicateKeys JSON_parse JSON_stringify text = Finishes (validateJsonSyntax JSON_parse text).
Proof.
  intros E. unfold checkDuplicateKeys.
  rewrite (compare_serialisations_throws _ _ _ E).
  destruct (validateJsonSyntax_throws _ _ E) as (f & Hf & _). by rewrite Hf.
Qed.

Lemma validateJsonSchema_consistent data schema r :
  ajv_reports_failures ajv_compile ->
  validateJsonSchema ajv_compile data schema = Returns r -> consistent r.
Proof.
  intros Hajv. unfold validateJsonSchema.
  destruct (ajv_compile schema) as [validate | e] eqn:E; [| done].
  intros [= <-]. destruct (passed (validate data)) eqn:P; simpl.
  - left. done.
  - destruct (Hajv _ _ data E P) as (err & errs & ->). right. done.
Qed.

Lemma validateJsonSchema_kinds data schema r :
  validateJsonSchema ajv_compile data schema = Returns r -> kinds_in (only SchemaError) r.
Proof.
  unfold validateJsonSchema.
  destruct (ajv_compile schema) as [validate | e]; [| done].
  intros [= <-].
  destruct (negb (passed (validate data))), (validate_errors (validate data));
    unfold kinds_in; simpl; try by constructor.
  apply Forall_map, Forall_forall. by intros.
Qed.

Lemma merge_consistent a s :
  consistent a -> consistent s ->
  consistent (mkResult (valid a && valid s) (errors a ++ errors s)).
Proof.
  intros [[Va Ea] | [Va Ea]] [[Vs Es] | [Vs Es]]; unfold consistent; simpl;
    rewrite Va, Vs; simpl.
  - left. by rewrite Ea, Es.
  - right. split; [done |]. by rewrite Ea.
  - right. split; [done |]. destruct (errors a); [done | discriminate].
  - right. split; [done |]. destruct (errors a); [done | discriminate].
Qed.

Lemma validateJson_consistent text schema r :
  ajv_reports_failures ajv_compile ->
  validateJson JSON_parse JSON_stringify ajv_compile text schema = Finishes r -> consistent r.
Proof.
  intros Hajv. unfold validateJson, validateJson_stages.
  destruct (checkDuplicateKeys JSON_parse JSON_stringify text) as [d | | |] eqn:D; simpl; try done.
  destruct (valid d) eqn:Vd; simpl.
  2:{ intros [= <-]. eapply checkDuplicateKeys_consistent, D. }
  destruct (valid (validateJsonSyntax JSON_parse text)) eqn:Vs; simpl.
  2:{ intros [= <-]. apply validateJsonSyntax_consistent. }
  destruct (JSON_parse text) as [v | e]; simpl; [| done].
  destruct schema as [schema |]; simpl.
  - destruct (validateJsonSchema ajv_compile v schema) as [s | e] eqn:S; [| done].
    intros [= <-]. apply merge_consistent.
    + apply checkJsonAnomalies_consistent.
    + eapply validateJsonSchema_consistent; eassumption.
  - intros [= <-]. apply checkJsonAnomalies_consistent.
Qed.

Lemma validateJson_kinds text schema r :
  validateJson JSON_parse JSON_stringify ajv_compile text schema = Finishes r ->
  kinds_in engine_kinds r.
Proof.
  unfold validateJson, validateJson_stages.
  assert (kinds_in engine_kinds fresh_result) as H0 by constructor.
  assert (kinds_in engine_kinds (validateJsonSyntax JSON_parse text)) as Hs.
  { eapply reports_only_kinds; [| exact H0].
    eapply reports_only_weaken; [| apply validateJsonSyntax_reports]. by intros []. }
  pose proof (checkDuplicateKeys_cases text) as Hc.
  destruct (checkDuplicateKeys JSON_parse JSON_stringify text) as [d | | |] eqn:D; simpl; try done.
  destruct (valid d) eqn:Vd; simpl.
  2:{ intros [= <-]. destruct Hc as [[-> _] | Hc]; [done |].
      eapply reports_only_kinds; [| exact H0].
      eapply reports_only_weaken; [| exact Hc]. by intros []. }
  destruct (valid (validateJsonSyntax JSON_parse text)) eqn:Vs; simpl; [| by intros [= <-]].
  destruct (JSON_parse text) as [v | e]; simpl; [| done].
  assert (kinds_in engine_kinds (checkJsonAnomalies JSON_stringify v)) as Ha.
  { eapply reports_only_kinds; [| exact H0].
    eapply reports_only_weaken; [| apply checkJsonAnomalies_reports]. by intros []. }
  destruct schema as [schema |]; simpl; [| by intros [= <-]].
  destruct (validateJsonSchema ajv_compile v schema) as [s | e] eqn:S; [| done].
  intros [= <-]. unfold kinds_in. simpl. apply Forall_app. split; [exact Ha |].
  apply validateJsonSchema_kinds in S. eapply Forall_impl; [exact S |].
  simpl. intros x. by destruct (type x).
Qed.

End ValidatorFacts.

Lemma trim_blank text : blank text = true -> trim text = EmptyString.
Proof.
  intros H. unfold trim.
  assert (drop_while is_space text = EmptyString) as ->; [| done].
  induction text as [| c text IH]; simpl in *; [done |].
  apply andb_prop in H as [-> H]. auto.
Qed.

(** ** The walkers on object graphs *)

Module GraphFacts.

(** On a tree, with a stack deeper than the tree, the walkers on graphs do
    what the walkers on trees do. *)
Section Trees.

Variable heap : Graph.Heap.

Lemma checkForInvalidNumbers_of_tree v : forall stack path r,
  height v < stack ->
  Graph.checkForInvalidNumbers heap stack (Graph.of_tree v) path r
  = Finishes (checkForInvalidNumbers v path r).
Proof.
  induction v as [| b | n | s | items IH | members IH] using JsonValue_tree_ind;
    intros [| stack] path r Hh; try lia; simpl; try done.
  - by destruct (nonfinite_text n).
  - simpl in Hh. assert (list_max (map height items) < stack) as Hm by lia. clear Hh.
    generalize 0 as index. revert r.
    induction IH as [| item items Hitem _ IHl]; intros r index; [done |].
    simpl in *. rewrite Hitem by lia. apply IHl. lia.
  - simpl in Hh.
    assert (list_max (map (fun kv => height (snd kv)) members) < stack) as Hm by lia.
    clear Hh. revert r.
    induction IH as [| [key value] members Hvalue _ IHl]; intros r; [done |].
    simpl in *. rewrite Hvalue by lia. apply IHl. lia.
Qed.

Lemma checkSize_of_tree v : forall stack path r,
  height v < stack ->
  Graph.checkSize heap stack (Graph.of_tree v) path r = Finishes (checkSize v path r).
Proof.
  induction v as [| b | n | s | items IH | members IH] using JsonValue_tree_ind;
    intros [| stack] path r Hh; try lia; simpl; try done.
  - rewrite length_map. destruct (MAX_COLLECTION_SIZE <? List.length items); [done |].
    simpl in Hh. assert (list_max (map height items) < stack) as Hm by lia. clear Hh.
    generalize 0 as index. revert r.
    induction IH as [| item items Hitem _ IHl]; intros r index; [done |].
    simpl in *. rewrite Hitem by lia. apply IHl. lia.
  - rewrite length_map.
    set (r0 := if MAX_COLLECTION_SIZE <? List.length members then _ else _).
    clearbody r0. simpl in Hh.
    assert (list_max (map (fun kv => height (snd kv)) members) < stack) as Hm by lia.
    clear Hh r. revert r0.
    induction IH as [| [key value] members Hvalue _ IHl]; intros r; [done |].
    simpl in *. rewrite Hvalue by lia. apply IHl. lia.
Qed.

Lemma checkDepth_of_tree v : forall stack depth r,
  height v < stack ->
  Graph.checkDepth heap stack (Graph.of_tree v) depth r = Finishes (checkDepth v depth r).
Proof.
  induction v as [| b | n | s | items IH | members IH] using JsonValue_tree_ind;
    intros [| stack] depth r Hh; try lia; simpl;
    destruct (MAX_DEPTH <? depth); try done.
  - simpl in Hh. assert (list_max (map height items) < stack) as Hm by lia. clear Hh.
    match goal with
    | |- _ = Finishes (?g items depth r) =>
        enough (forall maxDepth r,
                  Graph.each_depth (fun item => Graph.checkDepth heap stack item (depth + 1))
                    (map Graph.of_tree items) maxDepth r
                  = Finishes (g items maxDepth r)) as Hloop by apply Hloop
    end.
    clear r. induction IH as [| item items Hitem _ IHl]; intros maxDepth r; [done |].
    simpl in *. rewrite Hitem by lia.
    destruct (checkDepth item (depth + 1) r) as [d r']. apply IHl. lia.
  - simpl in Hh.
    assert (list_max (map (fun kv => height (snd kv)) members) < stack) as Hm by lia.
    clear Hh.
    match goal with
    | |- _ = Finishes (?g members depth r) =>
        enough (forall maxDepth r,
                  Graph.each_depth (fun item => Graph.checkDepth heap stack item (depth + 1))
                    (map snd (map (fun kv => (fst kv, Graph.of_tree (snd kv))) members))
                    maxDepth r
                  = Finishes (g members maxDepth r)) as Hloop by apply Hloop
    end.
    clear r. induction IH as [| [key value] members Hvalue _ IHl]; intros maxDepth r; [done |].
    simpl in *. rewrite Hvalue by lia.
    destruct (checkDepth value (depth + 1) r) as [d r']. apply IHl. lia.
Qed.

Variable JSON_stringify_graph : Graph.Heap -> Graph.Value -> completion string.
Variable JSON_stringify : JsonValue -> completion string.
Hypothesis stringify_of_tree :
  forall v, JSON_stringify_graph heap (Graph.of_tree v) = JSON_stringify v.

Lemma checkJsonAnomalies_of_tree v stack :
  height v < stack ->
  Graph.checkJsonAnomalies heap JSON_stringify_graph stack (Graph.of_tree v)
  = Finishes (checkJsonAnomalies JSON_stringify v).
Proof.
  intros Hh. unfold Graph.checkJsonAnomalies, checkJsonAnomalies.
  rewrite stringify_of_tree, checkForInvalidNumbers_of_tree by exact Hh.
  rewrite checkDepth_of_tree by exact Hh.
  destruct (checkDepth _ _ _) as [d r]. simpl.
  by rewrite checkSize_of_tree.
Qed.

End Trees.

(** On the object that contains itself, the first walker uses up any stack. *)
Lemma self_cycle_lookup : Graph.self_cycle !! 0 = Some (Graph.Object [("self", Graph.Ref 0)]).
Proof. reflexivity. Qed.

Lemma checkForInvalidNumbers_self_cycle stack :
  (forall path r,
     Graph.checkForInvalidNumbers Graph.self_cycle stack (Graph.Ref 0) path r
     = Raises Graph.stack_overflow)
  /\ (forall path r,
        Graph.checkForInvalidNumbers Graph.self_cycle stack
          (Graph.Object [("self", Graph.Ref 0)]) path r
        = Raises Graph.stack_overflow).
Proof.
  induction stack as [| stack [IHref IHobj]]; [by split |]. split; intros path r; simpl.
  - rewrite self_cycle_lookup. apply IHobj.
  - by rewrite IHref.
Qed.

End GraphFacts.

(** ** The scope parser on texts that the reference parser accepts *)

Module Agreement.
Import Scanner.
Import ScannerSpec.

Lemma sync_next st c s : sync st (String c s) -> sync (next st) s.
Proof.
  intros [_ Hu]. unfold next. rewrite Hu. by destruct s.
Qed.

Lemma sync_ch_is st c s d : sync st (String c s) -> ch_is d st = Ascii.eqb c d.
Proof. intros [Hc _]. unfold ch_is. by rewrite Hc. Qed.

Lemma sync_ch_is_empty st d : sync st EmptyString -> ch_is d st = false.
Proof. intros [Hc _]. unfold ch_is. by rewrite Hc. Qed.

Lemma white_loop_sync s : forall a c,
  let '(a', c', u') := white_loop s a (Some c) in
  match drop_while le_space (String c s) with
  | EmptyString => c' = None /\ u' = EmptyString
  | String d s' => c' = Some d /\ u' = s'
  end.
Proof.
  induction s as [| d s IH]; intros a c; simpl.
  - by destruct (le_space c).
  - destruct (le_space c); [| done]. apply IH.
Qed.

Lemma sync_white st s : sync st s -> sync (white st) (drop_while le_space s).
Proof.
  unfold white. destruct s as [| c s]; intros [Hc Hu]; rewrite Hc, Hu.
  - done.
  - pose proof (white_loop_sync s (at_ st) c) as H.
    destruct (white_loop s (at_ st) (Some c)) as [[a' c'] u'].
    unfold sync. revert H. destruct (drop_while le_space (String c s)); intros H; exact H.
Qed.

Lemma is_ws_le_space c : Reference.is_ws c = true -> le_space c = true.
Proof.
  unfold Reference.is_ws, le_space. intros H.
  apply Nat.leb_le.
  repeat (apply orb_prop in H as [H | H]); apply Nat.eqb_eq in H; lia.
Qed.

Lemma skip_ws_drop s : forall pos, fst (Reference.skip_ws s pos) = drop_while Reference.is_ws s.
Proof.
  induction s as [| c s IH]; intros pos; simpl; [done |].
  destruct (Reference.is_ws c); [apply IH | done].
Qed.

Lemma drop_le_space_after_ws s :
  (drop_while Reference.is_ws s = EmptyString \/ starts_token (drop_while Reference.is_ws s)) ->
  drop_while le_space s = drop_while Reference.is_ws s.
Proof.
  induction s as [| c s IH]; simpl; [done |].
  destruct (Reference.is_ws c) eqn:W.
  - rewrite (is_ws_le_space _ W). exact IH.
  - intros [H | (d & s' & [= <- <-] & H)]; [done |]. by rewrite H.
Qed.

(** After the white space of JSON comes the end or a token: [white] stops
    where [skip_ws] stops. *)
Lemma sync_white_skip_ws st s pos :
  sync st s ->
  (fst (Reference.skip_ws s pos) = EmptyString
   \/ starts_token (fst (Reference.skip_ws s pos))) ->
  sync (white st) (fst (Reference.skip_ws s pos)).
Proof.
  intros Hs H. rewrite skip_ws_drop in *. rewrite <- drop_le_space_after_ws by exact H.
  by apply sync_white.
Qed.

Lemma skip_ws_idem s pos :
  Reference.skip_ws (fst (Reference.skip_ws s pos)) (snd (Reference.skip_ws s pos))
  = Reference.skip_ws s pos.
Proof.
  revert pos. induction s as [| c s IH]; intros pos; simpl; [done |].
  destruct (Reference.is_ws c) eqn:W; [apply IH |]. simpl. by rewrite W.
Qed.

Lemma reaches_trans p s1 s2 s3 : reaches p s1 s2 -> reaches p s2 s3 -> reaches p s1 s3.
Proof. induction 1; [done |]. intros. constructor; auto. Qed.

Lemma reaches_length p s rest : reaches p s rest -> String.length rest <= String.length s.
Proof. induction 1; simpl; lia. Qed.

(** *** String literals *)

Lemma hex_value_plain c d :
  Reference.hex_value c = Some d ->
  Ascii.eqb c DQUOTE = false /\ Ascii.eqb c BACKSLASH = false.
Proof.
  destruct c as [[] [] [] [] [] [] [] []]; vm_compute; intros; try done.
Qed.

Lemma hex_digit_plain c pos d s p :
  Reference.hex_digit c pos = Reference.Ok d s p ->
  Ascii.eqb c DQUOTE = false /\ Ascii.eqb c BACKSLASH = false.
Proof.
  unfold Reference.hex_digit. destruct (Reference.hex_value c) eqn:E.
  - intros _. by eapply hex_value_plain.
  - unfold Reference.unexpected. by destruct (_ || _); [| destruct (Ascii.eqb c DQUOTE)].
Qed.

Lemma string_body_loop n : forall s,
  String.length s <= n ->
  forall pos acc str rest pos',
    Reference.string_body s pos acc = Reference.Ok str rest pos' ->
    forall a str0, exists a' str', string_loop s a str0 = Some (a', rest, str').
Proof.
  induction n as [| n IH]; intros s Hn pos acc str rest pos' H a str0;
    destruct s as [| c s]; simpl in *; try done; try lia.
  destruct (Ascii.eqb c DQUOTE); [injection H as <- <- <-; eauto |].
  destruct (Ascii.eqb c BACKSLASH).
  - destruct s as [| e s]; [done |]. simpl in Hn.
    assert (forall s', String.length s' <= String.length s ->
              forall pos acc, Reference.string_body s' pos acc = Reference.Ok str rest pos' ->
              forall a str0, exists a' str', string_loop s' a str0 = Some (a', rest, str'))
      as IH'.
    { intros s' Hs' pos0 acc0 H0 a0 str1. eapply IH; [| exact H0]. lia. }
    clear IH.
    repeat match type of H with
           | (if ?b then _ else _) = _ =>
               destruct b; [try (eapply IH'; [| exact H]; lia) |]
           end; try done.
    + destruct s as [| h1 [| h2 [| h3 [| h4 s5]]]]; try done;
        repeat match type of H with
               | context [Reference.hex_digit ?h ?p] =>
                   let E := fresh "E" in
                   destruct (Reference.hex_digit h p) eqn:E; try done
               end; try done.
      destruct (_ <? 256); [| done].
      repeat match goal with
             | E : Reference.hex_digit _ _ = Reference.Ok _ _ _ |- _ =>
                 apply hex_digit_plain in E as [? ?]
             end.
      simpl. repeat match goal with E : Ascii.eqb _ _ = false |- _ => rewrite E; clear E end.
      eapply IH'; [| exact H]. simpl. lia.
  - destruct (code c <? 32).
    + unfold Reference.unexpected in H. by destruct (_ || _); [| destruct (Ascii.eqb c DQUOTE)].
    + eapply IH; [| exact H]. lia.
Qed.

(** *** Numbers and literal names *)

Lemma is_digit_in_primitive c : is_digit c = true -> in_primitive c = true.
Proof. destruct c as [[] [] [] [] [] [] [] []]; vm_compute; intros; done. Qed.

Lemma unexpected_Bad {A} c pos : exists e, @Reference.unexpected A c pos = Reference.Bad e.
Proof.
  unfold Reference.unexpected. destruct (_ || _); [eauto |]. destruct (Ascii.eqb c DQUOTE); eauto.
Qed.

Lemma unexpected_here_Bad {A} s pos :
  exists e, @Reference.unexpected_here A s pos = Reference.Bad e.
Proof. destruct s; simpl; [by eexists | apply unexpected_Bad]. Qed.

Lemma digits_reaches s : forall pos acc ds rest pos',
  Reference.digits s pos acc = (ds, rest, pos') -> reaches in_primitive s rest.
Proof.
  induction s as [| c s IH]; intros pos acc ds rest pos'; simpl.
  - intros H. inversion H. subst. apply reaches_here.
  - destruct (is_digit c) eqn:D.
    + intros H. apply IH in H. apply reaches_step; [by apply is_digit_in_primitive | done].
    + intros H. inversion H. subst. apply reaches_here.
Qed.

Lemma int_part_reaches s pos ds rest pos' :
  Reference.int_part s pos = Reference.Ok ds rest pos' -> reaches in_primitive s rest.
Proof.
  unfold Reference.int_part. destruct s as [| c s]; [done |].
  destruct (is_digit c) eqn:D; cbn [negb].
  2:{ destruct (@unexpected_Bad (list nat) c pos) as [e ->]. done. }
  destruct (Ascii.eqb c "0"%char).
  - intros H. inversion H. subst.
    apply reaches_step; [by apply is_digit_in_primitive | apply reaches_here].
  - destruct (Reference.digits (String c s) pos []) as [[ds' s1] pos1] eqn:E.
    intros H. inversion H. subst. eapply digits_reaches, E.
Qed.

Lemma frac_part_reaches s pos ds rest pos' :
  Reference.frac_part s pos = Reference.Ok ds rest pos' -> reaches in_primitive s rest.
Proof.
  unfold Reference.frac_part.
  destruct s as [| d s]; [intros H; inversion H; subst; apply reaches_here |].
  destruct (Ascii.eqb d "."%char) eqn:E;
    [| intros H; inversion H; subst; apply reaches_here].
  apply Ascii.eqb_eq in E. subst d.
  destruct (Reference.digits s (S pos) []) as [[frac s1] pos1] eqn:D.
  apply digits_reaches in D.
  destruct frac.
  - destruct (@unexpected_here_Bad (list nat) s1 pos1) as [e ->]. done.
  - intros H. inversion H. subst. by apply reaches_step.
Qed.

Lemma exp_part_reaches s pos e rest pos' :
  Reference.exp_part s pos = Reference.Ok e rest pos' -> reaches in_primitive s rest.
Proof.
  unfold Reference.exp_part.
  destruct s as [| x s]; [intros H; inversion H; subst; apply reaches_here |].
  destruct (Ascii.eqb x "e"%char || Ascii.eqb x "E"%char) eqn:E;
    [| intros H; inversion H; subst; apply reaches_here].
  assert (in_primitive x = true) as Hx.
  { apply orb_prop in E as [E | E]; apply Ascii.eqb_eq in E; by subst. }
  set (sgn := match s with EmptyString => _ | String g s'' => _ end).
  assert (reaches in_primitive s (snd (fst sgn))) as Hs.
  { subst sgn. destruct s as [| g s'']; [apply reaches_here |].
    destruct (Ascii.eqb g "-"%char) eqn:G1.
    { apply Ascii.eqb_eq in G1. subst. simpl. apply reaches_step; [done | apply reaches_here]. }
    destruct (Ascii.eqb g "+"%char) eqn:G2.
    { apply Ascii.eqb_eq in G2. subst. simpl. apply reaches_step; [done | apply reaches_here]. }
    simpl. apply reaches_here. }
  destruct sgn as [[minus s1] pos1]. simpl in Hs.
  destruct (Reference.digits s1 pos1 []) as [[ex s2] pos2] eqn:D.
  apply digits_reaches in D.
  destruct ex.
  - destruct (@unexpected_here_Bad Z s2 pos2) as [e' ->]. done.
  - intros H. inversion H. subst. apply reaches_step; [done |]. by eapply reaches_trans.
Qed.

Lemma number_reaches s pos n rest pos' :
  Reference.number s pos = Reference.Ok n rest pos' ->
  reaches in_primitive s rest.
Proof.
  unfold Reference.number.
  assert (reaches in_primitive s (snd (fst (Reference.sign s pos)))) as Hs.
  { unfold Reference.sign. destruct s as [| c s]; [apply reaches_here |].
    destruct (Ascii.eqb c "-"%char) eqn:E; [| apply reaches_here].
    apply Ascii.eqb_eq in E. subst. simpl. apply reaches_step; [done | apply reaches_here]. }
  destruct (Reference.sign s pos) as [[negative s0] pos0]. simpl in Hs.
  destruct (Reference.int_part s0 pos0) as [int s1 pos1 |] eqn:I; [| done].
  destruct (Reference.frac_part s1 pos1) as [frac s2 pos2 |] eqn:F; [| done].
  destruct (Reference.exp_part s2 pos2) as [e s3 pos3 |] eqn:X; [| done].
  intros H. inversion H. subst.
  apply int_part_reaches in I. apply frac_part_reaches in F. apply exp_part_reaches in X.
  eauto using reaches_trans.
Qed.

Lemma keyword_reaches name : forall s pos rest pos',
  (forall c, In c (list_ascii_of_string name) -> in_primitive c = true) ->
  Reference.keyword name s pos = Reference.Ok tt rest pos' ->
  reaches in_primitive s rest.
Proof.
  induction name as [| c name IH]; intros s pos rest pos' Hp; simpl.
  - intros H. inversion H. subst. apply reaches_here.
  - destruct s as [| d s]; [done |].
    destruct (Ascii.eqb c d) eqn:E.
    + apply Ascii.eqb_eq in E. subst d. intros H. apply IH in H.
      * apply reaches_step; [apply Hp; by left | done].
      * intros c' Hc'. apply Hp. by right.
    + destruct (@unexpected_Bad unit d pos) as [e ->]. done.
Qed.

(** The loop over a number or a literal name stops where the reference
    parser stops, when a delimiter follows. *)
Lemma primitive_loop_sync s : forall a c,
  in_primitive c = true ->
  primitive_loop s a (Some c)
  = match s with
    | EmptyString => (a + 1, None, EmptyString)
    | String d s' => primitive_loop s' (a + 1) (Some d)
    end.
Proof. intros a c H. destruct s; simpl; by rewrite H. Qed.

Lemma primitive_loop_stop s a c :
  in_primitive c = false -> primitive_loop s a (Some c) = (a, Some c, s).
Proof. intros H. destruct s; simpl; by rewrite H. Qed.

Lemma primitive_loop_reaches s rest :
  reaches in_primitive s rest -> delimited rest ->
  forall st, sync st s -> sync (primitive st) rest.
Proof.
  induction 1 as [s | c s rest Hc _ IH]; intros Hd st Hs.
  - unfold primitive. destruct s as [| c s]; destruct Hs as [Hch Hu]; rewrite Hch, Hu.
    + done.
    + simpl in Hd. by rewrite primitive_loop_stop.
  - specialize (IH Hd (next st) (sync_next _ _ _ Hs)).
    destruct Hs as [Hch Hu]. unfold primitive in *. rewrite Hch, Hu.
    unfold next in IH. rewrite Hu in IH.
    rewrite primitive_loop_sync by exact Hc.
    destruct s as [| d s]; simpl in *; exact IH.
Qed.

Lemma le_space_no_token c :
  le_space c = true ->
  is_digit c = false
  /\ forall d, In d (list_ascii_of_string (String DQUOTE "{}[]:,-tfn")) -> Ascii.eqb c d = false.
Proof.
  intros H. split.
  - destruct c as [[] [] [] [] [] [] [] []]; vm_compute in H |- *; done.
  - intros d Hd. simpl in Hd.
    repeat (destruct Hd as [<- | Hd];
            [destruct c as [[] [] [] [] [] [] [] []]; vm_compute in H |- *; done |]).
    done.
Qed.

Lemma sync_report_duplicate input key st s :
  sync st s -> sync (report_duplicate input key st) s.
Proof. unfold report_duplicate. destruct (line_column _ _). by destruct s. Qed.

Lemma delimited_ws c s : Reference.is_ws c = true -> delimited (String c s).
Proof.
  intros H. apply is_ws_le_space in H. unfold delimited, in_primitive. by rewrite H.
Qed.

Lemma skip_ws_fst_snd s pos :
  Reference.skip_ws s pos = (fst (Reference.skip_ws s pos), snd (Reference.skip_ws s pos)).
Proof. by destruct (Reference.skip_ws s pos). Qed.

Lemma skip_ws_token c s pos :
  le_space c = false -> Reference.skip_ws (String c s) pos = (String c s, pos).
Proof.
  intros H. simpl. destruct (Reference.is_ws c) eqn:W; [| done].
  apply is_ws_le_space in W. congruence.
Qed.

Lemma string__sync st s str rest pos pos' :
  sync st (String DQUOTE s) ->
  Reference.string_body s pos EmptyString = Reference.Ok str rest pos' ->
  exists key st', string_ st = Some (key, st') /\ sync st' rest.
Proof.
  intros Hs H. unfold string_. rewrite (sync_ch_is _ _ _ _ Hs). simpl.
  destruct Hs as [_ Hu]. rewrite Hu.
  destruct (string_body_loop _ s (le_n _) _ _ _ _ _ H (at_ st) EmptyString)
    as (a' & str' & ->).
  eexists _, _. split; [reflexivity |].
  unfold next. simpl. by destruct rest.
Qed.

Section Containers.

Variable input : string.
Variable rvalue : string -> nat -> Reference.parsed JsonValue.
Variable svalue : state -> outcome.

Hypothesis Hsim : forall s pos v rest pos',
  rvalue s pos = Reference.Ok v rest pos' -> delimited rest ->
  forall st, sync st s -> agrees (svalue st) rest.
Hypothesis Hhead : forall s pos v rest pos',
  rvalue s pos = Reference.Ok v rest pos' -> starts_token (fst (Reference.skip_ws s pos)).
Hypothesis Hidem : forall s pos,
  rvalue s pos = rvalue (fst (Reference.skip_ws s pos)) (snd (Reference.skip_ws s pos)).

Lemma elements_delimited n s pos acc v rest pos' :
  Reference.elements rvalue n s pos acc = Reference.Ok v rest pos' -> delimited s.
Proof.
  destruct s as [| c s]; [done |]. intros H.
  destruct (Reference.is_ws c) eqn:W; [by apply delimited_ws |].
  destruct n; simpl in H; rewrite W in H;
    (destruct (Ascii.eqb c "]"%char) eqn:E1;
     [apply Ascii.eqb_eq in E1; by subst |];
     destruct (Ascii.eqb c ","%char) eqn:E2;
     [apply Ascii.eqb_eq in E2; by subst |]);
    destruct (@unexpected_Bad JsonValue c pos) as [e He]; by rewrite He in H.
Qed.

Lemma members_delimited n s pos acc v rest pos' :
  Reference.members rvalue n s pos acc = Reference.Ok v rest pos' -> delimited s.
Proof.
  destruct s as [| c s]; [done |]. intros H.
  destruct (Reference.is_ws c) eqn:W; [by apply delimited_ws |].
  destruct n; simpl in H; rewrite W in H;
    (destruct (Ascii.eqb c "}"%char) eqn:E1;
     [apply Ascii.eqb_eq in E1; by subst |];
     destruct (Ascii.eqb c ","%char) eqn:E2;
     [apply Ascii.eqb_eq in E2; by subst |]);
    destruct (@unexpected_Bad JsonValue c pos) as [e He]; by rewrite He in H.
Qed.

(** A value read by both parsers from a state that is about to read [s]. *)
Lemma value_sync s pos v rest pos' st :
  rvalue s pos = Reference.Ok v rest pos' -> delimited rest ->
  sync st s ->
  agrees (svalue (white st)) rest
  /\ exists c s', fst (Reference.skip_ws s pos) = String c s' /\ ch (white st) = Some c.
Proof.
  intros H Hd Hs.
  pose proof (Hhead _ _ _ _ _ H) as Ht.
  assert (sync (white st) (fst (Reference.skip_ws s pos))) as Hw
    by (apply sync_white_skip_ws; auto).
  split.
  - rewrite Hidem in H. eapply Hsim; eauto.
  - destruct Ht as (c & s' & E & _). rewrite E in Hw. exists c, s'. split; [done | apply Hw].
Qed.

Lemma sim_elements n : forall s pos acc v rest pos',
  Reference.elements rvalue n s pos acc = Reference.Ok v rest pos' ->
  forall sn st, sync st s -> agrees (array_tail svalue sn st) rest.
Proof.
  induction n as [| n IH]; intros s pos acc v rest pos' H sn st Hs;
    simpl in H; rewrite skip_ws_fst_snd in H;
    pose proof (sync_white_skip_ws st s pos Hs) as Hw;
    destruct (fst (Reference.skip_ws s pos)) as [| c s1]; try done;
    (destruct (Ascii.eqb c "]"%char) eqn:E1;
     [ apply Ascii.eqb_eq in E1; subst c; inversion H; subst;
       specialize (Hw (or_intror (ex_intro _ _ (ex_intro _ _ (conj eq_refl eq_refl)))));
       unfold array_tail; cbn zeta; rewrite (sync_ch_is _ _ _ _ Hw); simpl;
       by eapply sync_next
     | ]);
    (destruct (Ascii.eqb c ","%char) eqn:E2;
     [ apply Ascii.eqb_eq in E2; subst c
     | destruct (@unexpected_Bad JsonValue c (snd (Reference.skip_ws s pos))) as [e He];
       by rewrite He in H ]);
    try done.
  specialize (Hw (or_intror (ex_intro _ _ (ex_intro _ _ (conj eq_refl eq_refl))))).
  destruct (rvalue s1 (S (snd (Reference.skip_ws s pos)))) as [v0 s2 pos2 |] eqn:V; [| done].
  pose proof (elements_delimited _ _ _ _ _ _ _ H) as Hd.
  unfold array_tail. cbn zeta. rewrite !(sync_ch_is _ _ _ _ Hw). simpl.
  destruct (value_sync _ _ _ _ _ (next (white st)) V Hd (sync_next _ _ _ Hw))
    as (Hv & c & s' & _ & Hc).
  destruct sn as [| sn]; simpl; rewrite Hc; [done |].
  destruct (svalue (white (next (white st)))) as [st3 | | |]; simpl in Hv; try done.
  exact (IH _ _ _ _ _ _ H sn st3 Hv).
Qed.

(** One member, read by [object_loop] from a state about to read [s]. *)
Lemma sim_member s pos key v0 s3 pos3 rest sn keys st :
  Reference.member rvalue s pos = Reference.Ok (key, v0) s3 pos3 ->
  delimited s3 ->
  sync st s ->
  (forall keys' st3, sync st3 s3 -> agrees (object_tail input svalue sn keys' st3) rest) ->
  agrees (object_loop input svalue (S sn) keys st) rest
  /\ exists c, ch st = Some c.
Proof.
  intros H Hd Hs Hk. unfold Reference.member in H.
  rewrite skip_ws_fst_snd in H.
  pose proof (sync_white_skip_ws st s pos Hs) as Hw.
  destruct (fst (Reference.skip_ws s pos)) as [| c s1] eqn:E0; [done |].
  destruct (Ascii.eqb c DQUOTE) eqn:E1.
  2:{ destruct (@unexpected_Bad (string * JsonValue) c (snd (Reference.skip_ws s pos)))
        as [e He]. by rewrite He in H. }
  apply Ascii.eqb_eq in E1. subst c.
  specialize (Hw (or_intror (ex_intro _ _ (ex_intro _ _ (conj eq_refl eq_refl))))).
  assert (exists c, ch st = Some c) as [c0 Hc0].
  { destruct s as [| c s]; [done |]. exists c. apply Hs. }
  split; [| eauto].
  destruct (Reference.string_body s1 _ EmptyString) as [k s2 pos2 |] eqn:B; [| done].
  rewrite skip_ws_fst_snd in H.
  destruct (string__sync _ _ _ _ _ _ Hw B) as (key' & st1 & Hstr & Hs1).
  pose proof (sync_white_skip_ws st1 s2 pos2 Hs1) as Hw1.
  destruct (fst (Reference.skip_ws s2 pos2)) as [| d s4]; [done |].
  destruct (Ascii.eqb d ":"%char) eqn:E2.
  2:{ destruct (@unexpected_Bad (string * JsonValue) d (snd (Reference.skip_ws s2 pos2)))
        as [e He]. by rewrite He in H. }
  apply Ascii.eqb_eq in E2. subst d.
  specialize (Hw1 (or_intror (ex_intro _ _ (ex_intro _ _ (conj eq_refl eq_refl))))).
  destruct (rvalue s4 _) as [v1 s5 pos5 |] eqn:V; [| done].
  inversion H. subst.
  simpl. rewrite Hc0. rewrite (sync_ch_is _ _ _ _ Hw). simpl. rewrite Hstr.
  rewrite (sync_ch_is _ _ _ _ Hw1). simpl.
  set (st2 := if bool_decide (key' ∈ keys) then _ else _).
  assert (sync st2 s4) as Hs2.
  { subst st2. destruct (bool_decide _);
      [apply sync_report_duplicate |]; by eapply sync_next. }
  clearbody st2.
  pose proof (Hsim _ _ _ _ _ V Hd st2 Hs2) as Hv.
  destruct (svalue st2) as [st3 | | |]; simpl in Hv; try done.
  apply Hk, Hv.
Qed.

Lemma sim_members n : forall s pos acc v rest pos',
  Reference.members rvalue n s pos acc = Reference.Ok v rest pos' ->
  forall sn keys st, sync st s -> agrees (object_tail input svalue sn keys st) rest.
Proof.
  induction n as [| n IH]; intros s pos acc v rest pos' H sn keys st Hs;
    simpl in H; rewrite skip_ws_fst_snd in H;
    pose proof (sync_white_skip_ws st s pos Hs) as Hw;
    destruct (fst (Reference.skip_ws s pos)) as [| c s1]; try done;
    (destruct (Ascii.eqb c "}"%char) eqn:E1;
     [ apply Ascii.eqb_eq in E1; subst c; inversion H; subst;
       specialize (Hw (or_intror (ex_intro _ _ (ex_intro _ _ (conj eq_refl eq_refl)))));
       unfold object_tail; cbn zeta; rewrite (sync_ch_is _ _ _ _ Hw); simpl;
       by eapply sync_next
     | ]);
    (destruct (Ascii.eqb c ","%char) eqn:E2;
     [ apply Ascii.eqb_eq in E2; subst c
     | destruct (@unexpected_Bad JsonValue c (snd (Reference.skip_ws s pos))) as [e He];
       by rewrite He in H ]);
    try done.
  specialize (Hw (or_intror (ex_intro _ _ (ex_intro _ _ (conj eq_refl eq_refl))))).
  destruct (Reference.member rvalue s1 (S (snd (Reference.skip_ws s pos))))
    as [[key v0] s2 pos2 |] eqn:M; [| done].
  pose proof (members_delimited _ _ _ _ _ _ _ H) as Hd.
  unfold object_tail. cbn zeta. rewrite !(sync_ch_is _ _ _ _ Hw). simpl.
  destruct sn as [| sn].
  - destruct (sim_member _ _ _ _ _ _ rest 0 keys (next (white st)) M Hd
                (sync_next _ _ _ Hw)) as [_ [c Hc]].
    { intros keys' st3 Hs3. eapply (IH _ _ _ _ _ _ H). exact Hs3. }
    simpl. by rewrite Hc.
  - apply (sim_member _ _ _ _ _ _ rest sn keys (next (white st)) M Hd (sync_next _ _ _ Hw)).
    intros keys' st3 Hs3. eapply (IH _ _ _ _ _ _ H). exact Hs3.
Qed.

End Containers.

Lemma value_idem f s pos :
  Reference.value f s pos
  = Reference.value f (fst (Reference.skip_ws s pos)) (snd (Reference.skip_ws s pos)).
Proof.
  destruct f as [| f]; [done |]. cbn [Reference.value]. by rewrite skip_ws_idem.
Qed.

Lemma value_head f s pos v rest pos' :
  Reference.value f s pos = Reference.Ok v rest pos' ->
  starts_token (fst (Reference.skip_ws s pos)).
Proof.
  destruct f as [| f]; [done |]. simpl. rewrite (skip_ws_fst_snd s pos).
  destruct (fst (Reference.skip_ws s pos)) as [| c s1]; [done |].
  intros H. exists c, s1. split; [done |].
  destruct (le_space c) eqn:L; [exfalso | done].
  destruct (le_space_no_token c L) as [Hd Hc].
  rewrite !Hc, Hd in H by (simpl; tauto). simpl in H.
  destruct (@unexpected_Bad JsonValue c (snd (Reference.skip_ws s pos))) as [e He].
  by rewrite He in H.
Qed.

Lemma is_digit_token c : is_digit c = true -> le_space c = false.
Proof. destruct c as [[] [] [] [] [] [] [] []]; vm_compute; intros; done. Qed.

Lemma reaches_minus s rest :
  reaches in_primitive (String "-"%char s) rest -> delimited rest ->
  reaches in_primitive s rest.
Proof. intros H Hd. inversion H; subst; [done | done]. Qed.

Lemma skip_ws_head s : forall pos d s2,
  fst (Reference.skip_ws s pos) = String d s2 -> Reference.is_ws d = false.
Proof.
  induction s as [| c s IH]; intros pos d s2; simpl; [done |].
  destruct (Reference.is_ws c) eqn:W; [apply IH |]. simpl. by intros [= <- _].
Qed.

Lemma skip_ws_not_ws d s pos :
  Reference.is_ws d = false -> Reference.skip_ws (String d s) pos = (String d s, pos).
Proof. intros W. simpl. by rewrite W. Qed.

(** The two parsers read the same value: when [Reference.value] accepts a value
    and a delimiter follows, [Scanner.value] returns, about to read what
    follows the value. *)
Lemma sim_value input f : forall s pos v rest pos',
  Reference.value f s pos = Reference.Ok v rest pos' -> delimited rest ->
  forall sf st, sync st s -> agrees (value input sf st) rest.
Proof.
  induction f as [| f IH]; intros s pos v rest pos' H Hd sf st Hs; [done |].
  pose proof (value_head _ _ _ _ _ _ H) as Ht.
  pose proof (sync_white_skip_ws st s pos Hs (or_intror Ht)) as Hw.
  cbn [Reference.value] in H. rewrite (skip_ws_fst_snd s pos) in H.
  destruct Ht as (c & s1 & E & Lc). rewrite E in H, Hw.
  destruct sf as [| sf]; [done |]. cbn [value].
  set (sv := value input sf).
  assert (forall s pos v rest pos',
            Reference.value f s pos = Reference.Ok v rest pos' -> delimited rest ->
            forall st, sync st s -> agrees (sv st) rest) as Hsim
    by (intros; eapply IH; eauto).
  rewrite !(sync_ch_is _ _ _ _ Hw).
  destruct (Ascii.eqb c "{"%char) eqn:E1.
  { apply Ascii.eqb_eq in E1. subst c. unfold object_.
    rewrite (sync_ch_is _ _ _ _ Hw). simpl Ascii.eqb. cbn iota.
    rewrite (skip_ws_fst_snd s1) in H.
    pose proof (sync_white_skip_ws (next (white st)) s1 (S (snd (Reference.skip_ws s pos)))
                  (sync_next _ _ _ Hw)) as Hw2.
    destruct (fst (Reference.skip_ws s1 _)) as [| d s2] eqn:E2; [done |].
    destruct (Ascii.eqb d "}"%char) eqn:E3.
    { apply Ascii.eqb_eq in E3. subst d. inversion H. subst.
      specialize (Hw2 (or_intror (ex_intro _ _ (ex_intro _ _ (conj eq_refl eq_refl))))).
      rewrite (sync_ch_is _ _ _ _ Hw2). simpl. by eapply sync_next. }
    destruct (Reference.member (Reference.value f) (String d s2) _)
      as [[key v0] s3 pos3 |] eqn:M; [| done].
    pose proof (skip_ws_head _ _ _ _ E2) as W.
    assert (d = DQUOTE) as ->.
    { unfold Reference.member in M. rewrite (skip_ws_not_ws _ _ _ W) in M.
      destruct (Ascii.eqb d DQUOTE) eqn:Q; [by apply Ascii.eqb_eq in Q |].
      destruct (@unexpected_Bad (string * JsonValue) d
                  (snd (Reference.skip_ws s1 (S (snd (Reference.skip_ws s pos))))))
        as [e He]. by rewrite He in M. }
    specialize (Hw2 (or_intror (ex_intro _ _ (ex_intro _ _ (conj eq_refl eq_refl))))).
    rewrite (sync_ch_is _ _ _ _ Hw2). simpl Ascii.eqb. cbn iota.
    pose proof (members_delimited _ _ _ _ _ _ _ _ H) as Hd3.
    destruct sf as [| sf'].
    - simpl. by rewrite (proj1 Hw2).
    - apply (sim_member input (Reference.value f) sv Hsim _ _ _ _ _ _ rest sf' ∅ _ M Hd3 Hw2).
      intros keys' st3 Hs3.
      eapply (sim_members input (Reference.value f) sv Hsim); eauto. }
  destruct (Ascii.eqb c "["%char) eqn:E2.
  { apply Ascii.eqb_eq in E2. subst c. unfold array_.
    rewrite (sync_ch_is _ _ _ _ Hw). simpl Ascii.eqb. cbn iota.
    rewrite (skip_ws_fst_snd s1) in H.
    pose proof (sync_white_skip_ws (next (white st)) s1 (S (snd (Reference.skip_ws s pos)))
                  (sync_next _ _ _ Hw)) as Hw2.
    destruct (fst (Reference.skip_ws s1 _)) as [| d s2] eqn:E3; [done |].
    destruct (Ascii.eqb d "]"%char) eqn:E4.
    { apply Ascii.eqb_eq in E4. subst d. inversion H. subst.
      specialize (Hw2 (or_intror (ex_intro _ _ (ex_intro _ _ (conj eq_refl eq_refl))))).
      rewrite (sync_ch_is _ _ _ _ Hw2). simpl. by eapply sync_next. }
    destruct (Reference.value f (String d s2) _) as [v0 s3 pos3 |] eqn:V; [| done].
    pose proof (skip_ws_head _ _ _ _ E3) as W.
    pose proof (value_head _ _ _ _ _ _ V) as (d' & s2' & Ed & Ld0).
    rewrite (skip_ws_not_ws _ _ _ W) in Ed. simpl in Ed. injection Ed as <- <-.
    specialize (Hw2 (or_intror (ex_intro _ _ (ex_intro _ _ (conj eq_refl Ld0))))).
    rewrite (sync_ch_is _ _ _ _ Hw2). rewrite E4. cbn iota.
    pose proof (elements_delimited _ _ _ _ _ _ _ _ H) as Hd3.
    destruct sf as [| sf']; simpl; rewrite (proj1 Hw2); [done |].
    pose proof (Hsim _ _ _ _ _ V Hd3 _ Hw2) as Hv.
    destruct (sv _) as [st3 | | |]; simpl in Hv; try done.
    eapply (sim_elements (Reference.value f) sv Hsim (value_head f) (value_idem f)); eauto. }
  destruct (Ascii.eqb c DQUOTE) eqn:E3.
  { apply Ascii.eqb_eq in E3. subst c.
    destruct (Reference.string_body s1 _ EmptyString) as [str s2 pos2 |] eqn:B; [| done].
    inversion H. subst.
    destruct (string__sync _ _ _ _ _ _ Hw B) as (key & st1 & -> & Hs1). exact Hs1. }
  destruct (Ascii.eqb c "-"%char || is_digit c) eqn:E4.
  { destruct (Reference.number (String c s1) _) as [n s2 pos2 |] eqn:N; [| done].
    inversion H. subst. apply number_reaches in N.
    destruct (Ascii.eqb c "-"%char) eqn:E5.
    - apply Ascii.eqb_eq in E5. subst c. simpl.
      eapply primitive_loop_reaches; [by apply reaches_minus | done | by eapply sync_next].
    - simpl. eapply primitive_loop_reaches; eauto. }
  apply orb_false_elim in E4 as [E4 E5]. rewrite E4.
  assert (forall name,
            (forall x, In x (list_ascii_of_string name) -> in_primitive x = true) ->
            in_primitive c = true ->
            forall u p, Reference.keyword name s1 (S (snd (Reference.skip_ws s pos)))
                        = Reference.Ok u rest p ->
            sync (primitive (white st)) rest) as Hkw.
  { intros name Hn Hc [] p K. apply keyword_reaches in K; [| exact Hn].
    eapply primitive_loop_reaches; [| exact Hd | exact Hw].
    by apply reaches_step. }
  destruct (Ascii.eqb c "t"%char) eqn:E6.
  { apply Ascii.eqb_eq in E6. subst c.
    destruct (Reference.keyword "rue" s1 _) as [u s2 pos2 |] eqn:K; [| done].
    inversion H. subst. simpl. eapply (Hkw "rue"); [| done | exact K].
    simpl. intros x [<- | [<- | [<- | []]]]; done. }
  destruct (Ascii.eqb c "f"%char) eqn:E7.
  { apply Ascii.eqb_eq in E7. subst c.
    destruct (Reference.keyword "alse" s1 _) as [u s2 pos2 |] eqn:K; [| done].
    inversion H. subst. simpl. eapply (Hkw "alse"); [| done | exact K].
    simpl. intros x [<- | [<- | [<- | [<- | []]]]]; done. }
  destruct (Ascii.eqb c "n"%char) eqn:E8.
  { apply Ascii.eqb_eq in E8. subst c.
    destruct (Reference.keyword "ull" s1 _) as [u s2 pos2 |] eqn:K; [| done].
    inversion H. subst. simpl. eapply (Hkw "ull"); [| done | exact K].
    simpl. intros x [<- | [<- | [<- | []]]]; done. }
  destruct (@unexpected_Bad JsonValue c (snd (Reference.skip_ws s pos))) as [e He].
  by rewrite He in H.
Qed.

Lemma white_initial input r :
  white (mkState 0 (Some SPACE) input r)
  = white (next (mkState 0 (Some SPACE) input r)).
Proof.
  unfold white, next. simpl. destruct input as [| c s]; simpl; [done |].
  by destruct s.
Qed.

(** On a text that the reference parser accepts, the scope parser returns. *)
Lemma scan_accepted text v r :
  Reference.JSON_parse text = Returns v -> exists st, scan text r = Done st.
Proof.
  unfold Reference.JSON_parse.
  destruct (Reference.value _ text 0) as [v0 rest pos |] eqn:V; [| done].
  rewrite (skip_ws_fst_snd rest pos).
  destruct (fst (Reference.skip_ws rest pos)) as [| c s'] eqn:E.
  2:{ destruct (@unexpected_Bad unit c (snd (Reference.skip_ws rest pos))) as [e ->]. done. }
  intros _.
  assert (delimited rest) as Hd.
  { destruct rest as [| c rest]; [done |].
    destruct (Reference.is_ws c) eqn:W; [by apply delimited_ws |].
    rewrite (skip_ws_not_ws _ _ _ W) in E. done. }
  pose proof (ScannerFacts.scan_fuelled text r) as Hfuel.
  unfold scan in *. rewrite white_initial in *.
  set (st0 := next (mkState 0 (Some SPACE) text r)) in *.
  assert (sync st0 text) as Hs0 by (subst st0; unfold next; simpl; by destruct text).
  pose proof (value_head _ _ _ _ _ _ V) as Ht.
  pose proof (sync_white_skip_ws st0 text 0 Hs0 (or_intror Ht)) as Hw.
  rewrite value_idem in V.
  pose proof (sim_value text _ _ _ _ _ _ V Hd (parser_fuel text) _ Hw) as Hv.
  destruct (value text (parser_fuel text) (white st0)) as [st1 | | |]; simpl in Hv; try done.
  pose proof (sync_white_skip_ws st1 rest pos Hv (or_introl E)) as Hw1.
  rewrite E in Hw1. destruct Hw1 as [Hc _]. rewrite Hc. eauto.
Qed.

End Agreement.

(** ** The reference host *)

Lemma reference_ajv_reports_failures : ajv_reports_failures Reference.ajv_compile.
Proof.
  intros schema validate data. unfold Reference.ajv_compile.
  destruct schema as [| | | | | members]; try done.
  destruct members as [| [key value] members]; [by intros [= <-] |].
  destruct value as [| | | name | |]; try done.
  destruct members; [| done].
  destruct (String.eqb key "type" && _); [| done].
  intros [= <-]. destruct (Reference.has_type name data); [done |]. eauto.
Qed.

(** On the reference host [checkDuplicateKeys] returns a report for every
    text. *)
Lemma reference_checkDuplicateKeys_finishes text :
  exists r, Reference.checkDuplicateKeys text = Finishes r.
Proof.
  unfold Reference.checkDuplicateKeys.
  destruct (Reference.JSON_parse text) as [v | e] eqn:P.
  - unfold checkDuplicateKeys.
    destruct (compare_serialisations _ _ _ _) as [r | e] eqn:C.
    + destruct (Agreement.scan_accepted text v
                  (add_line_duplicates (line_duplicates text) r) P) as [st ->]. eauto.
    + exfalso. unfold compare_serialisations in C. rewrite P in C.
      unfold Reference.JSON_stringify in C. by destruct (_ =? _).
  - rewrite (checkDuplicateKeys_unparsable _ _ _ _ P). eauto.
Qed.

(** On the reference host [validateJson] without a schema returns a report
    for every text. *)
Lemma reference_validateJson_finishes text :
  exists r, Reference.validateJson text None = Finishes r.
Proof.
  unfold Reference.validateJson, validateJson, validateJson_stages.
  destruct (reference_checkDuplicateKeys_finishes text) as [d Hd].
  unfold Reference.checkDuplicateKeys in Hd. rewrite Hd.
  destruct (valid d); simpl; [| eauto].
  destruct (valid (validateJsonSyntax Reference.JSON_parse text)) eqn:V; simpl; [| eauto].
  apply validateJsonSyntax_valid in V as [v ->]. simpl. eauto.
Qed.

Lemma kinds_in_count allowed k r :
  allowed k = false -> kinds_in allowed r -> count_kind k r = 0.
Proof.
  intros Hk H. unfold count_kind, kinds_in in *.
  induction H as [| e es He _ IH]; [done |]. simpl.
  destruct (ErrorKind_eqb (type e) k) eqn:E; [| exact IH].
  exfalso. destruct (type e), k; simpl in *; congruence.
Qed.

(** ** Blank texts and the reference parser *)

Lemma blank_skip_ws s : forall pos, blank s = true -> blank (fst (Reference.skip_ws s pos)) = true.
Proof.
  induction s as [| c s IH]; intros pos H; [done |]. simpl in *.
  apply andb_prop in H as [Hc H].
  destruct (Reference.is_ws c); [by apply IH |]. simpl. by rewrite Hc, H.
Qed.

(** A white-space character that is not JSON white space starts no value. *)
Lemma space_starts_no_value c :
  is_space c = true -> Reference.is_ws c = false ->
  Ascii.eqb c "{"%char = false /\ Ascii.eqb c "["%char = false
  /\ Ascii.eqb c DQUOTE = false /\ Ascii.eqb c "-"%char = false
  /\ is_digit c = false /\ Ascii.eqb c "t"%char = false
  /\ Ascii.eqb c "f"%char = false /\ Ascii.eqb c "n"%char = false.
Proof.
  destruct c as [[] [] [] [] [] [] [] []]; intros Hs Hw;
    try discriminate Hs; try discriminate Hw; repeat split; reflexivity.
Qed.

Lemma value_blank fuel s pos :
  blank s = true ->
  exists msg, Reference.value (S fuel) s pos = Reference.Bad (SyntaxErrorExn msg).
Proof.
  intros Hb. cbn [Reference.value].
  pose proof (blank_skip_ws s pos Hb) as Hrest.
  rewrite (Agreement.skip_ws_fst_snd s pos).
  destruct (fst (Reference.skip_ws s pos)) as [| c rest] eqn:E; [by eexists |].
  pose proof (Agreement.skip_ws_head s pos c rest E) as Hw.
  simpl in Hrest. apply andb_prop in Hrest as [Hc _].
  destruct (space_starts_no_value c Hc Hw) as (-> & -> & -> & -> & -> & -> & -> & ->).
  simpl. unfold Reference.unexpected. by eexists.
Qed.

(** The reference parser rejects every blank text with a [SyntaxError]. *)
Lemma reference_rejects_blank text :
  blank text = true -> exists msg, Reference.JSON_parse text = Throws (SyntaxErrorExn msg).
Proof.
  intros Hb. unfold Reference.JSON_parse.
  replace (String.length text + 1) with (S (String.length text)) by lia.
  destruct (value_blank (String.length text) text 0 Hb) as [msg ->]. eauto.
Qed.

(** ** The claims *)

(** C1. Every report that [validateJsonSyntax], [checkDuplicateKeys],
    [checkJsonAnomalies], [validateJsonSchema] or [validateJson] returns is
    either valid with no finding or invalid with at least one finding, on
    every host whose schema library reports every failure with an error.
    [checkDuplicateKeys] neither throws nor runs out of fuel. *)
Theorem C1_reports_consistent
    (JSON_parse : string -> completion JsonValue)
    (JSON_stringify : JsonValue -> completion string)
    (ajv_compile : JsonValue -> completion ValidateFunction) :
  ajv_reports_failures ajv_compile ->
  (forall text, consistent (validateJsonSyntax JSON_parse text))
  /\ (forall text r,
        checkDuplicateKeys JSON_parse JSON_stringify text = Finishes r -> consistent r)
  /\ (forall text,
        checkDuplicateKeys JSON_parse JSON_stringify text <> OutOfFuel
        /\ forall e, checkDuplicateKeys JSON_parse JSON_stringify text <> Raises e)
  /\ (forall value, consistent (checkJsonAnomalies JSON_stringify value))
  /\ (forall data schema r,
        validateJsonSchema ajv_compile data schema = Returns r -> consistent r)
  /\ (forall text schema r,
        validateJson JSON_parse JSON_stringify ajv_compile text schema = Finishes r ->
        consistent r).
Proof.
  intros Hajv. repeat split.
  - apply validateJsonSyntax_consistent.
  - apply checkDuplicateKeys_consistent.
  - intros H. pose proof (checkDuplicateKeys_cases JSON_parse JSON_stringify text) as Hc.
    by rewrite H in Hc.
  - intros e H. pose proof (checkDuplicateKeys_cases JSON_parse JSON_stringify text) as Hc.
    by rewrite H in Hc.
  - apply checkJsonAnomalies_consistent.
  - intros data schema r. by apply validateJsonSchema_consistent.
  - intros text schema r. by apply validateJson_consistent.
Qed.

Lemma C1_reports_consistent_witness :
  ajv_reports_failures Reference.ajv_compile
  /\ consistent
       (mkResult false [mkError SchemaError "must be object" (Some EmptyString) None None]).
Proof.
  split; [exact reference_ajv_reports_failures |].
  pose proof (C1_reports_consistent Reference.JSON_parse Reference.JSON_stringify
                Reference.ajv_compile reference_ajv_reports_failures) as H.
  apply (proj2 (proj2 (proj2 (proj2 (proj2 H)))) (Reference.json "[1]")
           (Some (JObject [("type", JString "object")]))).
  vm_compute. reflexivity.
Defined.

(** C2, as amended. For every input that is empty or made of white space only,
    the input handler [validateJsonInput] produces the report with the single
    finding [EmptyInput] and calls no stage; [validateJson] itself has no such
    guard and never produces an [EmptyInput] finding: when the parser rejects
    the text, it runs the duplicate-key scan alone and returns the report of
    the syntax check, which holds one finding; and the parser of JSON rejects
    every such text, so that on the reference host this report holds one
    [SyntaxError] finding with a line and a column. *)
Theorem C2_empty_input_handler
    (JSON_parse : string -> completion JsonValue)
    (JSON_stringify : JsonValue -> completion string)
    (ajv_compile : JsonValue -> completion ValidateFunction)
    (text : string) :
  blank text = true ->
  validateJsonInput_stages JSON_parse JSON_stringify ajv_compile text
  = ([], Finishes empty_input_result)
  /\ kinds empty_input_result = [EmptyInput]
  /\ (forall text' schema r,
        validateJson JSON_parse JSON_stringify ajv_compile text' schema = Finishes r ->
        count_kind EmptyInput r = 0)
  /\ (forall e schema,
        JSON_parse text = Throws e ->
        validateJson_stages JSON_parse JSON_stringify ajv_compile text schema
        = ([DuplicateKeyScan], Finishes (validateJsonSyntax JSON_parse text))
        /\ exists finding,
             validateJsonSyntax JSON_parse text = mkResult false [finding]
             /\ type finding = if is_SyntaxError e then SyntaxError else UnknownError)
  /\ (forall schema,
        exists msg l c,
          validateJson_stages Reference.JSON_parse Reference.JSON_stringify
            Reference.ajv_compile text schema
          = ([DuplicateKeyScan],
             Finishes (mkResult false [mkError SyntaxError msg None (Some l) (Some c)]))).
Proof.
  intros Hb.
  assert (forall (parse : string -> completion JsonValue) stringify compile e schema,
             parse text = Throws e ->
             validateJson_stages parse stringify compile text schema
             = ([DuplicateKeyScan], Finishes (validateJsonSyntax parse text))
             /\ exists finding,
                  validateJsonSyntax parse text = mkResult false [finding]
                  /\ type finding = if is_SyntaxError e then SyntaxError else UnknownError)
    as Hrejected.
  { intros parse stringify compile e schema E.
    assert (exists finding,
               validateJsonSyntax parse text = mkResult false [finding]
               /\ type finding = if is_SyntaxError e then SyntaxError else UnknownError)
      as (f & Hf & Hk).
    { unfold validateJsonSyntax. rewrite E.
      destruct e; try (eexists; split; reflexivity).
      destruct (match option_map parseInt (match_at_position msg) with
                | Some p => line_column text p | None => (1, 1) end) as [l c].
      eexists; split; reflexivity. }
    split; [| eauto]. unfold validateJson_stages.
    rewrite (checkDuplicateKeys_unparsable parse stringify text e E), Hf. reflexivity. }
  split; [| split; [reflexivity | split; [| split]]].
  - unfold validateJsonInput_stages. by rewrite trim_blank.
  - intros text' schema r H. apply validateJson_kinds in H.
    by apply (kinds_in_count engine_kinds).
  - intros e schema. apply Hrejected.
  - intros schema. destruct (reference_rejects_blank text Hb) as [msg E].
    destruct (Hrejected Reference.JSON_parse Reference.JSON_stringify Reference.ajv_compile
                _ schema E) as [-> _].
    unfold validateJsonSyntax. rewrite E.
    destruct (match option_map parseInt (match_at_position msg) with
              | Some p => line_column text p | None => (1, 1) end) as [l c].
    by exists msg, l, c.
Qed.

Lemma C2_empty_input_handler_witness :
  blank "  " = true
  /\ Reference.validateJsonInput "  " = Finishes empty_input_result.
Proof.
  split; [reflexivity |].
  unfold Reference.validateJsonInput, validateJsonInput.
  by rewrite (proj1 (C2_empty_input_handler Reference.JSON_parse Reference.JSON_stringify
                       Reference.ajv_compile "  " eq_refl)).
Defined.

(** C2, as stated, fails: on the empty text [validateJson] runs the
    duplicate-key scan and returns a [SyntaxError] finding. *)
Lemma C2_counterexample :
  blank EmptyString = true
  /\ validateJson_stages Reference.JSON_parse Reference.JSON_stringify
       Reference.ajv_compile EmptyString None
     = ([DuplicateKeyScan],
        Finishes
          (mkResult false
             [mkError SyntaxError "Unexpected end of JSON input" None (Some 1) (Some 1)])).
Proof. split; vm_compute; reflexivity. Qed.

(** C3, as amended. On a key repeated within one object, [validateJson]
    appends the findings of the line scan and of the scope parser: the
    document with two occurrences of [a] on one line yields exactly two
    [DuplicateKey] findings for [a] (columns 8 and 9), the document with three
    yields exactly four; with every occurrence on a line of its own the two
    documents yield exactly one and exactly two. *)
Theorem C3_duplicate_findings :
  Reference.validateJson (Reference.json "{'a':1,'a':2}") None
  = Finishes
      (mkResult false [duplicate_key_error "a" 1 8; duplicate_key_error "a" 1 9])
  /\ Reference.validateJson (Reference.json "{'a':1,'a':2,'a':3}") None
     = Finishes
         (mkResult false
            [duplicate_key_error "a" 1 8; duplicate_key_error "a" 1 14;
             duplicate_key_error "a" 1 9; duplicate_key_error "a" 1 15])
  /\ Reference.validateJson
       (Reference.json ("{'a':1," ++ String LF "'a':2}")) None
     = Finishes (mkResult false [duplicate_key_error "a" 2 2])
  /\ Reference.validateJson
       (Reference.json ("{'a':1," ++ String LF ("'a':2," ++ String LF "'a':3}"))) None
     = Finishes
         (mkResult false [duplicate_key_error "a" 2 2; duplicate_key_error "a" 3 2]).
Proof. repeat split; vm_compute; reflexivity. Qed.

(** C3, as stated, fails: two findings for the key repeated once. *)
Lemma C3_counterexample :
  exists r,
    Reference.validateJson (Reference.json "{'a':1,'a':2}") None = Finishes r
    /\ count_kind DuplicateKey r = 2.
Proof. eexists. split; vm_compute; reflexivity. Qed.

(** C4, as amended. Syntax-error detection takes precedence: for every text
    that [JSON.parse] rejects, with or without duplicate keys,
    [checkDuplicateKeys] and [validateJson] return the report of
    [validateJsonSyntax], which holds exactly one finding, of kind
    [SyntaxError] when the exception is a [SyntaxError], and no
    [DuplicateKey] finding. *)
Theorem C4_syntax_error_first
    (JSON_parse : string -> completion JsonValue)
    (JSON_stringify : JsonValue -> completion string)
    (ajv_compile : JsonValue -> completion ValidateFunction)
    (text : string) (schema : option JsonValue) (e : Exn) :
  JSON_parse text = Throws e ->
  checkDuplicateKeys JSON_parse JSON_stringify text
  = Finishes (validateJsonSyntax JSON_parse text)
  /\ validateJson_stages JSON_parse JSON_stringify ajv_compile text schema
     = ([DuplicateKeyScan], Finishes (validateJsonSyntax JSON_parse text))
  /\ (exists finding,
        validateJsonSyntax JSON_parse text = mkResult false [finding]
        /\ type finding = if is_SyntaxError e then SyntaxError else UnknownError)
  /\ count_kind DuplicateKey (validateJsonSyntax JSON_parse text) = 0.
Proof.
  intros E.
  pose proof (checkDuplicateKeys_unparsable JSON_parse JSON_stringify text e E) as Hd.
  assert (exists finding,
             validateJsonSyntax JSON_parse text = mkResult false [finding]
             /\ type finding = if is_SyntaxError e then SyntaxError else UnknownError)
    as (f & Hf & Hk).
  { unfold validateJsonSyntax. rewrite E.
    destruct e; try (eexists; split; reflexivity).
    destruct (match option_map parseInt (match_at_position msg) with
              | Some p => line_column text p | None => (1, 1) end) as [l c].
    eexists; split; reflexivity. }
  split; [exact Hd |]. split.
  - unfold validateJson_stages. rewrite Hd, Hf. reflexivity.
  - split; [eauto |]. rewrite Hf. unfold count_kind. simpl. rewrite Hk.
    by destruct (is_SyntaxError e).
Qed.

Lemma C4_syntax_error_first_witness :
  Reference.JSON_parse (Reference.json "{'a':1,'a':2,]")
  = Throws (SyntaxErrorExn "Unexpected token ] in JSON at position 13")
  /\ Reference.checkDuplicateKeys (Reference.json "{'a':1,'a':2,]")
     = Finishes (Reference.validateJsonSyntax (Reference.json "{'a':1,'a':2,]")).
Proof.
  split; [vm_compute; reflexivity |].
  apply (C4_syntax_error_first Reference.JSON_parse Reference.JSON_stringify
           Reference.ajv_compile _ None
           (SyntaxErrorExn "Unexpected token ] in JSON at position 13")).
  vm_compute. reflexivity.
Defined.

(** C4, as stated, fails: a text with a duplicate key and a later syntax
    error yields the [SyntaxError] finding alone. *)
Lemma C4_counterexample :
  Reference.validateJson (Reference.json "{'a':1,'a':2,]") None
  = Finishes
      (mkResult false
         [mkError SyntaxError "Unexpected token ] in JSON at position 13"
            None (Some 1) (Some 14)]).
Proof. vm_compute. reflexivity. Qed.

(** The document of C5 is reported invalid on every host: by the line scan
    when [JSON.parse] accepts it, by the syntax check otherwise. *)
Lemma sibling_keys_invalid_on_every_host
    (JSON_parse : string -> completion JsonValue)
    (JSON_stringify : JsonValue -> completion string) (r : ValidationResult) :
  checkDuplicateKeys JSON_parse JSON_stringify
    (Reference.json "{'x':{'a':1},'y':{'a':2}}") = Finishes r ->
  valid r = false.
Proof.
  intros H. destruct (JSON_parse (Reference.json "{'x':{'a':1},'y':{'a':2}}")) eqn:P.
  - destruct (checkDuplicateKeys_parsable _ _ _ _ _ P H) as (es & -> & _).
    reflexivity.
  - rewrite (checkDuplicateKeys_unparsable _ _ _ _ P) in H.
    destruct (validateJsonSyntax_throws _ _ _ P) as (f & Hf & _).
    rewrite Hf in H. by injection H as <-.
Qed.

(** C5 fails on the code. The key [a] occurs once in each of two sibling
    objects written on one line: the line scan reports a duplicate and the
    report is invalid.  With the second object on a line of its own the same
    document is found valid. *)
Theorem C5_same_line_false_positive :
  Reference.checkDuplicateKeys (Reference.json "{'x':{'a':1},'y':{'a':2}}")
  = Finishes (mkResult false [duplicate_key_error "a" 1 19])
  /\ Reference.validateJson (Reference.json "{'x':{'a':1},'y':{'a':2}}") None
     = Finishes (mkResult false [duplicate_key_error "a" 1 19])
  /\ Reference.checkDuplicateKeys
       (Reference.json ("{'x':{'a':1}," ++ String LF "'y':{'a':2}}"))
     = Finishes fresh_result.
Proof. repeat split; vm_compute; reflexivity. Qed.

(** C6, as amended. For every tree with a node deeper than 100,
    [checkJsonAnomalies] emits one [ExcessiveNesting] finding for every node at
    depth 101, hence at least one, and [checkDepth] does not look below depth
    101. *)
Theorem C6_excessive_nesting_per_node
    (JSON_stringify : JsonValue -> completion string) (value : JsonValue) (d : nat) :
  MAX_DEPTH < d -> 0 < nodes_at_depth d value ->
  count_kind ExcessiveNesting (checkJsonAnomalies JSON_stringify value)
  = nodes_at_depth (S MAX_DEPTH) value
  /\ 1 <= count_kind ExcessiveNesting (checkJsonAnomalies JSON_stringify value)
  /\ forall r, checkDepth (prune (S MAX_DEPTH) value) 0 r = checkDepth value 0 r.
Proof.
  intros Hd Hn. rewrite count_ExcessiveNesting. split; [done |]. split.
  - apply (nodes_at_depth_above (S MAX_DEPTH) d); [lia | exact Hn].
  - intros r. apply (checkDepth_prune value 0 r). lia.
Qed.

Lemma C6_excessive_nesting_per_node_witness :
  MAX_DEPTH < 101
  /\ 0 < nodes_at_depth 101 (nest 100 (JArray [JNull; JNull]))
  /\ count_kind ExcessiveNesting
       (Reference.checkJsonAnomalies (nest 100 (JArray [JNull; JNull])))
     = nodes_at_depth (S MAX_DEPTH) (nest 100 (JArray [JNull; JNull])).
Proof.
  assert (MAX_DEPTH < 101) as H1 by (unfold MAX_DEPTH; lia).
  assert (0 < nodes_at_depth 101 (nest 100 (JArray [JNull; JNull]))) as H2
    by (vm_compute; lia).
  split; [exact H1 |]. split; [exact H2 |].
  exact (proj1 (C6_excessive_nesting_per_node Reference.JSON_stringify _ 101 H1 H2)).
Defined.

(** C6, as stated, fails: two nodes at depth 101 yield two findings. *)
Lemma C6_counterexample :
  nodes_at_depth 101 (nest 100 (JArray [JNull; JNull])) = 2
  /\ count_kind ExcessiveNesting
       (Reference.checkJsonAnomalies (nest 100 (JArray [JNull; JNull]))) = 2.
Proof. split; vm_compute; reflexivity. Qed.

Lemma checkSize_oversized items path r :
  MAX_COLLECTION_SIZE < List.length items ->
  checkSize (JArray items) path r
  = report (large_array_error path (List.length items)) r.
Proof. intros H. apply Nat.ltb_lt in H. simpl. by rewrite H. Qed.

(** C7 fails on the code. An array of 100,001 items whose first item is an
    array of 100,001 items: [checkJsonAnomalies] reports the outer array and
    does not descend into it, so the inner array is not reported. *)
Theorem C7_oversized_array_not_descended
    (JSON_stringify : JsonValue -> completion string) :
  let inner := JArray (repeat JNull (S MAX_COLLECTION_SIZE)) in
  let outer := JArray (inner :: repeat JNull MAX_COLLECTION_SIZE) in
  List.filter (fun e => ErrorKind_eqb (type e) LargeArray)
    (errors (checkJsonAnomalies JSON_stringify outer))
  = [large_array_error EmptyString (S MAX_COLLECTION_SIZE)].
Proof.
  intros inner outer. rewrite checkJsonAnomalies_unfold.
  set (r := snd (checkDepth outer 0 _)).
  assert (count_kind LargeArray r = 0) as Hr.
  { subst r.
    rewrite (reports_only_count _ LargeArray _ _ eq_refl (checkDepth_reports _ _ _)).
    rewrite (reports_only_count _ LargeArray _ _ eq_refl
               (checkForInvalidNumbers_reports _ _ _)).
    by rewrite (reports_only_count _ LargeArray _ _ eq_refl
                  (after_stringify_reports JSON_stringify _)). }
  clearbody r. unfold count_kind in Hr. apply length_zero_iff_nil in Hr.
  assert (List.length (inner :: repeat JNull MAX_COLLECTION_SIZE)
          = S MAX_COLLECTION_SIZE) as Hlen.
  { change (S (List.length (repeat JNull MAX_COLLECTION_SIZE)) = S MAX_COLLECTION_SIZE).
    by rewrite repeat_length. }
  unfold outer. rewrite checkSize_oversized by (rewrite Hlen; lia).
  rewrite Hlen. unfold report. cbn [errors]. rewrite List.filter_app, Hr. reflexivity.
Qed.

(** C8 fails on the code. On the object that contains itself,
    [checkJsonAnomalies] does not return a report: whatever the serialiser
    answers and however deep the stack, [checkForInvalidNumbers] recurses
    until the stack overflows, and the [RangeError] leaves the function. *)
Theorem C8_cycle_overflows_stack
    (JSON_stringify : Graph.Heap -> Graph.Value -> completion string) (stack : nat) :
  Graph.checkJsonAnomalies Graph.self_cycle JSON_stringify stack (Graph.Ref 0)
  = Raises Graph.stack_overflow.
Proof.
  unfold Graph.checkJsonAnomalies.
  by rewrite (proj1 (GraphFacts.checkForInvalidNumbers_self_cycle stack)).
Qed.

(** C9, as amended. When [JSON.parse] throws a [SyntaxError],
    [validateJsonSyntax] returns one [SyntaxError] finding with the message of
    the parser and with a line and a column, both at least 1: line 1, column 1
    when the message holds no offset, and otherwise the position of the
    offset, whose line is one more than the number of line feeds before it. *)
Theorem C9_syntax_error_position
    (JSON_parse : string -> completion JsonValue) (text msg : string) :
  JSON_parse text = Throws (SyntaxErrorExn msg) ->
  exists l c,
    validateJsonSyntax JSON_parse text
    = mkResult false [mkError SyntaxError msg None (Some l) (Some c)]
    /\ 1 <= l /\ 1 <= c
    /\ match match_at_position msg with
       | None => l = 1 /\ c = 1
       | Some digits =>
           (l, c) = line_column text (parseInt digits)
           /\ l = 1 + line_feeds (parseInt digits) text
       end.
Proof.
  intros E. unfold validateJsonSyntax. rewrite E.
  destruct (match_at_position msg) as [digits |]; simpl.
  - pose proof (line_column_positive text (parseInt digits)) as [Hl Hc].
    pose proof (line_column_line text (parseInt digits)) as Hline.
    destruct (line_column text (parseInt digits)) as [l c]. simpl in *.
    exists l, c. by repeat split.
  - exists 1, 1. by repeat split.
Qed.

Lemma C9_syntax_error_position_witness :
  Reference.JSON_parse (Reference.json ("{'a':1," ++ String LF "]"))
  = Throws (SyntaxErrorExn "Unexpected token ] in JSON at position 8")
  /\ exists l c,
       validateJsonSyntax Reference.JSON_parse
         (Reference.json ("{'a':1," ++ String LF "]"))
       = mkResult false
           [mkError SyntaxError "Unexpected token ] in JSON at position 8"
              None (Some l) (Some c)]
       /\ 1 <= l /\ 1 <= c
       /\ match match_at_position "Unexpected token ] in JSON at position 8" with
          | None => l = 1 /\ c = 1
          | Some digits =>
              (l, c)
              = line_column (Reference.json ("{'a':1," ++ String LF "]")) (parseInt digits)
              /\ l = 1 + line_feeds (parseInt digits)
                           (Reference.json ("{'a':1," ++ String LF "]"))
          end.
Proof.
  split; [vm_compute; reflexivity |].
  apply C9_syntax_error_position. vm_compute. reflexivity.
Defined.

(** C9, as stated, fails: the message of the parser for the empty text holds
    no offset, and the finding carries line 1 and column 1. *)
Lemma C9_counterexample :
  match_at_position "Unexpected end of JSON input" = None
  /\ Reference.validateJsonSyntax EmptyString
     = mkResult false
         [mkError SyntaxError "Unexpected end of JSON input" None (Some 1) (Some 1)].
Proof. split; vm_compute; reflexivity. Qed.

(** C10, as amended. When the schema library cannot compile the schema,
    [validateJsonSchema] returns no report: the exception of [compile] leaves
    it, and leaves [validateJson] when the text has passed the earlier
    stages. *)
Theorem C10_compile_failure_propagates
    (JSON_parse : string -> completion JsonValue)
    (JSON_stringify : JsonValue -> completion string)
    (ajv_compile : JsonValue -> completion ValidateFunction)
    (data schema : JsonValue) (e : Exn) :
  ajv_compile schema = Throws e ->
  validateJsonSchema ajv_compile data schema = Throws e
  /\ forall text d,
       checkDuplicateKeys JSON_parse JSON_stringify text = Finishes d ->
       valid d = true ->
       JSON_parse text = Returns data ->
       validateJson JSON_parse JSON_stringify ajv_compile text (Some schema) = Raises e.
Proof.
  intros E. unfold validateJsonSchema. rewrite E. split; [done |].
  intros text d Hd Hv Hp. unfold validateJson, validateJson_stages.
  rewrite Hd, Hv. simpl. rewrite (validateJsonSyntax_returns _ _ _ Hp). simpl.
  rewrite Hp. simpl. unfold validateJsonSchema. by rewrite E.
Qed.

Lemma C10_compile_failure_propagates_witness :
  Reference.ajv_compile (JObject [("type", JString "objekt")])
  = Throws (ErrorExn "schema is invalid")
  /\ Reference.validateJson (Reference.json "{'a':1}")
       (Some (JObject [("type", JString "objekt")]))
     = Raises (ErrorExn "schema is invalid").
Proof.
  split; [reflexivity |].
  apply (proj2 (C10_compile_failure_propagates Reference.JSON_parse
                  Reference.JSON_stringify Reference.ajv_compile
                  (JObject [("a", JNumber (Finite 1 0))])
                  (JObject [("type", JString "objekt")])
                  (ErrorExn "schema is invalid") eq_refl)
           (Reference.json "{'a':1}") fresh_result);
    vm_compute; reflexivity.
Defined.

(** C10, as stated, fails: no report comes back for a schema that does not
    compile. *)
Lemma C10_counterexample :
  Reference.validateJsonSchema JNull (JObject [("type", JString "objekt")])
  = Throws (ErrorExn "schema is invalid").
Proof. reflexivity. Qed.

(** ** Further properties *)

(** *** The anomaly walkers, counted *)

Lemma adds_refl allowed r : adds 0 allowed r r.
Proof. exists []. by rewrite extend_nil. Qed.

Lemma adds_trans allowed n m r1 r2 r3 :
  adds n allowed r1 r2 -> adds m allowed r2 r3 -> adds (n + m) allowed r1 r3.
Proof.
  intros (a & -> & <- & Ha) (b & -> & <- & Hb). exists (a ++ b).
  rewrite extend_extend, length_app. repeat split. by apply Forall_app.
Qed.

Lemma adds_report allowed e r : allowed (type e) = true -> adds 1 allowed r (report e r).
Proof. intros H. exists [e]. rewrite report_as_extend. repeat split. by constructor. Qed.

Lemma adds_valid n allowed r r' :
  adds n allowed r r' -> valid r' = valid r && (n =? 0).
Proof. intros (es & -> & <- & _). by destruct es. Qed.

Lemma adds_count n allowed k r r' :
  (forall k', allowed k' = true -> k' = k) ->
  adds n allowed r r' -> count_kind k r' = count_kind k r + n.
Proof.
  intros Hk (es & -> & <- & H). rewrite count_kind_extend. f_equal.
  induction H as [| e es He _ IH]; [done |]. simpl.
  rewrite (Hk _ He). destruct k; simpl; by rewrite IH.
Qed.

Lemma checkForInvalidNumbers_adds v :
  forall path r,
    adds (nonfinite_numbers v) (only InvalidNumber) r (checkForInvalidNumbers v path r).
Proof.
  induction v as [| b | n | s | items IH | members IH] using JsonValue_tree_ind;
    intros path r; simpl; try apply adds_refl.
  - destruct (nonfinite_text n); [by apply adds_report | apply adds_refl].
  - generalize 0 as index. revert r.
    induction IH as [| item items Hitem _ IHl]; intros r index; [apply adds_refl |].
    simpl. eapply adds_trans; [apply Hitem | apply IHl].
  - revert r.
    induction IH as [| [key value] members Hvalue _ IHl]; intros r; [apply adds_refl |].
    simpl. eapply adds_trans; [apply Hvalue | apply IHl].
Qed.

Lemma checkSize_valid v :
  forall path r, valid (checkSize v path r) = valid r && within_limits v.
Proof.
  induction v as [| b | n | s | items IH | members IH] using JsonValue_tree_ind;
    intros path r; simpl; try by rewrite andb_true_r.
  - destruct (MAX_COLLECTION_SIZE <? List.length items) eqn:E.
    + apply Nat.ltb_lt in E. apply Nat.lt_nge, Nat.leb_nle in E. rewrite E.
      simpl. by rewrite andb_false_r.
    + apply Nat.ltb_ge, Nat.leb_le in E. rewrite E. simpl. clear E.
      generalize 0 as index. revert r.
      induction IH as [| item items Hitem _ IHl]; intros r index; simpl;
        [by rewrite andb_true_r |].
      rewrite IHl, Hitem. by rewrite andb_assoc.
  - set (r0 := if MAX_COLLECTION_SIZE <? List.length members then _ else _).
    assert (valid r0 = valid r && (List.length members <=? MAX_COLLECTION_SIZE)) as H0.
    { subst r0. destruct (MAX_COLLECTION_SIZE <? List.length members) eqn:E.
      - apply Nat.ltb_lt in E. apply Nat.lt_nge, Nat.leb_nle in E. rewrite E.
        simpl. by rewrite andb_false_r.
      - apply Nat.ltb_ge, Nat.leb_le in E. rewrite E. by rewrite andb_true_r. }
    rewrite andb_assoc, <- H0. clearbody r0. clear H0 r.
    revert r0.
    induction IH as [| [key value] members' Hvalue _ IHl]; intros r; simpl;
      [by rewrite andb_true_r |].
    rewrite IHl, Hvalue. by rewrite andb_assoc.
Qed.

Lemma valid_true_fresh r : consistent r -> valid r = true -> r = fresh_result.
Proof.
  destruct r as [v es]. unfold consistent. simpl.
  intros [[_ ->] | [H _]] ->; [reflexivity | discriminate].
Qed.

Section AnomalyCounts.

Variable JSON_stringify : JsonValue -> completion string.

Lemma checkJsonAnomalies_valid v :
  valid (checkJsonAnomalies JSON_stringify v)
  = valid (after_stringify JSON_stringify v)
    && (nonfinite_numbers v =? 0) && (nodes_at_depth (S MAX_DEPTH) v =? 0)
    && within_limits v.
Proof.
  rewrite checkJsonAnomalies_unfold, checkSize_valid. f_equal.
  rewrite checkDepth_findings by lia. rewrite Nat.sub_0_r.
  unfold extend. cbn [valid].
  rewrite (adds_valid _ _ _ _ (checkForInvalidNumbers_adds v EmptyString _)).
  f_equal. by destruct (nodes_at_depth (S MAX_DEPTH) v).
Qed.

(** X1. When the serialiser returns, the report of [checkJsonAnomalies] is
    the valid report without findings exactly when the tree has no number
    that is not finite, no node deeper than [MAX_DEPTH] and no array or object
    with more than [MAX_COLLECTION_SIZE] elements. *)
Theorem X1_anomaly_free_report (v : JsonValue) (text : string) :
  JSON_stringify v = Returns text ->
  checkJsonAnomalies JSON_stringify v = fresh_result
  <-> nonfinite_numbers v = 0
      /\ nodes_at_depth (S MAX_DEPTH) v = 0
      /\ within_limits v = true.
Proof.
  intros Hs.
  assert (valid (after_stringify JSON_stringify v) = true) as Ha
    by (unfold after_stringify; by rewrite Hs).
  pose proof (checkJsonAnomalies_valid v) as Hv. rewrite Ha in Hv. split.
  - intros E. rewrite E in Hv. change (valid fresh_result) with true in Hv.
    rewrite !andb_true_l in Hv. symmetry in Hv.
    apply andb_true_iff in Hv as [Hv H3]. apply andb_true_iff in Hv as [H1 H2].
    apply Nat.eqb_eq in H1, H2. done.
  - intros (H1 & H2 & H3). rewrite H1, H2, H3 in Hv.
    change (valid (checkJsonAnomalies JSON_stringify v) = true) in Hv.
    apply valid_true_fresh; [apply checkJsonAnomalies_consistent | exact Hv].
Qed.

(** X2. [checkJsonAnomalies] reports one [InvalidNumber] finding for every
    number of the tree that is not finite, whatever else it reports. *)
Theorem X2_invalid_number_per_leaf (v : JsonValue) :
  count_kind InvalidNumber (checkJsonAnomalies JSON_stringify v) = nonfinite_numbers v.
Proof.
  rewrite checkJsonAnomalies_unfold.
  rewrite (reports_only_count _ InvalidNumber _ _ eq_refl (checkSize_reports _ _ _)).
  rewrite (reports_only_count _ InvalidNumber _ _ eq_refl (checkDepth_reports _ _ _)).
  rewrite (adds_count _ (only InvalidNumber) InvalidNumber _ _
             ltac:(by intros []) (checkForInvalidNumbers_adds v EmptyString _)).
  by rewrite (reports_only_count _ InvalidNumber _ _ eq_refl
                (after_stringify_reports JSON_stringify _)).
Qed.

End AnomalyCounts.

Lemma X1_anomaly_free_report_witness :
  Reference.JSON_stringify (JArray [JNumber (Finite 1 0); JObject [("a", JNull)]])
  = Returns (Reference.json "[1,{'a':null}]")
  /\ (checkJsonAnomalies Reference.JSON_stringify
        (JArray [JNumber (Finite 1 0); JObject [("a", JNull)]]) = fresh_result
      <-> nonfinite_numbers (JArray [JNumber (Finite 1 0); JObject [("a", JNull)]]) = 0
          /\ nodes_at_depth (S MAX_DEPTH)
               (JArray [JNumber (Finite 1 0); JObject [("a", JNull)]]) = 0
          /\ within_limits (JArray [JNumber (Finite 1 0); JObject [("a", JNull)]]) = true).
Proof.
  assert (Reference.JSON_stringify (JArray [JNumber (Finite 1 0); JObject [("a", JNull)]])
          = Returns (Reference.json "[1,{'a':null}]")) as H by (vm_compute; reflexivity).
  split; [exact H |].
  exact (X1_anomaly_free_report Reference.JSON_stringify _ _ H).
Defined.

(** ** [trim] and blank texts *)

Lemma blank_rev_string_onto s : forall acc,
  blank (rev_string_onto s acc) = blank s && blank acc.
Proof.
  induction s as [| c s IH]; intros acc; simpl; [done |].
  rewrite IH. simpl. destruct (is_space c), (blank s); simpl; done.
Qed.

Lemma blank_rev_string s : blank (rev_string s) = blank s.
Proof. unfold rev_string. rewrite blank_rev_string_onto. simpl. by rewrite andb_true_r. Qed.

Lemma blank_drop_while s : blank (drop_while is_space s) = blank s.
Proof.
  induction s as [| c s IH]; simpl; [done |].
  destruct (is_space c) eqn:E; simpl; [exact IH | by rewrite E].
Qed.

Lemma blank_trim s : blank (trim s) = blank s.
Proof.
  unfold trim.
  by rewrite blank_rev_string, blank_drop_while, blank_rev_string, blank_drop_while.
Qed.

(** [!s.trim()] holds exactly for the blank texts. *)
Lemma truthy_trim s : truthy (trim s) = negb (blank s).
Proof.
  destruct (blank s) eqn:B.
  - by rewrite trim_blank.
  - rewrite <- blank_trim in B. by destruct (trim s).
Qed.

Lemma kinds_in_fresh allowed : kinds_in allowed fresh_result.
Proof. constructor. Qed.

Section PipelineFacts.

Variable JSON_parse : string -> completion JsonValue.
Variable JSON_stringify : JsonValue -> completion string.
Variable ajv_compile : JsonValue -> completion ValidateFunction.

Lemma validateJson_clean text v d :
  JSON_parse text = Returns v ->
  checkDuplicateKeys JSON_parse JSON_stringify text = Finishes d ->
  valid d = true ->
  forall schema,
    validateJson JSON_parse JSON_stringify ajv_compile text schema
    = match schema with
      | None => Finishes (checkJsonAnomalies JSON_stringify v)
      | Some schema =>
          match validateJsonSchema ajv_compile v schema with
          | Throws e => Raises e
          | Returns s =>
              Finishes
                (mkResult (valid (checkJsonAnomalies JSON_stringify v) && valid s)
                   (errors (checkJsonAnomalies JSON_stringify v) ++ errors s))
          end
      end.
Proof.
  intros Hp Hd Hv schema. unfold validateJson, validateJson_stages.
  rewrite Hd, Hv. simpl. rewrite (validateJsonSyntax_returns _ _ _ Hp). simpl.
  rewrite Hp. by destruct schema.
Qed.

(** X3. A text that [JSON.parse] accepts and in which [checkDuplicateKeys]
    finds nothing gets the report of [checkJsonAnomalies] on the parsed tree;
    a schema that the tree satisfies leaves that report as it is. *)
Theorem X3_passing_schema_adds_nothing
    (text : string) (v : JsonValue) (d : ValidationResult) :
  JSON_parse text = Returns v ->
  checkDuplicateKeys JSON_parse JSON_stringify text = Finishes d ->
  valid d = true ->
  validateJson JSON_parse JSON_stringify ajv_compile text None
  = Finishes (checkJsonAnomalies JSON_stringify v)
  /\ forall schema validate,
       ajv_compile schema = Returns validate ->
       passed (validate v) = true ->
       validateJson JSON_parse JSON_stringify ajv_compile text (Some schema)
       = Finishes (checkJsonAnomalies JSON_stringify v).
Proof.
  intros Hp Hd Hv. split.
  - by rewrite (validateJson_clean text v d Hp Hd Hv None).
  - intros schema validate Hc Hpass.
    rewrite (validateJson_clean text v d Hp Hd Hv (Some schema)).
    unfold validateJsonSchema. rewrite Hc, Hpass. simpl.
    rewrite andb_true_r, app_nil_r. by destruct (checkJsonAnomalies _ _).
Qed.

(** X4. When the tree fails the schema, the report of [validateJson] is
    invalid and lists the findings of [checkJsonAnomalies] followed by one
    [SchemaError] finding for every entry of [validate.errors], in their
    order, each with the instance path of its entry as path. *)
Theorem X4_failing_schema_appends
    (text : string) (v schema : JsonValue) (d : ValidationResult)
    (validate : ValidateFunction) (errs : list ErrorObject) :
  JSON_parse text = Returns v ->
  checkDuplicateKeys JSON_parse JSON_stringify text = Finishes d ->
  valid d = true ->
  ajv_compile schema = Returns validate ->
  passed (validate v) = false ->
  validate_errors (validate v) = Some errs ->
  exists findings,
    validateJson JSON_parse JSON_stringify ajv_compile text (Some schema)
    = Finishes (mkResult false (errors (checkJsonAnomalies JSON_stringify v) ++ findings))
    /\ map type findings = map (fun _ => SchemaError) errs
    /\ map path findings = map (fun err => Some (instancePath err)) errs
    /\ map message findings = map schema_error_message errs.
Proof.
  intros Hp Hd Hv Hc Hfail Herrs. exists (map schema_error errs).
  rewrite (validateJson_clean text v d Hp Hd Hv (Some schema)).
  unfold validateJsonSchema. rewrite Hc, Hfail, Herrs. simpl.
  rewrite andb_false_r, !map_map. done.
Qed.

(** X6. A report of [validateJson] comes from one stage: it holds duplicate-key
    findings only, or the finding of the syntax check only, or findings of the
    anomaly walk and of the schema only.  In the first two cases it is
    invalid. *)
Theorem X6_one_stage_reports
    (text : string) (schema : option JsonValue) (r : ValidationResult) :
  validateJson JSON_parse JSON_stringify ajv_compile text schema = Finishes r ->
  (valid r = false /\ kinds_in (only DuplicateKey) r)
  \/ (valid r = false /\ kinds_in syntax_kinds r)
  \/ kinds_in late_kinds r.
Proof.
  unfold validateJson, validateJson_stages.
  assert (kinds_in syntax_kinds (validateJsonSyntax JSON_parse text)) as Hs.
  { eapply reports_only_kinds; [apply validateJsonSyntax_reports | apply kinds_in_fresh]. }
  pose proof (checkDuplicateKeys_cases JSON_parse JSON_stringify text) as Hc.
  destruct (checkDuplicateKeys JSON_parse JSON_stringify text) as [d | | |]; simpl; try done.
  destruct (valid d) eqn:Vd; simpl.
  2:{ intros [= <-]. destruct Hc as [[-> _] | Hc]; [by right; left |].
      left. split; [done |]. eapply reports_only_kinds; [exact Hc | apply kinds_in_fresh]. }
  destruct (valid (validateJsonSyntax JSON_parse text)) eqn:Vs; simpl.
  2:{ intros [= <-]. by right; left. }
  destruct (JSON_parse text) as [v | e]; simpl; [| done].
  assert (kinds_in late_kinds (checkJsonAnomalies JSON_stringify v)) as Ha.
  { eapply reports_only_kinds; [| apply kinds_in_fresh].
    eapply reports_only_weaken; [| apply checkJsonAnomalies_reports].
    intros k Hk. unfold late_kinds. by rewrite Hk. }
  destruct schema as [s |]; simpl; [| intros [= <-]; by right; right].
  destruct (validateJsonSchema ajv_compile v s) as [sr | e] eqn:S; [| done].
  intros [= <-]. right; right. unfold kinds_in. simpl. apply Forall_app. split; [exact Ha |].
  apply validateJsonSchema_kinds in S. eapply Forall_impl; [exact S |].
  simpl. intros x. by destruct (type x).
Qed.

(** X7. On a host whose serialiser returns for every tree that its parser
    produces, no report of [validateJson] holds a [CircularReference]
    finding. *)
Theorem X7_no_circular_reference_from_text
    (text : string) (schema : option JsonValue) (r : ValidationResult) :
  (forall text v, JSON_parse text = Returns v -> exists s, JSON_stringify v = Returns s) ->
  validateJson JSON_parse JSON_stringify ajv_compile text schema = Finishes r ->
  count_kind CircularReference r = 0.
Proof.
  intros Hhost. unfold validateJson, validateJson_stages.
  assert (count_kind CircularReference (validateJsonSyntax JSON_parse text) = 0) as Hs.
  { apply (kinds_in_count syntax_kinds); [done |].
    eapply reports_only_kinds; [apply validateJsonSyntax_reports | apply kinds_in_fresh]. }
  pose proof (checkDuplicateKeys_cases JSON_parse JSON_stringify text) as Hc.
  destruct (checkDuplicateKeys JSON_parse JSON_stringify text) as [d | | |]; simpl; try done.
  destruct (valid d) eqn:Vd; simpl.
  2:{ intros [= <-]. destruct Hc as [[-> _] | Hc]; [done |].
      apply (kinds_in_count (only DuplicateKey)); [done |].
      eapply reports_only_kinds; [exact Hc | apply kinds_in_fresh]. }
  destruct (valid (validateJsonSyntax JSON_parse text)) eqn:Vs; simpl; [| by intros [= <-]].
  destruct (JSON_parse text) as [v | e] eqn:P; simpl; [| done].
  assert (count_kind CircularReference (checkJsonAnomalies JSON_stringify v) = 0) as Ha.
  { destruct (Hhost text v P) as [s Hstr].
    rewrite checkJsonAnomalies_unfold.
    rewrite (reports_only_count _ CircularReference _ _ eq_refl (checkSize_reports _ _ _)).
    rewrite (reports_only_count _ CircularReference _ _ eq_refl (checkDepth_reports _ _ _)).
    rewrite (reports_only_count _ CircularReference _ _ eq_refl
               (checkForInvalidNumbers_reports _ _ _)).
    unfold after_stringify. by rewrite Hstr. }
  destruct schema as [s |]; simpl; [| by intros [= <-]].
  destruct (validateJsonSchema ajv_compile v s) as [sr | e] eqn:S; [| done].
  intros [= <-]. unfold count_kind in *. simpl. rewrite List.filter_app, length_app, Ha.
  apply validateJsonSchema_kinds in S.
  fold (count_kind CircularReference sr). by apply (kinds_in_count (only SchemaError)).
Qed.

Lemma validateJsonInput_cases text :
  validateJsonInput JSON_parse JSON_stringify ajv_compile text
  = if blank text then Finishes empty_input_result
    else validateJson JSON_parse JSON_stringify ajv_compile text None.
Proof.
  unfold validateJsonInput, validateJsonInput_stages. rewrite truthy_trim, negb_involutive.
  by destruct (blank text).
Qed.

(** X8. The handler [validateJsonInput] reports [EmptyInput] for the blank
    inputs and passes every other input to [validateJson] without a schema; a
    report holds an [EmptyInput] finding only for a blank input. *)
Theorem X8_input_handler_delegates (text : string) :
  validateJsonInput JSON_parse JSON_stringify ajv_compile text
  = (if blank text then Finishes empty_input_result
     else validateJson JSON_parse JSON_stringify ajv_compile text None)
  /\ forall r,
       validateJsonInput JSON_parse JSON_stringify ajv_compile text = Finishes r ->
       (0 < count_kind EmptyInput r <-> blank text = true).
Proof.
  pose proof (validateJsonInput_cases text) as H.
  split; [exact H |]. intros r. rewrite H. destruct (blank text).
  - intros [= <-]. split; [done |]. intros _. unfold count_kind. simpl. lia.
  - intros Hr. apply validateJson_kinds in Hr.
    rewrite (kinds_in_count engine_kinds EmptyInput r eq_refl Hr). split; [lia | done].
Qed.

End PipelineFacts.

Lemma X3_passing_schema_adds_nothing_witness :
  Reference.JSON_parse (Reference.json "[1]") = Returns (JArray [JNumber (Finite 1 0)])
  /\ Reference.checkDuplicateKeys (Reference.json "[1]") = Finishes fresh_result
  /\ valid fresh_result = true
  /\ Reference.validateJson (Reference.json "[1]") None
     = Finishes (Reference.checkJsonAnomalies (JArray [JNumber (Finite 1 0)])).
Proof.
  assert (Reference.JSON_parse (Reference.json "[1]")
          = Returns (JArray [JNumber (Finite 1 0)])) as Hp by (vm_compute; reflexivity).
  assert (Reference.checkDuplicateKeys (Reference.json "[1]") = Finishes fresh_result) as Hd
    by (vm_compute; reflexivity).
  split; [exact Hp |]. split; [exact Hd |]. split; [reflexivity |].
  exact (proj1 (X3_passing_schema_adds_nothing Reference.JSON_parse Reference.JSON_stringify
                  Reference.ajv_compile _ _ _ Hp Hd eq_refl)).
Defined.

Lemma X4_failing_schema_appends_witness :
  Reference.JSON_parse (Reference.json "[1]") = Returns (JArray [JNumber (Finite 1 0)])
  /\ exists validate findings,
       Reference.ajv_compile (JObject [("type", JString "object")]) = Returns validate
       /\ passed (validate (JArray [JNumber (Finite 1 0)])) = false
       /\ Reference.validateJson (Reference.json "[1]")
            (Some (JObject [("type", JString "object")]))
          = Finishes
              (mkResult false
                 (errors (Reference.checkJsonAnomalies (JArray [JNumber (Finite 1 0)]))
                  ++ findings))
       /\ map type findings = [SchemaError].
Proof.
  assert (Reference.JSON_parse (Reference.json "[1]")
          = Returns (JArray [JNumber (Finite 1 0)])) as Hp by (vm_compute; reflexivity).
  assert (Reference.checkDuplicateKeys (Reference.json "[1]") = Finishes fresh_result) as Hd
    by (vm_compute; reflexivity).
  split; [exact Hp |].
  destruct (Reference.ajv_compile (JObject [("type", JString "object")]))
    as [validate | e] eqn:Hc; [| discriminate Hc].
  exists validate.
  assert (Returns validate
          = Returns
              (fun data =>
                 if Reference.has_type "object" data then mkValidation true None
                 else
                   mkValidation false
                     (Some [mkErrorObject (Some "must be object") EmptyString]))) as Hv
    by (rewrite <- Hc; reflexivity).
  injection Hv as ->.
  destruct (X4_failing_schema_appends Reference.JSON_parse Reference.JSON_stringify
              Reference.ajv_compile _ _ (JObject [("type", JString "object")]) _ _
              [mkErrorObject (Some "must be object") EmptyString]
              Hp Hd eq_refl Hc eq_refl eq_refl) as (findings & H & Ht & _).
  exists findings. split; [reflexivity |]. split; [reflexivity |]. split; [exact H | exact Ht].
Defined.

Lemma X6_one_stage_reports_witness :
  Reference.validateJson (Reference.json "{'a':1e999}") None
  = Finishes
      (mkResult false
         [mkError InvalidNumber "Invalid number value: Infinity" (Some "a") None None])
  /\ kinds_in late_kinds
       (mkResult false
          [mkError InvalidNumber "Invalid number value: Infinity" (Some "a") None None]).
Proof.
  assert (Reference.validateJson (Reference.json "{'a':1e999}") None
          = Finishes
              (mkResult false
                 [mkError InvalidNumber "Invalid number value: Infinity" (Some "a")
                    None None])) as H by (vm_compute; reflexivity).
  split; [exact H |].
  destruct (X6_one_stage_reports Reference.JSON_parse Reference.JSON_stringify
              Reference.ajv_compile _ _ _ H) as [[_ Hk] | [[_ Hk] | Hk]].
  - inversion Hk as [| e es He _]. discriminate He.
  - inversion Hk as [| e es He _]. discriminate He.
  - exact Hk.
Defined.

Lemma X7_no_circular_reference_from_text_witness :
  (forall text v,
      Reference.JSON_parse text = Returns v ->
      exists s, Reference.JSON_stringify v = Returns s)
  /\ count_kind CircularReference
       (mkResult false
          [mkError InvalidNumber "Invalid number value: Infinity" (Some "a") None None])
     = 0.
Proof.
  assert (forall text v,
             Reference.JSON_parse text = Returns v ->
             exists s, Reference.JSON_stringify v = Returns s) as Hhost
    by (intros text v _; by eexists).
  split; [exact Hhost |].
  apply (X7_no_circular_reference_from_text Reference.JSON_parse Reference.JSON_stringify
           Reference.ajv_compile (Reference.json "{'a':1e999}") None _ Hhost).
  vm_compute. reflexivity.
Defined.

(** *** The line scan *)

Lemma string_app_cons c (a b : string) : (String c a ++ b = String c (a ++ b))%string.
Proof. reflexivity. Qed.

Lemma string_app_nil (b : string) : (EmptyString ++ b = b)%string.
Proof. reflexivity. Qed.

Lemma string_app_assoc (a b c : string) : ((a ++ b) ++ c = a ++ (b ++ c))%string.
Proof.
  induction a as [| x a IH]; [done |]. rewrite !string_app_cons. by rewrite IH.
Qed.

Lemma string_length_app (a b : string) :
  String.length (a ++ b) = String.length a + String.length b.
Proof.
  induction a as [| x a IH]; [done |]. rewrite string_app_cons. simpl. by rewrite IH.
Qed.

Lemma span_unquoted_spec s :
  let (run, after) := span_unquoted s in
  s = (run ++ after)%string
  /\ all_chars (fun c => negb (Ascii.eqb c DQUOTE)) run = true
  /\ match after with
     | String c _ => c = DQUOTE
     | EmptyString => True
     end.
Proof.
  induction s as [| c s IH]; simpl; [done |].
  destruct (Ascii.eqb c DQUOTE) eqn:E.
  - apply Ascii.eqb_eq in E. by subst.
  - destruct (span_unquoted s) as [run after]. destruct IH as (-> & Hrun & Hafter).
    simpl. by rewrite E.
Qed.

Lemma span_space_spec s :
  let (n, after) := span_space s in
  exists ws, s = (ws ++ after)%string /\ all_chars is_space ws = true
             /\ String.length ws = n.
Proof.
  induction s as [| c s IH]; simpl; [by exists EmptyString |].
  destruct (is_space c) eqn:E.
  - destruct (span_space s) as [n after]. destruct IH as (ws & -> & Hws & <-).
    exists (String c ws). simpl. by rewrite E.
  - by exists EmptyString.
Qed.

(** A match of [keyRegex] at the start of [s]. *)
Lemma keyRegex_at_spec s key len :
  keyRegex_at s = Some (key, len) ->
  truthy key = true
  /\ all_chars (fun c => negb (Ascii.eqb c DQUOTE)) key = true
  /\ exists ws rest,
       all_chars is_space ws = true
       /\ s = (quoted key ++ ws ++ String ":" rest)%string
       /\ len = String.length key + String.length ws + 3.
Proof.
  unfold keyRegex_at. destruct s as [| c s1]; [done |].
  destruct (Ascii.eqb c DQUOTE) eqn:E; [| done]. apply Ascii.eqb_eq in E. subst c.
  pose proof (span_unquoted_spec s1) as Hu.
  destruct (span_unquoted s1) as [k after]. destruct Hu as (-> & Hk & Hafter).
  destruct (truthy k) eqn:T; [| done].
  destruct after as [| q s2]; [done |]. subst q.
  pose proof (span_space_spec s2) as Hsp.
  destruct (span_space s2) as [n s3]. destruct Hsp as (ws & -> & Hws & <-).
  destruct s3 as [| d rest]; [done |].
  destruct (Ascii.eqb d ":"%char) eqn:D; [| done]. apply Ascii.eqb_eq in D. subst d.
  intros [= <- <-]. repeat split; try done.
  exists ws, rest. repeat split; [done | | lia].
  unfold quoted. simpl. f_equal. by rewrite string_app_assoc.
Qed.

Lemma skip_0 s : skip 0 s = s.
Proof. by destruct s. Qed.

Lemma keyRegex_exec_all_In s : forall index lastIndex key i,
  In (key, i) (keyRegex_exec_all s index lastIndex) ->
  index <= i /\ truthy key = true /\ key_at key (i - index) s.
Proof.
  induction s as [| c s IH]; intros index lastIndex key i; cbn [keyRegex_exec_all]; [done |].
  assert (forall li, In (key, i) (keyRegex_exec_all s (S index) li) ->
                     index <= i /\ truthy key = true /\ key_at key (i - index) (String c s))
    as Hrest.
  { intros li H. apply IH in H as (Hi & Ht & ws & rest & Hws & Hk).
    split; [lia |]. split; [done |]. exists ws, rest. split; [done |].
    replace (i - index) with (S (i - S index)) by lia. exact Hk. }
  destruct (lastIndex <=? index); [| apply Hrest].
  destruct (keyRegex_at (String c s)) as [[k len] |] eqn:M; [| apply Hrest].
  intros [[= <- <-] | H]; [| by eapply Hrest].
  apply keyRegex_at_spec in M as (Ht & _ & ws & rest & Hws & Hs & _).
  split; [lia |]. split; [done |]. exists ws, rest. split; [done |].
  by rewrite Nat.sub_diag.
Qed.

Lemma keyRegex_exec_all_sorted s : forall index lastIndex,
  StronglySorted (fun a b : string * nat => snd a < snd b)
    (keyRegex_exec_all s index lastIndex).
Proof.
  induction s as [| c s IH]; intros index lastIndex; cbn [keyRegex_exec_all]; [constructor |].
  destruct (lastIndex <=? index); [| apply IH].
  destruct (keyRegex_at (String c s)) as [[k len] |]; [| apply IH].
  constructor; [apply IH |]. apply List.Forall_forall. intros [k' i] H.
  apply keyRegex_exec_all_In in H. simpl. lia.
Qed.

(** *** The map [keys] *)

Lemma keys_record_old key column keys :
  In key (map fst keys) ->
  exists before ps after,
    keys = before ++ (key, ps) :: after
    /\ ~ In key (map fst before)
    /\ keys_record key column keys = before ++ (key, ps ++ [column]) :: after.
Proof.
  induction keys as [| [k ps] keys IH]; simpl; [done |].
  destruct (String.eqb k key) eqn:E.
  - apply String.eqb_eq in E. subst k. intros _. exists [], ps, keys.
    split; [done | split; [by intros [] | done]].
  - apply String.eqb_neq in E. intros [H | H]; [done |].
    destruct (IH H) as (before & ps' & after & -> & Hb & ->).
    exists ((k, ps) :: before), ps', after.
    split; [done | split; [| done]]. simpl. intros [? | ?]; done.
Qed.

Lemma keys_record_new key column keys :
  ~ In key (map fst keys) -> keys_record key column keys = keys ++ [(key, [column])].
Proof.
  induction keys as [| [k ps] keys IH]; simpl; [done |]. intros H.
  destruct (String.eqb k key) eqn:E.
  - apply String.eqb_eq in E. tauto.
  - rewrite IH; tauto.
Qed.

Lemma columns_of_snoc k seen key i :
  columns_of k (seen ++ [(key, i)])
  = columns_of k seen ++ (if String.eqb key k then [i + 1] else []).
Proof.
  unfold columns_of. rewrite List.filter_app, map_app. simpl.
  by destruct (String.eqb key k).
Qed.

Lemma columns_of_absent k seen : ~ In k (map fst seen) -> columns_of k seen = [].
Proof.
  unfold columns_of. induction seen as [| [k' i] seen IH]; simpl; [done |]. intros H.
  destruct (String.eqb k' k) eqn:E.
  - apply String.eqb_eq in E. tauto.
  - apply IH. tauto.
Qed.

Lemma records_step keys seen key i :
  records keys seen -> records (keys_record key (i + 1) keys) (seen ++ [(key, i)]).
Proof.
  intros (Hnd & Hin & Hcols & Hsum).
  assert (forall k, In k (map fst (seen ++ [(key, i)])) <-> In k (map fst seen) \/ k = key)
    as Hseen.
  { intros k. rewrite map_app, in_app_iff. simpl. split.
    - intros [H | [H | []]]; auto.
    - intros [H | ->]; auto. }
  destruct (in_dec string_dec key (map fst keys)) as [Hold | Hnew].
  - destruct (keys_record_old key (i + 1) keys Hold)
      as (before & ps & after & -> & Hb & ->).
    assert (map fst (before ++ (key, ps ++ [i + 1]) :: after)
            = map fst (before ++ (key, ps) :: after)) as Hfst
      by (by rewrite !map_app).
    unfold records. rewrite Hfst. split; [exact Hnd |]. split; [| split].
    + intros k. rewrite Hin, Hseen. split; [tauto |].
      intros [H | ->]; [done |]. by apply Hin.
    + intros k ps' H. rewrite columns_of_snoc.
      apply in_app_iff in H as [H | [[= <- <-] | H]].
      * assert (k <> key) as Hk.
        { intros ->. apply Hb. by apply (in_map fst) in H. }
        apply String.eqb_neq in Hk. rewrite String.eqb_sym, Hk, app_nil_r.
        apply Hcols. rewrite in_app_iff. tauto.
      * rewrite String.eqb_refl. f_equal. apply Hcols. rewrite in_app_iff. simpl. tauto.
      * assert (k <> key) as Hk.
        { intros ->. rewrite map_app in Hnd. simpl in Hnd.
          apply List.NoDup_remove_2 in Hnd. apply Hnd.
          rewrite in_app_iff. right. by apply (in_map fst) in H. }
        apply String.eqb_neq in Hk. rewrite String.eqb_sym, Hk, app_nil_r.
        apply Hcols. rewrite in_app_iff. simpl. tauto.
    + rewrite map_app, list_sum_app in Hsum. rewrite map_app, list_sum_app.
      simpl in *. rewrite !length_app. simpl. lia.
  - rewrite (keys_record_new _ _ _ Hnew). unfold records. split; [| split; [| split]].
    + rewrite map_app. simpl. apply List.NoDup_app; [done | |].
      * apply List.NoDup_cons; [by intros [] | constructor].
      * intros k Hk [<- | []]. done.
    + intros k. rewrite Hseen, map_app, in_app_iff, Hin. simpl. split.
      * intros [H | [H | []]]; auto.
      * intros [H | ->]; auto.
    + intros k ps H. rewrite columns_of_snoc.
      apply in_app_iff in H as [H | [[= <- <-] | []]].
      * assert (k <> key) as Hk.
        { intros ->. apply Hnew. by apply (in_map fst) in H. }
        apply String.eqb_neq in Hk. rewrite String.eqb_sym, Hk, app_nil_r. by apply Hcols.
      * rewrite String.eqb_refl, columns_of_absent; [done |].
        intros H. by apply Hin in H.
    + rewrite map_app, list_sum_app, length_app. simpl. lia.
Qed.

Lemma records_fold matches : forall keys seen,
  records keys seen ->
  records (fold_left (fun keys m => keys_record (fst m) (snd m + 1) keys) matches keys)
    (seen ++ matches).
Proof.
  induction matches as [| [key i] matches IH]; intros keys seen H; simpl.
  - by rewrite app_nil_r.
  - replace (seen ++ (key, i) :: matches) with ((seen ++ [(key, i)]) ++ matches)
      by (by rewrite <- app_assoc).
    apply IH. by apply records_step.
Qed.

Lemma records_all matches :
  records (fold_left (fun keys m => keys_record (fst m) (snd m + 1) keys) matches []) matches.
Proof.
  apply (records_fold matches [] []). repeat split; try done. constructor.
Qed.

Lemma columns_of_In k matches p :
  In p (columns_of k matches) <-> exists i, p = i + 1 /\ In (k, i) matches.
Proof.
  unfold columns_of. rewrite in_map_iff. split.
  - intros ([k' i] & <- & H). apply filter_In in H as [H E]. simpl in *.
    apply String.eqb_eq in E. subst. eauto.
  - intros (i & -> & H). exists (k, i). split; [done |].
    apply filter_In. split; [done |]. simpl. apply String.eqb_refl.
Qed.

Lemma columns_of_sorted k matches :
  StronglySorted (fun a b : string * nat => snd a < snd b) matches ->
  StronglySorted lt (columns_of k matches).
Proof.
  induction 1 as [| [k' i] matches Hs IH Hall]; [constructor |].
  unfold columns_of in *. simpl.
  destruct (String.eqb k' k); [| exact IH]. simpl.
  constructor; [exact IH |]. apply List.Forall_forall. intros p Hp.
  apply in_map_iff in Hp as ([k2 j] & <- & Hj). apply filter_In in Hj as [Hj _].
  rewrite List.Forall_forall in Hall. specialize (Hall _ Hj). simpl in *. lia.
Qed.

Lemma scan_line_In lineNum line d :
  In d (scan_line lineNum line) ->
  dup_line d = lineNum + 1
  /\ exists j,
       j + 1 < dup_column d
       /\ In (dup_key d, j) (keyRegex_exec_all line 0 0)
       /\ In (dup_key d, dup_column d - 1) (keyRegex_exec_all line 0 0).
Proof.
  unfold scan_line. intros H. apply in_flat_map in H as ([k ps] & Hk & Hd).
  destruct (records_all (keyRegex_exec_all line 0 0)) as (_ & _ & Hcols & _).
  apply Hcols in Hk.
  destruct (1 <? List.length ps); [| done].
  apply in_map_iff in Hd as (p & <- & Hp). simpl. split; [done |].
  pose proof (columns_of_sorted k _ (keyRegex_exec_all_sorted line 0 0)) as Hsorted.
  rewrite <- Hk in Hsorted.
  destruct ps as [| p0 rest]; [done |]. simpl in Hp.
  apply StronglySorted_inv in Hsorted as [_ Hlt].
  rewrite List.Forall_forall in Hlt. specialize (Hlt _ Hp).
  assert (In p0 (columns_of k (keyRegex_exec_all line 0 0))) as H0
    by (rewrite <- Hk; by left).
  assert (In p (columns_of k (keyRegex_exec_all line 0 0))) as H1
    by (rewrite <- Hk; by right).
  apply columns_of_In in H0 as (j & -> & Hj). apply columns_of_In in H1 as (i & -> & Hi).
  exists j. split; [lia |]. split; [done |]. by replace (i + 1 - 1) with i by lia.
Qed.

Lemma scan_lines_In lines : forall lineNum d,
  In d (scan_lines lineNum lines) ->
  exists m line, nth_error lines m = Some line /\ In d (scan_line (lineNum + m) line).
Proof.
  induction lines as [| line lines IH]; intros lineNum d; simpl; [done |].
  rewrite in_app_iff. intros [H | H].
  - exists 0, line. by rewrite Nat.add_0_r.
  - apply IH in H as (m & line' & Hm & Hd). exists (S m), line'.
    split; [done |]. by replace (lineNum + S m) with (S lineNum + m) by lia.
Qed.

(** X9. Every finding of the line scan names a line of the text and a column
    on it where its key stands between double quotes before a colon, and the
    same key stands so at an earlier column of the same line; whether the two
    occurrences belong to one object plays no part. *)
Theorem X9_line_scan_finding (text : string) (d : LineDuplicate) :
  In d (line_duplicates text) ->
  exists line j,
    nth_error (split_lines text) (dup_line d - 1) = Some line
    /\ 1 <= dup_line d
    /\ j + 1 < dup_column d
    /\ truthy (dup_key d) = true
    /\ key_at (dup_key d) j line
    /\ key_at (dup_key d) (dup_column d - 1) line.
Proof.
  unfold line_duplicates. intros H.
  apply scan_lines_In in H as (m & line & Hm & Hd). simpl in Hd.
  apply scan_line_In in Hd as (Hline & j & Hj & H0 & H1).
  exists line, j. rewrite Hline. replace (m + 1 - 1) with m by lia.
  apply keyRegex_exec_all_In in H0 as (_ & Ht & K0).
  apply keyRegex_exec_all_In in H1 as (_ & _ & K1).
  rewrite Nat.sub_0_r in K0, K1. repeat split; try done. lia.
Qed.

Lemma flat_map_tails_length lineNum (keys : list (string * list nat)) :
  Forall (fun entry => snd entry <> []) keys ->
  List.length
    (flat_map
       (fun entry : string * list nat =>
          let (key, positions) := entry in
          if 1 <? List.length positions then
            map (fun column => mkLineDuplicate key (lineNum + 1) column) (tl positions)
          else [])
       keys)
  + List.length keys
  = list_sum (map (fun entry => List.length (snd entry)) keys).
Proof.
  induction 1 as [| [k ps] keys Hps _ IH]; [done |]. simpl in *.
  rewrite length_app. destruct ps as [| p0 [| p1 ps]]; [done | simpl; lia |].
  simpl in *. rewrite length_map. lia.
Qed.

Lemma nodup_length_le (l : list string) :
  List.length (nodup string_dec l) <= List.length l.
Proof.
  induction l as [| x l IH]; [done |]. simpl.
  destruct (in_dec string_dec x l); simpl; lia.
Qed.

Lemma nodup_length_NoDup (l : list string) :
  List.length (nodup string_dec l) = List.length l -> List.NoDup l.
Proof.
  induction l as [| x l IH]; [constructor |]. simpl.
  destruct (in_dec string_dec x l) as [Hin | Hnot].
  - intros H. pose proof (nodup_length_le l) as Hle. lia.
  - simpl. intros [= H]. apply List.NoDup_cons; [done | auto].
Qed.

(** X10. On one line, the line scan makes one finding for every match of the
    key pattern beyond the first match of each key: the findings and the
    distinct keys together are as many as the matches, and there is no finding
    exactly when no two matches have the same key. *)
Theorem X10_line_scan_count (lineNum : nat) (line : string) :
  List.length (scan_line lineNum line)
  + List.length (distinct_keys (keyRegex_exec_all line 0 0))
  = List.length (keyRegex_exec_all line 0 0)
  /\ (scan_line lineNum line = [] <-> List.NoDup (map fst (keyRegex_exec_all line 0 0))).
Proof.
  set (matches := keyRegex_exec_all line 0 0).
  assert (List.length (scan_line lineNum line) + List.length (distinct_keys matches)
          = List.length matches) as Hcount.
  { unfold scan_line. fold matches.
    destruct (records_all matches) as (Hnd & Hin & Hcols & Hsum).
    set (keys := fold_left _ matches []) in *.
    assert (List.length (distinct_keys matches) = List.length keys) as ->.
    { rewrite <- (length_map fst keys). apply Permutation_length.
      apply Permutation.NoDup_Permutation; [apply List.NoDup_nodup | exact Hnd |].
      intros k. unfold distinct_keys. rewrite nodup_In. symmetry. apply Hin. }
    rewrite <- Hsum. apply flat_map_tails_length.
    apply List.Forall_forall. intros [k ps] Hk. simpl.
    assert (In k (map fst matches)) as Hkm
      by (apply Hin; by apply (in_map fst) in Hk).
    apply in_map_iff in Hkm as ([k' i] & Hfst & Hm). simpl in Hfst. subst k'.
    rewrite (Hcols _ _ Hk). intros Hnil.
    assert (In (i + 1) (columns_of k matches)) as Hp by (apply columns_of_In; eauto).
    by rewrite Hnil in Hp. }
  split; [exact Hcount |]. split.
  - intros E. rewrite E in Hcount. simpl in Hcount.
    apply nodup_length_NoDup. unfold distinct_keys in Hcount.
    by rewrite length_map.
  - intros Hnd. apply length_zero_iff_nil.
    unfold distinct_keys in Hcount. rewrite (nodup_fixed_point string_dec Hnd) in Hcount.
    rewrite length_map in Hcount. lia.
Qed.

Lemma X9_line_scan_finding_witness :
  In (mkLineDuplicate "a" 1 19)
     (line_duplicates (Reference.json "{'x':{'a':1},'y':{'a':2}}"))
  /\ exists line j,
       nth_error (split_lines (Reference.json "{'x':{'a':1},'y':{'a':2}}")) (1 - 1)
       = Some line
       /\ 1 <= 1 /\ j + 1 < 19 /\ truthy "a" = true
       /\ key_at "a" j line /\ key_at "a" (19 - 1) line.
Proof.
  assert (In (mkLineDuplicate "a" 1 19)
            (line_duplicates (Reference.json "{'x':{'a':1},'y':{'a':2}}"))) as H
    by (vm_compute; by left).
  split; [exact H |].
  exact (X9_line_scan_finding _ _ H).
Defined.

(** *** The optional properties of the findings *)

Lemma appends_refl P r : appends P r r.
Proof. exists []. by rewrite extend_nil. Qed.

Lemma appends_trans P r1 r2 r3 : appends P r1 r2 -> appends P r2 r3 -> appends P r1 r3.
Proof.
  intros (a & -> & Ha) (b & -> & Hb). exists (a ++ b).
  rewrite extend_extend. split; [done |]. by apply Forall_app.
Qed.

Lemma appends_report (P : ValidationError -> Prop) e r : P e -> appends P r (report e r).
Proof. intros H. exists [e]. rewrite report_as_extend. split; [done |]. by constructor. Qed.

Lemma appends_errors P r r' : appends P r r' -> Forall P (errors r) -> Forall P (errors r').
Proof. intros (es & -> & Hes) Hr. simpl. by apply Forall_app. Qed.

Section WalkersAppend.

Variable P : ValidationError -> Prop.
Hypothesis Hnumber : forall text path, P (invalid_number_error text path).
Hypothesis Hnesting : P excessive_nesting_error.
Hypothesis Harray : forall path len, P (large_array_error path len).
Hypothesis Hobject : forall path len, P (large_object_error path len).

Lemma checkForInvalidNumbers_appends v :
  forall path r, appends P r (checkForInvalidNumbers v path r).
Proof.
  induction v as [| b | n | s | items IH | members IH] using JsonValue_tree_ind;
    intros path r; simpl; try apply appends_refl.
  - destruct (nonfinite_text n); [by apply appends_report | apply appends_refl].
  - generalize 0 as index. revert r.
    induction IH as [| item items Hitem _ IHl]; intros r index; [apply appends_refl |].
    eapply appends_trans; [apply Hitem | apply IHl].
  - revert r.
    induction IH as [| [key value] members Hvalue _ IHl]; intros r; [apply appends_refl |].
    eapply appends_trans; [apply Hvalue | apply IHl].
Qed.

Lemma checkSize_appends v : forall path r, appends P r (checkSize v path r).
Proof.
  induction v as [| b | n | s | items IH | members IH] using JsonValue_tree_ind;
    intros path r; simpl; try apply appends_refl.
  - destruct (MAX_COLLECTION_SIZE <? List.length items); [by apply appends_report |].
    generalize 0 as index. revert r.
    induction IH as [| item items Hitem _ IHl]; intros r index; [apply appends_refl |].
    eapply appends_trans; [apply Hitem | apply IHl].
  - set (r0 := if MAX_COLLECTION_SIZE <? List.length members then _ else _).
    assert (appends P r r0) as H0.
    { subst r0. destruct (MAX_COLLECTION_SIZE <? List.length members);
        [by apply appends_report | apply appends_refl]. }
    eapply appends_trans; [exact H0 |]. clearbody r0. clear H0 r.
    revert r0.
    induction IH as [| [key value] members' Hvalue _ IHl]; intros r; [apply appends_refl |].
    eapply appends_trans; [apply Hvalue | apply IHl].
Qed.

Lemma checkDepth_appends v depth r :
  depth <= S MAX_DEPTH -> appends P r (snd (checkDepth v depth r)).
Proof.
  intros H. rewrite checkDepth_findings by exact H.
  eexists. split; [reflexivity |]. apply List.Forall_forall. intros e He.
  apply repeat_spec in He. by subst.
Qed.

End WalkersAppend.

Module ScannerShape.
Import Scanner ScannerSpec ScannerFacts.

Section Shape.

Variable P : ValidationError -> Prop.
Hypothesis Hduplicate : forall key l c, 1 <= l -> 1 <= c -> P (duplicate_key_error key l c).

Lemma report_duplicate_appends input key st :
  appends P (result st) (result (report_duplicate input key st)).
Proof.
  unfold report_duplicate.
  pose proof (line_column_positive input (at_ st - String.length key - 3)) as [Hl Hc].
  destruct (line_column _ _) as [l c]. simpl in *.
  apply appends_report. by apply Hduplicate.
Qed.

Section Loops.

Variable input : string.
Variable value : state -> outcome.
Hypothesis Hvalue_appends : forall st, outcome_appends P (result st) (value st).

Lemma object_loop_appends n : forall keys st,
  outcome_appends P (result st) (object_loop input value n keys st).
Proof.
  induction n as [| n IH]; intros keys st; simpl.
  - destruct (ch st); simpl; [done | apply appends_refl].
  - destruct (ch st) as [c |]; simpl; [| apply appends_refl].
    destruct (ch_is DQUOTE (white st)); simpl;
      [| rewrite result_white; apply appends_refl].
    destruct (string_ (white st)) as [[key st1] |] eqn:Hs; [| done].
    apply result_string_ in Hs. rewrite result_white in Hs.
    destruct (ch_is ":"%char (white st1)); simpl;
      [| rewrite result_white, Hs; apply appends_refl].
    set (st2 := if bool_decide (key ∈ keys) then _ else _).
    assert (appends P (result st) (result st2)) as H2.
    { subst st2. destruct (bool_decide (key ∈ keys)).
      - eapply appends_trans; [| apply report_duplicate_appends].
        rewrite result_next, result_white, Hs. apply appends_refl.
      - rewrite result_next, result_white, Hs. apply appends_refl. }
    pose proof (Hvalue_appends st2) as Hv. clearbody st2.
    destruct (value st2) as [st3 | e st3 | |]; simpl in *; [| | done | done].
    + destruct (ch_is "}"%char (white st3)); simpl.
      { rewrite result_next, result_white. eapply appends_trans; eassumption. }
      destruct (ch_is ","%char (white st3)); simpl.
      * specialize (IH ({[key]} ∪ keys) (next (white st3))).
        rewrite result_next, result_white in IH.
        destruct (object_loop _ _ _ _ _); simpl in *; try done;
          (eapply appends_trans; [| exact IH]);
          eapply appends_trans; eassumption.
      * rewrite result_white. eapply appends_trans; eassumption.
    + eapply appends_trans; eassumption.
Qed.

Lemma object__appends n st : outcome_appends P (result st) (object_ input value n st).
Proof.
  unfold object_. destruct (ch_is "{"%char st); simpl; [| apply appends_refl].
  destruct (ch_is "}"%char (white (next st))); simpl.
  { rewrite !result_next, result_white, result_next. apply appends_refl. }
  pose proof (object_loop_appends n ∅ (white (next st))) as H.
  by rewrite result_white, result_next in H.
Qed.

Lemma array_loop_appends n : forall st,
  outcome_appends P (result st) (array_loop value n st).
Proof.
  induction n as [| n IH]; intros st; simpl.
  - destruct (ch st); simpl; [done | apply appends_refl].
  - destruct (ch st) as [c |]; simpl; [| apply appends_refl].
    pose proof (Hvalue_appends st) as Hv.
    destruct (value st) as [st3 | e st3 | |]; simpl in *; [| done | done | done].
    destruct (ch_is "]"%char (white st3)); simpl.
    { by rewrite result_next, result_white. }
    destruct (ch_is ","%char (white st3)); simpl.
    + specialize (IH (white (next (white st3)))).
      rewrite result_white, result_next, result_white in IH.
      destruct (array_loop _ _ _); simpl in *; try done;
        eapply appends_trans; eassumption.
    + by rewrite result_white.
Qed.

Lemma array__appends n st : outcome_appends P (result st) (array_ value n st).
Proof.
  unfold array_. destruct (ch_is "["%char st); simpl; [| apply appends_refl].
  destruct (ch_is "]"%char (white (next st))); simpl.
  { rewrite !result_next, result_white, result_next. apply appends_refl. }
  pose proof (array_loop_appends n (white (next st))) as H.
  by rewrite result_white, result_next in H.
Qed.

End Loops.

Lemma value_appends input fuel : forall st,
  outcome_appends P (result st) (value input fuel st).
Proof.
  induction fuel as [| fuel IH]; intros st; simpl; [done |].
  destruct (ch_is "{"%char (white st)).
  { pose proof (object__appends input _ IH fuel (white st)) as H.
    by rewrite result_white in H. }
  destruct (ch_is "["%char (white st)).
  { pose proof (array__appends _ IH fuel (white st)) as H.
    by rewrite result_white in H. }
  destruct (ch_is DQUOTE (white st)).
  { destruct (string_ (white st)) as [[key st1] |] eqn:Hs; [| done].
    apply result_string_ in Hs. simpl. rewrite Hs, result_white. apply appends_refl. }
  destruct (ch_is "-"%char (white st)); simpl;
    rewrite result_primitive, ?result_next, result_white; apply appends_refl.
Qed.

Lemma scan_appends input r : outcome_appends P r (scan input r).
Proof.
  unfold scan.
  pose proof (value_appends input (parser_fuel input)
                (white (mkState 0 (Some SPACE) input r))) as H.
  rewrite result_white in H. simpl in H.
  destruct (value _ _ _) as [st | e st | |]; simpl in *; try done.
  destruct (ch (white st)); simpl; by rewrite result_white.
Qed.

End Shape.

End ScannerShape.

Lemma line_duplicates_positive text d :
  In d (line_duplicates text) -> 1 <= dup_line d /\ 1 <= dup_column d.
Proof.
  unfold line_duplicates. intros H.
  apply scan_lines_In in H as (m & line & _ & Hd).
  apply scan_line_In in Hd as (Hline & j & Hj & _). lia.
Qed.

Section StagesAppend.

Variable JSON_parse : string -> completion JsonValue.
Variable JSON_stringify : JsonValue -> completion string.
Variable ajv_compile : JsonValue -> completion ValidateFunction.

Lemma validateJsonSyntax_well_formed text :
  Forall well_formed (errors (validateJsonSyntax JSON_parse text)).
Proof.
  unfold validateJsonSyntax. destruct (JSON_parse text) as [v | e]; [constructor |].
  assert (forall m, well_formed (mkError UnknownError m None None None)) as Hunknown
    by (intros m; by repeat split).
  pose proof (line_column_positive text) as Hpos.
  destruct e; simpl; try (constructor; [apply Hunknown | constructor]).
  destruct (match_at_position msg) as [digits |]; simpl.
  - specialize (Hpos (parseInt digits)).
    destruct (line_column text (parseInt digits)) as [l c]. simpl in *.
    destruct Hpos as [Hl Hc].
    constructor; [| constructor]. split; [done |]. exists l, c. by repeat split.
  - constructor; [| constructor]. split; [done |]. exists 1, 1. by repeat split.
Qed.

Lemma add_line_duplicates_appends (P : ValidationError -> Prop) text r :
  (forall key l c, 1 <= l -> 1 <= c -> P (duplicate_key_error key l c)) ->
  appends P r (add_line_duplicates (line_duplicates text) r).
Proof.
  intros HP. unfold add_line_duplicates.
  destruct (0 <? List.length (line_duplicates text)) eqn:E; [| apply appends_refl].
  rewrite (fold_push_reports
             (fun dup => duplicate_key_error (dup_key dup) (dup_line dup) (dup_column dup)))
    by exact E.
  eexists. split; [reflexivity |]. apply Forall_map, List.Forall_forall. intros d Hd.
  apply line_duplicates_positive in Hd as [Hl Hc]. by apply HP.
Qed.

(** [checkDuplicateKeys] ends with the report of [validateJsonSyntax] or with
    findings made by the line scan and the scope parser, each at a line and
    a column. *)
Lemma checkDuplicateKeys_appends (P : ValidationError -> Prop) text r :
  (forall key l c, 1 <= l -> 1 <= c -> P (duplicate_key_error key l c)) ->
  checkDuplicateKeys JSON_parse JSON_stringify text = Finishes r ->
  r = validateJsonSyntax JSON_parse text \/ appends P fresh_result r.
Proof.
  intros HP. unfold checkDuplicateKeys.
  set (stage := match compare_serialisations _ _ _ _ with Returns r => _ | Throws _ => _ end).
  assert (match stage with
          | inl s => s = validateJsonSyntax JSON_parse text
          | inr r => r = fresh_result
          end) as Hstage.
  { subst stage. destruct (compare_serialisations _ _ _ _) as [r0 | e] eqn:E.
    - by apply compare_serialisations_returns in E.
    - by destruct (valid (validateJsonSyntax JSON_parse text)). }
  destruct stage as [s | r0]; [intros [= <-]; by left |]. subst r0.
  pose proof (ScannerShape.scan_appends P HP text
                (add_line_duplicates (line_duplicates text) fresh_result)) as Hscan.
  pose proof (add_line_duplicates_appends P text fresh_result HP) as Hlines.
  destruct (Scanner.scan _ _) as [st | e st | |]; simpl in Hscan; [| | done | done].
  - intros [= <-]. right. eapply appends_trans; eassumption.
  - destruct (is_SyntaxError e && _).
    + destruct (valid (validateJsonSyntax JSON_parse text)); simpl; intros [= <-].
      * right. eapply appends_trans; eassumption.
      * by left.
    + intros [= <-]. right. eapply appends_trans; eassumption.
Qed.

Lemma checkJsonAnomalies_well_formed v :
  Forall well_formed (errors (checkJsonAnomalies JSON_stringify v)).
Proof.
  rewrite checkJsonAnomalies_unfold.
  assert (forall r r', appends well_formed r r' ->
                       Forall well_formed (errors r) -> Forall well_formed (errors r'))
    as Hstep by (intros; by eapply appends_errors).
  eapply Hstep; [apply checkSize_appends |].
  { intros. unfold well_formed. simpl. eauto. }
  { intros. unfold well_formed. simpl. eauto. }
  eapply Hstep; [apply checkDepth_appends; [done | unfold MAX_DEPTH; lia] |].
  eapply Hstep; [apply checkForInvalidNumbers_appends |].
  { intros. unfold well_formed. simpl. eauto. }
  unfold after_stringify. destruct (JSON_stringify v) as [s | e]; [constructor |].
  destruct e; try constructor.
  destruct (includes "circular" msg); [| constructor].
  constructor; [by repeat split | constructor].
Qed.

Lemma validateJsonSchema_well_formed data schema r :
  validateJsonSchema ajv_compile data schema = Returns r -> Forall well_formed (errors r).
Proof.
  unfold validateJsonSchema. destruct (ajv_compile schema) as [validate | e]; [| done].
  intros [= <-]. destruct (passed (validate data)); simpl; [constructor |].
  destruct (validate_errors (validate data)) as [errs |]; simpl; [| constructor].
  apply Forall_map, List.Forall_forall. intros err _. unfold well_formed. simpl. eauto.
Qed.

Lemma validateJson_well_formed text schema r :
  validateJson JSON_parse JSON_stringify ajv_compile text schema = Finishes r ->
  Forall well_formed (errors r).
Proof.
  unfold validateJson, validateJson_stages.
  pose proof (validateJsonSyntax_well_formed text) as Hs.
  destruct (checkDuplicateKeys JSON_parse JSON_stringify text) as [d | | |] eqn:D;
    simpl; try done.
  destruct (valid d) eqn:Vd; simpl.
  2:{ intros [= <-].
      apply (checkDuplicateKeys_appends well_formed) in D as [-> | D]; [done | |].
      - eapply appends_errors; [exact D | constructor].
      - intros key l c Hl Hc. unfold well_formed. simpl. split; [done |].
        exists l, c. by repeat split. }
  destruct (valid (validateJsonSyntax JSON_parse text)) eqn:Vs; simpl; [| by intros [= <-]].
  destruct (JSON_parse text) as [v | e]; simpl; [| done].
  pose proof (checkJsonAnomalies_well_formed v) as Ha.
  destruct schema as [s |]; simpl; [| by intros [= <-]].
  destruct (validateJsonSchema ajv_compile v s) as [sr | e] eqn:S; [| done].
  intros [= <-]. simpl. apply Forall_app. split; [exact Ha |].
  eapply validateJsonSchema_well_formed, S.
Qed.

(** X11. Every finding in a report of [validateJson] carries the optional
    properties of its kind: a [SyntaxError] or [DuplicateKey] finding has a
    line and a column, both at least 1, and no path; an [InvalidNumber],
    [LargeArray], [LargeObject] or [SchemaError] finding has a path and no
    position; the other findings have neither. *)
Theorem X11_findings_well_formed
    (text : string) (schema : option JsonValue) (r : ValidationResult) :
  validateJson JSON_parse JSON_stringify ajv_compile text schema = Finishes r ->
  Forall well_formed (errors r).
Proof. apply validateJson_well_formed. Qed.

End StagesAppend.

Lemma X11_findings_well_formed_witness :
  Reference.validateJson (Reference.json "{'a':1,'a':2}") None
  = Finishes (mkResult false [duplicate_key_error "a" 1 8; duplicate_key_error "a" 1 9])
  /\ Forall well_formed [duplicate_key_error "a" 1 8; duplicate_key_error "a" 1 9].
Proof.
  assert (Reference.validateJson (Reference.json "{'a':1,'a':2}") None
          = Finishes
              (mkResult false [duplicate_key_error "a" 1 8; duplicate_key_error "a" 1 9]))
    as H by (vm_compute; reflexivity).
  split; [exact H |].
  exact (X11_findings_well_formed Reference.JSON_parse Reference.JSON_stringify
           Reference.ajv_compile _ _ _ H).
Defined.

(** *** The component *)

Module ComponentFacts.
Import Component.

Section Handlers.

Variable JSON_parse : string -> completion JsonValue.
Variable JSON_stringify : JsonValue -> completion string.
Variable ajv_compile : JsonValue -> completion ValidateFunction.

Lemma shows_current_step st ev st' :
  shows_current JSON_parse JSON_stringify ajv_compile st -> enabled st ev = true ->
  handle JSON_parse JSON_stringify ajv_compile ev st = Finishes st' ->
  shows_current JSON_parse JSON_stringify ajv_compile st'.
Proof.
  intros Hst Hen. destruct ev as [value | file | content | |]; simpl.
  - intros [= <-]. intros r. done.
  - intros [= <-]. destruct file; exact Hst.
  - intros [= <-]. intros r. done.
  - simpl in Hen. rewrite truthy_trim in Hen. apply negb_true_iff in Hen.
    rewrite validateJsonInput_cases, Hen.
    destruct (validateJson _ _ _ _ _) as [r | | |] eqn:V; try done.
    intros [= <-] r'. simpl. intros [= <-]. done.
  - intros [= <-]. intros r. done.
Qed.

Lemma reachable_shows_current st :
  reachable JSON_parse JSON_stringify ajv_compile st ->
  shows_current JSON_parse JSON_stringify ajv_compile st.
Proof.
  induction 1 as [| st ev st' _ IH Hen Hstep]; [by intros r |].
  eapply shows_current_step; eassumption.
Qed.

(** X12. Whatever the user does, a report on display is the report of
    [validateJson] for the text in the input field, and that text is not blank:
    every change of the input removes the report, and the button that
    validates is disabled on a blank input.  Hence the [EmptyInput] finding
    of the handler is never on display. *)
Theorem X12_display_shows_current_report (st : State) (r : ValidationResult) :
  reachable JSON_parse JSON_stringify ajv_compile st ->
  validationResult st = Some r ->
  blank (jsonInput st) = false
  /\ validateJson JSON_parse JSON_stringify ajv_compile (jsonInput st) None = Finishes r
  /\ count_kind EmptyInput r = 0.
Proof.
  intros Hst Hr. destruct (reachable_shows_current st Hst r Hr) as [Hb Hv].
  split; [exact Hb |]. split; [exact Hv |].
  apply validateJson_kinds in Hv. by apply (kinds_in_count engine_kinds).
Qed.

End Handlers.

End ComponentFacts.

Lemma X12_display_shows_current_report_witness :
  Component.reachable Reference.JSON_parse Reference.JSON_stringify Reference.ajv_compile
    (Component.mkState (Reference.json "[1]") (Some fresh_result) EmptyString)
  /\ blank (Reference.json "[1]") = false
  /\ Reference.validateJson (Reference.json "[1]") None = Finishes fresh_result
  /\ count_kind EmptyInput fresh_result = 0.
Proof.
  assert (Component.reachable Reference.JSON_parse Reference.JSON_stringify
            Reference.ajv_compile
            (Component.mkState (Reference.json "[1]") (Some fresh_result) EmptyString)) as H.
  { eapply (Component.reachable_step _ _ _
              (Component.mkState (Reference.json "[1]") None EmptyString)
              Component.ValidateClicked).
    - eapply (Component.reachable_step _ _ _ Component.initial
                (Component.InputChanged (Reference.json "[1]"))).
      + apply Component.reachable_initial.
      + reflexivity.
      + reflexivity.
    - vm_compute. reflexivity.
    - vm_compute. reflexivity. }
  split; [exact H |].
  exact (ComponentFacts.X12_display_shows_current_report Reference.JSON_parse
           Reference.JSON_stringify Reference.ajv_compile _ _ H eq_refl).
Defined.

(** ** The scope parser on the text of a document *)

Module PrintFacts.
Import Scanner ScannerSpec ScannerFacts Agreement.






Lemma sync_white_token st s : sync st s -> starts_token s -> sync (white st) s.
Proof.
  intros Hs (c & s' & -> & Hc). apply sync_white in Hs. simpl in Hs. by rewrite Hc in Hs.
Qed.






Section Containers.

Variable input : string.
Variable fuel : nat.


Lemma seen_before_In key seen : seen_before key seen = true <-> In key seen.
Proof.
  unfold seen_before. rewrite existsb_exists. split.
  - intros (k & Hk & E). apply String.eqb_eq in E. by subst.
  - intros H. exists key. split; [done | apply String.eqb_refl].
Qed.



End Containers.



End PrintFacts.



(** ** Positions *)

Lemma position_loop_advance a : forall text i lc b,
  skip i text = (a ++ b)%string ->
  position_loop text (String.length a) i lc = advance a lc.
Proof.
  induction a as [| ch a IH]; intros text i [l c] b H; [done |].
  rewrite string_app_cons in H. simpl.
  rewrite get_skip, H. apply (IH _ _ _ b). by rewrite skip_S, H.
Qed.

Lemma advance_app a : forall b lc, advance (a ++ b) lc = advance b (advance a lc).
Proof.
  induction a as [| ch a IH]; intros b [l c]; [done |].
  rewrite string_app_cons. simpl. apply IH.
Qed.

Lemma advance_same_line s : forall l c,
  all_chars (fun ch => negb (Ascii.eqb ch LF)) s = true ->
  advance s (l, c) = (l, c + String.length s).
Proof.
  induction s as [| ch s IH]; intros l c H; simpl in *; [by rewrite Nat.add_0_r |].
  apply andb_prop in H as [Hch H]. apply negb_true_iff in Hch. rewrite Hch, IH by done.
  f_equal. lia.
Qed.

Lemma advance_line s : forall l c,
  fst (advance s (l, c)) = l + line_feeds (String.length s) s.
Proof.
  induction s as [| ch s IH]; intros l c; simpl; [lia |].
  destruct (Ascii.eqb ch LF); rewrite IH; lia.
Qed.

Lemma advance_beyond text n : forall i l c,
  String.length text <= i ->
  position_loop text n i (l, c) = (l, c + n).
Proof.
  induction n as [| n IH]; intros i l c H; simpl; [by rewrite Nat.add_0_r |].
  assert (String.get i text = None) as ->.
  { clear IH. revert i H. induction text as [| ch text IHt]; intros i H; [by destruct i |].
    destruct i as [| i]; simpl in *; [lia |]. apply IHt. lia. }
  rewrite IH by lia. f_equal. lia.
Qed.

Lemma line_column_prefix before rest :
  line_column (before ++ rest) (String.length before) = advance before (1, 1).
Proof. unfold line_column. apply (position_loop_advance before _ 0 _ rest). apply skip_0. Qed.

(** X14. The position that [validateJsonSyntax] and the scope parser compute
    for an offset: on the first line the column is one more than the offset;
    after a line feed the column is one more than the number of characters
    since the last line feed, and the line is one more than the number of
    line feeds before the offset. *)
Theorem X14_line_column_of_offset (pre mid rest : string) :
  all_chars (fun ch => negb (Ascii.eqb ch LF)) mid = true ->
  line_column (mid ++ rest) (String.length mid) = (1, 1 + String.length mid)
  /\ line_column (pre ++ String LF (mid ++ rest)) (String.length pre + 1 + String.length mid)
     = (2 + line_feeds (String.length pre) pre, 1 + String.length mid).
Proof.
  intros Hmid. split.
  - rewrite line_column_prefix. by apply advance_same_line.
  - replace (pre ++ String LF (mid ++ rest))%string
      with ((pre ++ String LF mid) ++ rest)%string
      by (by rewrite string_app_assoc, string_app_cons).
    replace (String.length pre + 1 + String.length mid)
      with (String.length (pre ++ String LF mid))
      by (rewrite string_length_app; simpl; lia).
    rewrite line_column_prefix, advance_app.
    pose proof (advance_line pre 1 1) as Hline.
    destruct (advance pre (1, 1)) as [l c]. simpl in Hline. subst l.
    simpl. by rewrite advance_same_line.
Qed.

Lemma X14_line_column_of_offset_witness :
  all_chars (fun ch => negb (Ascii.eqb ch LF)) "cd" = true
  /\ line_column ("ab" ++ String LF ("cd" ++ "e")) (String.length "ab" + 1 + String.length "cd")
     = (2 + line_feeds (String.length "ab") "ab", 1 + String.length "cd").
Proof.
  split; [reflexivity |].
  exact (proj2 (X14_line_column_of_offset "ab" "cd" "e" eq_refl)).
Defined.

(** ** Offsets in the messages of the parser *)

Lemma parse_digits_of_uint d : forall acc,
  parse_digits acc (NilEmpty.string_of_uint d) = Nat.of_uint_acc d acc.
Proof.
  induction d; intros acc; simpl; [done | ..];
    rewrite IHd, Nat.tail_mul_spec; f_equal; unfold digit_value, code; simpl; lia.
Qed.

Lemma parseInt_string_of_nat n : parseInt (string_of_nat n) = n.
Proof.
  unfold parseInt, string_of_nat. rewrite parse_digits_of_uint.
  apply Unsigned.of_to.
Qed.

Lemma span_digits_of_uint d :
  span_digits (NilEmpty.string_of_uint d) = (NilEmpty.string_of_uint d, EmptyString).
Proof. induction d; simpl; [done | ..]; by rewrite IHd. Qed.

Lemma truthy_string_of_nat n : truthy (string_of_nat n) = true.
Proof.
  unfold string_of_nat. destruct (Nat.to_uint n) eqn:E; try done.
  pose proof (Unsigned.of_to n) as H. rewrite E in H. simpl in H. subst n. done.
Qed.

Lemma prefix_app p s : String.prefix p (p ++ s) = true.
Proof.
  induction p as [| a p IH]; [by destruct s |].
  rewrite string_app_cons. simpl. by destruct (ascii_dec a a).
Qed.

Lemma skip_app p s : skip (String.length p) (p ++ s) = s.
Proof.
  induction p as [| a p IH]; [apply skip_0 |]. by rewrite string_app_cons.
Qed.

Lemma match_at_position_step ch s :
  String.prefix "at position " (String ch s) = false ->
  match_at_position (String ch s) = match_at_position s.
Proof. intros H. cbn [match_at_position]. by rewrite H. Qed.

Lemma match_at_position_unexpected_token c n :
  match_at_position (unexpected_token_message c n) = Some (string_of_nat n).
Proof.
  unfold unexpected_token_message.
  assert (match_at_position ("at position " ++ string_of_nat n) = Some (string_of_nat n))
    as Hhere.
  { change ("at position " ++ string_of_nat n)%string
      with (String "a" ("t position " ++ string_of_nat n))%string.
    cbn [match_at_position].
    change (String "a" ("t position " ++ string_of_nat n))%string
      with ("at position " ++ string_of_nat n)%string.
    rewrite prefix_app.
    assert (skip 12 ("at position " ++ string_of_nat n) = string_of_nat n) as ->
      by apply (skip_app "at position ").
    unfold string_of_nat at 1. rewrite span_digits_of_uint.
    fold (string_of_nat n). by rewrite truthy_string_of_nat. }
  change ("Unexpected token " ++ String c (" in JSON at position " ++ string_of_nat n))%string
    with ("Unexpected token " ++ String c (" in JSON " ++ ("at position " ++ string_of_nat n)))%string.
  set (tail := ("at position " ++ string_of_nat n)%string) in *. clearbody tail.
  rewrite !string_app_cons, !string_app_nil.
  do 17 (rewrite match_at_position_step by reflexivity).
  rewrite match_at_position_step
    by (cbn [String.prefix]; destruct (ascii_dec "a" c); reflexivity).
  do 9 (rewrite match_at_position_step by reflexivity).
  exact Hhere.
Qed.

Section Offsets.

Variable JSON_parse : string -> completion JsonValue.

(** X15. When the parser reports a token at an offset in the form of V8, the
    finding of [validateJsonSyntax] stands at the line and the column of that
    offset: the digits of the message are read back as the offset. *)
Theorem X15_offset_read_back (text : string) (c : ascii) (n : nat) :
  JSON_parse text = Throws (SyntaxErrorExn (unexpected_token_message c n)) ->
  validateJsonSyntax JSON_parse text
  = mkResult false
      [mkError SyntaxError (unexpected_token_message c n) None
         (Some (fst (line_column text n))) (Some (snd (line_column text n)))].
Proof.
  intros E. unfold validateJsonSyntax. rewrite E, match_at_position_unexpected_token.
  simpl. rewrite parseInt_string_of_nat. by destruct (line_column text n).
Qed.

End Offsets.

Lemma X15_offset_read_back_witness :
  Reference.JSON_parse (Reference.json ("{'a':1," ++ String LF "]"))
  = Throws (SyntaxErrorExn (unexpected_token_message "]" 8))
  /\ validateJsonSyntax Reference.JSON_parse (Reference.json ("{'a':1," ++ String LF "]"))
     = mkResult false
         [mkError SyntaxError (unexpected_token_message "]" 8) None
            (Some (fst (line_column (Reference.json ("{'a':1," ++ String LF "]")) 8)))
            (Some (snd (line_column (Reference.json ("{'a':1," ++ String LF "]")) 8)))].
Proof.
  assert (Reference.JSON_parse (Reference.json ("{'a':1," ++ String LF "]"))
          = Throws (SyntaxErrorExn (unexpected_token_message "]" 8))) as H
    by (vm_compute; reflexivity).
  split; [exact H |].
  exact (X15_offset_read_back Reference.JSON_parse _ _ _ H).
Defined.

(** ** The walkers on the call stack *)

Module StackFacts.

Lemma frames_positive v : 1 <= frames v.
Proof. destruct v; simpl; lia. Qed.

Section Trees.

Variable heap : Graph.Heap.

(** [checkForInvalidNumbers] visits every node: it returns when the stack
    admits the calls that the tree needs, and overflows otherwise. *)
Lemma checkForInvalidNumbers_frames v : forall stack path r,
  Graph.checkForInvalidNumbers heap stack (Graph.of_tree v) path r
  = if frames v <=? stack then Finishes (checkForInvalidNumbers v path r)
    else Raises Graph.stack_overflow.
Proof.
  induction v as [| b | n | s | items IH | members IH] using JsonValue_tree_ind;
    intros [| stack] path r; try reflexivity.
  - simpl. by destruct (nonfinite_text n).
  - cbn [frames Graph.of_tree Graph.checkForInvalidNumbers checkForInvalidNumbers].
    change (S (list_max (map frames items)) <=? S stack)
      with (list_max (map frames items) <=? stack).
    generalize 0 as index. revert r.
    induction IH as [| item items Hitem _ IHl]; intros r index; [done |].
    simpl. rewrite Hitem.
    destruct (Nat.leb_spec (frames item) stack) as [Hi | Hi].
    + rewrite IHl.
      destruct (Nat.leb_spec (list_max (map frames items)) stack);
        destruct (Nat.leb_spec (Nat.max (frames item) (list_max (map frames items))) stack);
        try done; lia.
    + destruct (Nat.leb_spec (Nat.max (frames item) (list_max (map frames items))) stack);
        [lia | done].
  - cbn [frames Graph.of_tree Graph.checkForInvalidNumbers checkForInvalidNumbers].
    change (S (list_max (map (fun kv => frames (snd kv)) members)) <=? S stack)
      with (list_max (map (fun kv => frames (snd kv)) members) <=? stack).
    revert r.
    induction IH as [| [key value] members Hvalue _ IHl]; intros r; [done |].
    simpl in *. rewrite Hvalue.
    destruct (Nat.leb_spec (frames value) stack) as [Hi | Hi].
    + rewrite IHl.
      destruct (Nat.leb_spec (list_max (map (fun kv => frames (snd kv)) members)) stack);
        destruct (Nat.leb_spec
                    (Nat.max (frames value)
                       (list_max (map (fun kv => frames (snd kv)) members))) stack);
        try done; lia.
    + destruct (Nat.leb_spec
                  (Nat.max (frames value)
                     (list_max (map (fun kv => frames (snd kv)) members))) stack);
        [lia | done].
Qed.

Lemma checkSize_frames v : forall stack path r,
  frames v <= stack ->
  Graph.checkSize heap stack (Graph.of_tree v) path r = Finishes (checkSize v path r).
Proof.
  induction v as [| b | n | s | items IH | members IH] using JsonValue_tree_ind;
    intros [| stack] path r Hh; simpl in Hh; try lia; simpl; try done.
  - rewrite length_map. destruct (MAX_COLLECTION_SIZE <? List.length items); [done |].
    assert (list_max (map frames items) <= stack) as Hm by lia. clear Hh.
    generalize 0 as index. revert r.
    induction IH as [| item items Hitem _ IHl]; intros r index; [done |].
    simpl in *. rewrite Hitem by lia. apply IHl. lia.
  - rewrite length_map.
    set (r0 := if MAX_COLLECTION_SIZE <? List.length members then _ else _).
    clearbody r0.
    assert (list_max (map (fun kv => frames (snd kv)) members) <= stack) as Hm by lia.
    clear Hh r. revert r0.
    induction IH as [| [key value] members Hvalue _ IHl]; intros r; [done |].
    simpl in *. rewrite Hvalue by lia. apply IHl. lia.
Qed.

Lemma checkDepth_frames v : forall stack depth r,
  frames v <= stack ->
  Graph.checkDepth heap stack (Graph.of_tree v) depth r = Finishes (checkDepth v depth r).
Proof.
  induction v as [| b | n | s | items IH | members IH] using JsonValue_tree_ind;
    intros [| stack] depth r Hh; simpl in Hh; try lia; simpl;
    destruct (MAX_DEPTH <? depth); try done.
  - assert (list_max (map frames items) <= stack) as Hm by lia. clear Hh.
    match goal with
    | |- _ = Finishes (?g items depth r) =>
        enough (forall maxDepth r,
                  Graph.each_depth (fun item => Graph.checkDepth heap stack item (depth + 1))
                    (map Graph.of_tree items) maxDepth r
                  = Finishes (g items maxDepth r)) as Hloop by apply Hloop
    end.
    clear r. induction IH as [| item items Hitem _ IHl]; intros maxDepth r; [done |].
    simpl in *. rewrite Hitem by lia.
    destruct (checkDepth item (depth + 1) r) as [d r']. apply IHl. lia.
  - assert (list_max (map (fun kv => frames (snd kv)) members) <= stack) as Hm by lia.
    clear Hh.
    match goal with
    | |- _ = Finishes (?g members depth r) =>
        enough (forall maxDepth r,
                  Graph.each_depth (fun item => Graph.checkDepth heap stack item (depth + 1))
                    (map snd (map (fun kv => (fst kv, Graph.of_tree (snd kv))) members))
                    maxDepth r
                  = Finishes (g members maxDepth r)) as Hloop by apply Hloop
    end.
    clear r. induction IH as [| [key value] members Hvalue _ IHl]; intros maxDepth r; [done |].
    simpl in *. rewrite Hvalue by lia.
    destruct (checkDepth value (depth + 1) r) as [d r']. apply IHl. lia.
Qed.

End Trees.

Section Pipeline.

Variable JSON_parse : string -> completion JsonValue.
Variable JSON_stringify : JsonValue -> completion string.
Variable ajv_compile : JsonValue -> completion ValidateFunction.
Variable stack : nat.

(** [checkJsonAnomalies] returns its report when the stack admits the calls
    that the tree needs; otherwise the [RangeError] of its first walker
    leaves it. *)
Lemma checkJsonAnomalies_on_stack_cases v :
  checkJsonAnomalies_on_stack JSON_stringify stack v
  = if frames v <=? stack then Finishes (checkJsonAnomalies JSON_stringify v)
    else Raises Graph.stack_overflow.
Proof.
  unfold checkJsonAnomalies_on_stack, Graph.checkJsonAnomalies, checkJsonAnomalies.
  rewrite checkForInvalidNumbers_frames.
  destruct (Nat.leb_spec (frames v) stack) as [H | H]; [| done].
  rewrite checkDepth_frames by exact H.
  destruct (checkDepth _ _ _) as [d r]. by rewrite checkSize_frames.
Qed.

Lemma validateJson_on_stack_parsed text v d schema :
  JSON_parse text = Returns v ->
  checkDuplicateKeys JSON_parse JSON_stringify text = Finishes d ->
  valid d = true ->
  validateJson_on_stack JSON_parse JSON_stringify ajv_compile stack text schema
  = if frames v <=? stack
    then validateJson JSON_parse JSON_stringify ajv_compile text schema
    else Raises Graph.stack_overflow.
Proof.
  intros Hp Hd Hv. unfold validateJson_on_stack, validateJson, validateJson_stages.
  rewrite Hd, Hv. simpl. rewrite (validateJsonSyntax_returns _ _ _ Hp). simpl.
  rewrite Hp, checkJsonAnomalies_on_stack_cases.
  destruct (frames v <=? stack); [| done]. by destruct schema.
Qed.

End Pipeline.

End StackFacts.

Section StackedPipeline.

Variable JSON_parse : string -> completion JsonValue.
Variable JSON_stringify : JsonValue -> completion string.
Variable ajv_compile : JsonValue -> completion ValidateFunction.

(** X5. An exception that leaves [validateJson] is either the [RangeError] of
    a walker of [checkJsonAnomalies] that needs more calls than the stack
    admits, or the exception that the schema library throws when it compiles
    the schema.  On a text that has passed the earlier stages the first
    happens exactly when the parsed tree needs more calls than the stack
    admits; otherwise [validateJson] does what it does without regard to the
    stack. *)
Theorem X5_only_overflow_or_compile_throws
    (stack : nat) (text : string) (schema : option JsonValue) :
  (forall e,
     validateJson_on_stack JSON_parse JSON_stringify ajv_compile stack text schema = Raises e ->
     (e = Graph.stack_overflow
      /\ exists v, JSON_parse text = Returns v /\ stack < frames v)
     \/ (exists s, schema = Some s /\ ajv_compile s = Throws e))
  /\ (forall v d,
        JSON_parse text = Returns v ->
        checkDuplicateKeys JSON_parse JSON_stringify text = Finishes d ->
        valid d = true ->
        validateJson_on_stack JSON_parse JSON_stringify ajv_compile stack text schema
        = if frames v <=? stack
          then validateJson JSON_parse JSON_stringify ajv_compile text schema
          else Raises Graph.stack_overflow).
Proof.
  split; [| intros v d; apply StackFacts.validateJson_on_stack_parsed].
  intros e. unfold validateJson_on_stack.
  pose proof (checkDuplicateKeys_cases JSON_parse JSON_stringify text) as Hc.
  destruct (checkDuplicateKeys JSON_parse JSON_stringify text) as [d | | |]; simpl; try done.
  destruct (valid d); simpl; [| done].
  destruct (valid (validateJsonSyntax JSON_parse text)) eqn:Vs; simpl; [| done].
  apply validateJsonSyntax_valid in Vs as [v Hv]. rewrite Hv.
  rewrite StackFacts.checkJsonAnomalies_on_stack_cases.
  destruct (Nat.leb_spec (frames v) stack) as [Hf | Hf].
  - destruct schema as [s |]; [| done].
    unfold validateJsonSchema. destruct (ajv_compile s) as [validate | e'] eqn:C; [done |].
    intros [= ->]. right. eauto.
  - intros [= <-]. left. eauto.
Qed.

(** X16. For every text that the reference parser accepts, on every host
    [checkDuplicateKeys] returns a report: the scope parser neither loops nor
    lets an exception out on it; and [validateJson] without a schema returns a
    report unless a walker of [checkJsonAnomalies] overflows the stack. *)
Theorem X16_returns_on_json_text (text : string) (v' : JsonValue) :
  Reference.JSON_parse text = Returns v' ->
  (exists r, checkDuplicateKeys JSON_parse JSON_stringify text = Finishes r)
  /\ forall stack,
       (exists r,
          validateJson_on_stack JSON_parse JSON_stringify ajv_compile stack text None
          = Finishes r)
       \/ validateJson_on_stack JSON_parse JSON_stringify ajv_compile stack text None
          = Raises Graph.stack_overflow.
Proof.
  intros Hv'.
  assert (exists r, checkDuplicateKeys JSON_parse JSON_stringify text = Finishes r)
    as [d Hd].
  { destruct (JSON_parse text) as [v | e] eqn:P.
    - unfold checkDuplicateKeys.
      rewrite (validateJsonSyntax_returns _ _ _ P). simpl.
      destruct (compare_serialisations _ _ _ _) as [r | e];
        match goal with
        | |- context [Scanner.scan text ?r0] =>
            destruct (Agreement.scan_accepted text v' r0 Hv') as [st ->]
        end; eauto.
    - rewrite (checkDuplicateKeys_unparsable _ _ _ _ P). eauto. }
  split; [eauto |]. intros stack. unfold validateJson_on_stack. rewrite Hd.
  destruct (valid d); simpl; [| eauto].
  destruct (valid (validateJsonSyntax JSON_parse text)) eqn:Vs; simpl; [| eauto].
  apply validateJsonSyntax_valid in Vs as [v ->].
  rewrite StackFacts.checkJsonAnomalies_on_stack_cases.
  destruct (frames v <=? stack); eauto.
Qed.

End StackedPipeline.

Lemma X5_only_overflow_or_compile_throws_witness :
  Reference.JSON_parse (Reference.json "[[[1]]]") = Returns (nest 3 (JNumber (Finite 1 0)))
  /\ checkDuplicateKeys Reference.JSON_parse Reference.JSON_stringify
       (Reference.json "[[[1]]]") = Finishes fresh_result
  /\ frames (nest 3 (JNumber (Finite 1 0))) = 4
  /\ validateJson_on_stack Reference.JSON_parse Reference.JSON_stringify
       Reference.ajv_compile 3 (Reference.json "[[[1]]]") None
     = Raises Graph.stack_overflow.
Proof.
  assert (Reference.JSON_parse (Reference.json "[[[1]]]")
          = Returns (nest 3 (JNumber (Finite 1 0)))) as Hp by (vm_compute; reflexivity).
  assert (checkDuplicateKeys Reference.JSON_parse Reference.JSON_stringify
            (Reference.json "[[[1]]]") = Finishes fresh_result)
    as Hd by (vm_compute; reflexivity).
  split; [exact Hp |]. split; [exact Hd |]. split; [reflexivity |].
  pose proof (proj2 (X5_only_overflow_or_compile_throws Reference.JSON_parse
                       Reference.JSON_stringify Reference.ajv_compile 3
                       (Reference.json "[[[1]]]") None)
                (nest 3 (JNumber (Finite 1 0))) fresh_result Hp Hd eq_refl) as H.
  change (frames (nest 3 (JNumber (Finite 1 0))) <=? 3) with false in H.
  exact H.
Defined.

Lemma X16_returns_on_json_text_witness :
  Reference.JSON_parse (Reference.json "{'a':[1,{'b':'x','b':null}]}")
  = Returns
      (JObject [("a", JArray [JNumber (Finite 1 0); JObject [("b", JNull)]])])
  /\ exists r,
       checkDuplicateKeys Reference.JSON_parse Reference.JSON_stringify
         (Reference.json "{'a':[1,{'b':'x','b':null}]}") = Finishes r.
Proof.
  assert (Reference.JSON_parse (Reference.json "{'a':[1,{'b':'x','b':null}]}")
          = Returns
              (JObject [("a", JArray [JNumber (Finite 1 0); JObject [("b", JNull)]])]))
    as Hp by (vm_compute; reflexivity).
  split; [exact Hp |].
  exact (proj1 (X16_returns_on_json_text Reference.JSON_parse Reference.JSON_stringify
                  Reference.ajv_compile _ _ Hp)).
Defined.

(** ** The keys of an object *)

Lemma distinct_cons key l :
  distinct (key :: l) = true -> ~ In key l /\ distinct l = true.
Proof.
  simpl. intros H. apply andb_prop in H as [Hk Hl]. split; [| done].
  apply negb_true_iff in Hk. intros Hin.
  apply PrintFacts.seen_before_In in Hin. congruence.
Qed.

Lemma detectDuplicates_unique v :
  unique_keys v = true -> forall path acc, detectDuplicates v path acc = acc.
Proof.
  induction v as [| b | n | s | items IH | members IH] using JsonValue_tree_ind;
    intros Hu path acc; try reflexivity.
  - simpl in *. generalize 0 as index. revert acc.
    induction IH as [| item items Hitem _ IHl]; intros acc index; [done |].
    simpl in Hu. apply andb_prop in Hu as [Hi Hl].
    rewrite Hitem by done. by apply IHl.
  - simpl in *. apply andb_prop in Hu as [Hd Hu].
    assert (forall k, In k (map fst members) -> k ∉ (∅ : gset string)) as Hfresh
      by (intros k _; apply not_elem_of_empty).
    revert Hfresh. generalize (∅ : gset string) as keySet. revert acc.
    induction IH as [| [key value] members Hvalue _ IHl]; intros acc keySet Hfresh; [done |].
    simpl in Hu, Hd. apply andb_prop in Hu as [Hv Hl].
    apply distinct_cons in Hd as [Hkey Hd].
    rewrite bool_decide_eq_false_2 by (apply Hfresh; by left).
    rewrite Hvalue by done. apply IHl; try done.
    intros k Hk. rewrite elem_of_union, elem_of_singleton.
    intros [-> | Hin]; [done |]. apply (Hfresh k); [by right | done].
Qed.

(** X17. [detectDuplicates] finds no duplicate in any tree whose objects list
    each of their keys once, as every object of the host does: the set of the
    keys seen never holds the next key of [Object.keys].  The pass that
    compares the two serialisations therefore cannot add a finding, whatever
    the two texts are. *)
Theorem X17_object_keys_never_repeat (v : JsonValue) :
  unique_keys v = true ->
  (forall path duplicateKeyPaths,
     detectDuplicates v path duplicateKeyPaths = duplicateKeyPaths)
  /\ forall result : ValidationResult,
       (if 0 <? List.length (detectDuplicates v EmptyString [])
        then fold_left (fun result path => push (duplicate_path_error path) result)
               (detectDuplicates v EmptyString []) (mkResult false (errors result))
        else result) = result.
Proof.
  intros Hu. split; [by apply detectDuplicates_unique |].
  intros result. by rewrite detectDuplicates_unique.
Qed.

Lemma X17_object_keys_never_repeat_witness :
  Reference.JSON_parse (Reference.json "{'a':{'b':1,'b':2},'a':[{'c':1},{'c':2}]}")
  = Returns
      (JObject
         [("a", JArray [JObject [("c", JNumber (Finite 1 0))];
                        JObject [("c", JNumber (Finite 2 0))]])])
  /\ unique_keys
       (JObject
          [("a", JArray [JObject [("c", JNumber (Finite 1 0))];
                         JObject [("c", JNumber (Finite 2 0))]])]) = true
  /\ detectDuplicates
       (JObject
          [("a", JArray [JObject [("c", JNumber (Finite 1 0))];
                         JObject [("c", JNumber (Finite 2 0))]])])
       EmptyString [] = [].
Proof.
  split; [vm_compute; reflexivity |]. split; [reflexivity |].
  exact (proj1 (X17_object_keys_never_repeat
                  (JObject
                     [("a", JArray [JObject [("c", JNumber (Finite 1 0))];
                                    JObject [("c", JNumber (Finite 2 0))]])])
                  eq_refl) EmptyString []).
Defined.

(** ** A string literal without its closing quote *)

Module UnterminatedFacts.
Import Scanner ScannerSpec ScannerFacts Agreement.

Lemma string_loop_unterminated n : forall s a str,
  String.length s <= n ->
  all_chars (fun c => negb (Ascii.eqb c DQUOTE)) s = true ->
  string_loop s a str = None.
Proof.
  induction n as [| n IH]; intros s a str Hn Hs.
  - destruct s; [done | simpl in Hn; lia].
  - destruct s as [| c s]; [done |]. simpl in *.
    apply andb_prop in Hs as [Hc Hs]. apply negb_true_iff in Hc. rewrite Hc.
    destruct (Ascii.eqb c BACKSLASH); [| apply IH; [lia | done]].
    destruct s as [| c2 s2]; [done |]. simpl in *.
    apply andb_prop in Hs as [_ Hs]. apply IH; [lia | done].
Qed.

Lemma scan_unterminated s r :
  all_chars (fun c => negb (Ascii.eqb c DQUOTE)) s = true ->
  scan (String DQUOTE s) r = Forever.
Proof.
  intros Hs. unfold scan. rewrite white_initial.
  set (st0 := next (mkState 0 (Some SPACE) (String DQUOTE s) r)).
  assert (sync st0 (String DQUOTE s)) as Hs0 by (subst st0; by unfold next).
  assert (sync (white st0) (String DQUOTE s)) as Hw
    by (apply PrintFacts.sync_white_token; [done | by eexists _, _]).
  unfold parser_fuel. rewrite Nat.add_comm. simpl.
  assert (sync (white (white st0)) (String DQUOTE s)) as Hw2
    by (apply PrintFacts.sync_white_token; [done | by eexists _, _]).
  rewrite (sync_ch_is _ _ _ "{"%char Hw2), (sync_ch_is _ _ _ "["%char Hw2),
    (sync_ch_is _ _ _ DQUOTE Hw2). simpl.
  unfold string_. rewrite (sync_ch_is _ _ _ DQUOTE Hw2). simpl.
  destruct Hw2 as [_ ->].
  by rewrite (string_loop_unterminated (String.length s) s) by done.
Qed.

End UnterminatedFacts.

(** X18. On a text that starts with a double quote and holds no other, the
    scope parser does not return: [string] reads past the end of the text,
    where [next] yields the empty string for ever. *)
Theorem X18_unterminated_string_loops (s : string) (r : ValidationResult) :
  all_chars (fun c => negb (Ascii.eqb c DQUOTE)) s = true ->
  Scanner.scan (String DQUOTE s) r = Scanner.Forever.
Proof. apply UnterminatedFacts.scan_unterminated. Qed.

Lemma X18_unterminated_string_loops_witness :
  all_chars (fun c => negb (Ascii.eqb c DQUOTE)) "abc" = true
  /\ Scanner.scan (String DQUOTE "abc") fresh_result = Scanner.Forever.
Proof.
  split; [reflexivity |].
  exact (X18_unterminated_string_loops "abc" fresh_result eq_refl).
Defined.

(** X19. For a tree, with a call stack deeper than the tree is high, the
    walkers of [checkJsonAnomalies] on the object graph of the tree do not
    exhaust the stack and return the report computed on the tree. *)
Theorem X19_walkers_within_stack
    (heap : Graph.Heap)
    (JSON_stringify_graph : Graph.Heap -> Graph.Value -> completion string)
    (JSON_stringify : JsonValue -> completion string)
    (v : JsonValue) (stack : nat) :
  (forall v, JSON_stringify_graph heap (Graph.of_tree v) = JSON_stringify v) ->
  height v < stack ->
  Graph.checkJsonAnomalies heap JSON_stringify_graph stack (Graph.of_tree v)
  = Finishes (checkJsonAnomalies JSON_stringify v).
Proof. intros Hs Hh. by apply GraphFacts.checkJsonAnomalies_of_tree. Qed.

Lemma X19_walkers_within_stack_witness :
  (forall v : JsonValue,
     (fun (_ : Graph.Heap) (_ : Graph.Value) => Returns EmptyString) (∅ : Graph.Heap)
       (Graph.of_tree v)
     = (fun _ : JsonValue => Returns EmptyString) v)
  /\ height (JArray [JObject [("a", JNumber NaN)]]) < 3
  /\ Graph.checkJsonAnomalies ∅ (fun _ _ => Returns EmptyString) 3
       (Graph.of_tree (JArray [JObject [("a", JNumber NaN)]]))
     = Finishes
         (checkJsonAnomalies (fun _ => Returns EmptyString)
            (JArray [JObject [("a", JNumber NaN)]])).
Proof.
  assert (height (JArray [JObject [("a", JNumber NaN)]]) < 3) as Hh by (simpl; lia).
  split; [done |]. split; [exact Hh |].
  exact (X19_walkers_within_stack ∅ (fun _ _ => Returns EmptyString)
           (fun _ => Returns EmptyString) _ 3 (fun _ => eq_refl) Hh).
Defined.
